(** * Synapto: the text-to-sign animation pipeline

    A shallow embedding of the core of the repository
    ([src/components/features/sign-3d]): the pose model and its
    interpolator, the letter and word tables, the gloss resolver, the
    lip-sync and emotion engines and the playback controller.

    Conventions.
    - A JavaScript [number] is an element of a type [num] carrying the
      operations of [JsNumber].  Two instances are given: [float_number],
      IEEE-754 binary64 as the program runs it, and [Q_number], the same
      expressions over the rationals, used where a statement is about exact
      arithmetic.
    - A JavaScript string is a [string]: its characters stand for the code
      units U+0000..U+00FF.  Where a statement is about a text of any
      UTF-16 code units, the text is a list of them ([Utf16]) and
      [toLowerCase] is a parameter with the facts of the Unicode lower-case
      mapping the program depends on.
    - An object literal used as a table is an association list in insertion
      order; a bracket read [o[k]] also sees [Object.prototype]. *)

From Stdlib Require Import List String Ascii Bool Arith NArith ZArith QArith.
From Stdlib Require Import Sorted Lia Lqa Floats Uint63.
Import ListNotations.

Set Implicit Arguments.
Local Open Scope string_scope.

(** ** Numbers *)

Declare Scope js_scope.
Delimit Scope js_scope with js.

Class JsNumber (num : Type) : Type := {
  num_lit : Q -> num;              (* a decimal literal *)
  num_add : num -> num -> num;
  num_sub : num -> num -> num;
  num_mul : num -> num -> num;
  num_div : num -> num -> num;
  num_eqb : num -> num -> bool;    (* a === b *)
  num_ltb : num -> num -> bool;    (* a < b *)
  num_leb : num -> num -> bool;    (* a <= b *)
  num_truthy : num -> bool;        (* ToBoolean(a) *)
  num_min : num -> num -> num      (* Math.min(a, b) *)
}.

Notation "# q" := (num_lit q%Q) (at level 9, q at level 0, format "# q") : js_scope.
Infix "+" := num_add : js_scope.
Infix "-" := num_sub : js_scope.
Infix "*" := num_mul : js_scope.
Infix "/" := num_div : js_scope.
Infix "===" := num_eqb (at level 70, no associativity) : js_scope.
Infix "<?" := num_ltb : js_scope.
Infix "<=?" := num_leb : js_scope.

(** *** IEEE-754 binary64 *)

Module Float64.

(** The double nearest to a small integer. *)
Definition of_Z (z : Z) : float :=
  match z with
  | Z0 => PrimFloat.zero
  | Zpos _ => PrimFloat.of_uint63 (Uint63.of_Z z)
  | Zneg _ => PrimFloat.opp (PrimFloat.of_uint63 (Uint63.of_Z (Z.opp z)))
  end.

(** A decimal literal [n/10^k] denotes the double nearest to it, which is
    what the correctly rounded quotient of the two integers gives. *)
Definition lit (q : Q) : float :=
  PrimFloat.div (of_Z (Qnum q)) (of_Z (Zpos (Qden q))).

Definition truthy (x : float) : bool :=
  negb (PrimFloat.eqb x PrimFloat.zero || PrimFloat.is_nan x).

(** [Math.min]: NaN if either argument is, [-0] below [+0]. *)
Definition min (a b : float) : float :=
  if PrimFloat.is_nan a || PrimFloat.is_nan b then PrimFloat.nan
  else if PrimFloat.ltb a b then a
  else if PrimFloat.ltb b a then b
  else if PrimFloat.get_sign a then a else b.

End Float64.

#[export] Instance float_number : JsNumber float := {|
  num_lit := Float64.lit;
  num_add := PrimFloat.add;
  num_sub := PrimFloat.sub;
  num_mul := PrimFloat.mul;
  num_div := PrimFloat.div;
  num_eqb := PrimFloat.eqb;
  num_ltb := PrimFloat.ltb;
  num_leb := PrimFloat.leb;
  num_truthy := Float64.truthy;
  num_min := Float64.min
|}.

(** *** Exact rationals *)

#[export] Instance Q_number : JsNumber Q := {|
  num_lit := fun q => q;
  num_add := Qplus;
  num_sub := Qminus;
  num_mul := Qmult;
  num_div := Qdiv;
  num_eqb := Qeq_bool;
  num_ltb := fun a b => negb (Qle_bool b a);
  num_leb := Qle_bool;
  num_truthy := fun a => negb (Qeq_bool a 0);
  num_min := fun a b => if Qle_bool a b then a else b
|}.

(** ** Strings *)

Module JsString.

Definition code (c : ascii) : N := N_of_ascii c.

(** [\s] of a regular expression, on U+0000..U+00FF. *)
Definition is_space (c : ascii) : bool :=
  let n := code c in
  ((9 <=? n) && (n <=? 13) || (n =? 32) || (n =? 160))%N.

(** [a-z]. *)
Definition is_lower (c : ascii) : bool :=
  let n := code c in ((97 <=? n) && (n <=? 122))%N.

Definition is_upper (c : ascii) : bool :=
  let n := code c in ((65 <=? n) && (n <=? 90))%N.

(** Upper-case letters of the Latin-1 supplement, U+00C0..U+00DE but for
    the multiplication sign. *)
Definition is_upper_latin1 (c : ascii) : bool :=
  let n := code c in ((192 <=? n) && (n <=? 222) && negb (n =? 215))%N.

Definition lower_char (c : ascii) : ascii :=
  if is_upper c || is_upper_latin1 c then ascii_of_N (code c + 32) else c.

(** Applied in the program to words of [a-z] and spaces only. *)
Definition upper_char (c : ascii) : ascii :=
  if is_lower c then ascii_of_N (code c - 32) else c.

Fixpoint map (f : ascii -> ascii) (s : string) : string :=
  match s with
  | EmptyString => EmptyString
  | String c s' => String (f c) (map f s')
  end.

Fixpoint filter (p : ascii -> bool) (s : string) : string :=
  match s with
  | EmptyString => EmptyString
  | String c s' => if p c then String c (filter p s') else filter p s'
  end.

Definition toLowerCase : string -> string := map lower_char.
Definition toUpperCase : string -> string := map upper_char.

(** [s.split('')]. *)
Definition chars : string -> list ascii := list_ascii_of_string.

(** [s.split(/\s+/)]: the pieces between maximal runs of white space, the
    empty pieces at both ends included. *)
Fixpoint split_ws (s cur : string) (in_run : bool) : list string :=
  match s with
  | EmptyString => [cur]
  | String c s' =>
      if is_space c then
        if in_run then split_ws s' cur true
        else cur :: split_ws s' EmptyString true
      else split_ws s' (cur ++ String c EmptyString) false
  end.

Definition split_spaces (s : string) : list string :=
  split_ws s EmptyString false.

(** [Boolean(s)] for a string. *)
Definition truthy (s : string) : bool :=
  negb (String.eqb s EmptyString).

(** [(s.match(/c/g) || []).length]. *)
Definition count (c : ascii) (s : string) : nat :=
  List.length (List.filter (Ascii.eqb c) (chars s)).

End JsString.

(** ** Objects used as tables *)

Module JsObject.

Definition t (V : Type) : Type := list (string * V).

Section Ops.
Context {V : Type}.

Fixpoint own (o : t V) (k : string) : option V :=
  match o with
  | [] => None
  | (k', v) :: o' => if String.eqb k k' then Some v else own o' k
  end.

(** [o[k] = v]: an existing key keeps its place. *)
Fixpoint assign (o : t V) (k : string) (v : V) : t V :=
  match o with
  | [] => [(k, v)]
  | (k', v') :: o' =>
      if String.eqb k k' then (k', v) :: o' else (k', v') :: assign o' k v
  end.

(** [{ ...base, k1: v1, ..., kn: vn }]. *)
Definition spread (base entries : t V) : t V :=
  fold_left (fun o kv => assign o (fst kv) (snd kv)) entries base.

Definition keys (o : t V) : list string := List.map fst o.

(** The members every object literal inherits from [Object.prototype]. *)
Definition prototype_members : list string :=
  [ "constructor"; "hasOwnProperty"; "isPrototypeOf";
    "propertyIsEnumerable"; "toLocaleString"; "toString"; "valueOf";
    "__proto__"; "__defineGetter__"; "__defineSetter__";
    "__lookupGetter__"; "__lookupSetter__" ].

(** The value of a bracket read [o[k]]. *)
Inductive value : Type :=
| Own (v : V)
| Inherited (member : string)
| Undefined.

Definition get (o : t V) (k : string) : value :=
  match own o k with
  | Some v => Own v
  | None =>
      if existsb (String.eqb k) prototype_members then Inherited k
      else Undefined
  end.

(** Table entries are objects and the inherited members are functions
    or objects: all truthy. *)
Definition truthy (x : value) : bool :=
  match x with Undefined => false | _ => true end.

End Ops.

Arguments value : clear implicits.

End JsObject.

(** A [while] loop run for at most [fuel] tests of its condition; [None]
    when the budget does not see it finish. *)
Fixpoint while {S : Type} (fuel : nat) (cond : S -> bool) (body : S -> S)
    (s : S) : option S :=
  match fuel with
  | O => None
  | Datatypes.S fuel' =>
      if cond s then while fuel' cond body (body s) else Some s
  end.

(** ** sign-poses.ts *)

Module SignPoses.

Inductive SignLanguageMode := asl | isl.
Inductive AnimationType := Static | Motion.
Inductive GlossType := word | fingerspell.

Section WithNumbers.
Context {num : Type} `{JsNumber num}.
Local Open Scope js_scope.

(** [mcp: {curl, spread}], [pip: {curl}], [dip: {curl}]. *)
Record FingerPose : Type := mkFinger {
  mcp_curl : num;
  mcp_spread : num;
  pip_curl : num;
  dip_curl : num
}.

Record Wrist : Type := mkWrist { pitch : num; yaw : num; roll : num }.

Record HandPose : Type := mkPose {
  thumb : FingerPose;
  index : FingerPose;
  middle : FingerPose;
  ring : FingerPose;
  pinky : FingerPose;
  wrist : option Wrist
}.

Record SignAnimation : Type := {
  name : string;
  type : AnimationType;
  category : string;
  description : string;
  poses : list HandPose;
  durations : option (list num);
  loop : option bool
}.

(** *** Shorthand helpers.  The default [spread = 0] is written out at
    the calls that omit it. *)
Definition curled (spread : num) := mkFinger #1.5 spread #1.5 #1.2.
Definition extended (spread : num) := mkFinger #0 spread #0 #0.
Definition bent (spread : num) := mkFinger #1.2 spread #0.6 #0.4.
Definition hooked (spread : num) := mkFinger #0.3 spread #1.4 #1.2.
Definition halfCurl (spread : num) := mkFinger #0.8 spread #0.8 #0.6.
Definition slightBend (spread : num) := mkFinger #0.4 spread #0.3 #0.2.
Definition flatBent (spread : num) := mkFinger #1.2 spread #0 #0.

Definition thumbSide := mkFinger #0.2 #0.5 #0.1 #0.1.
Definition thumbAcross := mkFinger #0.8 #(-0.3) #0.5 #0.3.
Definition thumbTucked := mkFinger #1.0 #(-0.2) #0.8 #0.6.
Definition thumbOut := mkFinger #0 #0.8 #0 #0.
Definition thumbBetween := mkFinger #0.6 #0.1 #0.3 #0.2.
Definition thumbUp := mkFinger #0 #0.9 #0 #0.
Definition thumbDown := mkFinger #0 #0.9 #0 #0.
Definition thumbTip := mkFinger #0.5 #0.3 #0.4 #0.3.

(** *** ASL and ISL fingerspelling alphabets, ASL word signs *)

Definition ASL_LETTER_POSES : JsObject.t HandPose :=
  [
  ("a", mkPose thumbSide (curled #0) (curled #0) (curled #0) (curled #0) None);
  ("b", mkPose thumbTucked (extended #0) (extended #0) (extended #0) (extended #0) None);
  ("c", mkPose (mkFinger #0.4 #0.6 #0.3 #0.2) (halfCurl #0.1) (halfCurl #0.05) (halfCurl #(-0.05)) (halfCurl #(-0.1)) None);
  ("d", mkPose (mkFinger #0.8 #(-0.2) #0.6 #0.4) (extended #0) (curled #0) (curled #0) (curled #0) None);
  ("e", mkPose thumbTucked (bent #0) (bent #0) (bent #0) (bent #0) None);
  ("f", mkPose (mkFinger #0.6 #0 #0.5 #0.4) (hooked #0) (extended #0.05) (extended #0) (extended #(-0.05)) None);
  ("g", mkPose thumbOut (extended #0) (curled #0) (curled #0) (curled #0) (Some (mkWrist #0 #(-1.2) #0)));
  ("h", mkPose thumbOut (extended #0) (extended #0) (curled #0) (curled #0) (Some (mkWrist #0 #(-1.2) #0)));
  ("i", mkPose thumbAcross (curled #0) (curled #0) (curled #0) (extended #0) None);
  ("j", mkPose thumbAcross (curled #0) (curled #0) (curled #0) (extended #0) None);
  ("k", mkPose (mkFinger #0.4 #0.2 #0.3 #0.1) (extended #0.1) (extended #(-0.1)) (curled #0) (curled #0) None);
  ("l", mkPose thumbOut (extended #0) (curled #0) (curled #0) (curled #0) None);
  ("m", mkPose thumbTucked (bent #(-0.1)) (bent #0) (bent #0.1) (curled #0) None);
  ("n", mkPose thumbTucked (bent #(-0.05)) (bent #0.05) (curled #0) (curled #0) None);
  ("o", mkPose (mkFinger #0.5 #0.3 #0.4 #0.3) (halfCurl #0.05) (halfCurl #0) (halfCurl #(-0.05)) (halfCurl #(-0.1)) None);
  ("p", mkPose (mkFinger #0.4 #0.2 #0.3 #0.1) (extended #0.1) (extended #(-0.1)) (curled #0) (curled #0) (Some (mkWrist #1.2 #0 #0)));
  ("q", mkPose thumbOut (extended #0) (curled #0) (curled #0) (curled #0) (Some (mkWrist #1.2 #(-0.8) #0)));
  ("r", mkPose thumbAcross (extended #0.05) (extended #(-0.05)) (curled #0) (curled #0) None);
  ("s", mkPose thumbAcross (curled #0) (curled #0) (curled #0) (curled #0) None);
  ("t", mkPose thumbBetween (curled #0) (curled #0) (curled #0) (curled #0) None);
  ("u", mkPose thumbTucked (extended #0) (extended #0) (curled #0) (curled #0) None);
  ("v", mkPose thumbAcross (extended #0.15) (extended #(-0.15)) (curled #0) (curled #0) None);
  ("w", mkPose thumbTucked (extended #0.1) (extended #0) (extended #(-0.1)) (curled #0) None);
  ("x", mkPose thumbAcross (hooked #0) (curled #0) (curled #0) (curled #0) None);
  ("y", mkPose thumbOut (curled #0) (curled #0) (curled #0) (extended #0) None);
  ("z", mkPose thumbAcross (extended #0) (curled #0) (curled #0) (curled #0) None)
  ].

Definition ISL_LETTER_POSES : JsObject.t HandPose :=
  [
  ("a", mkPose thumbOut (extended #0) (curled #0) (curled #0) (curled #0) (Some (mkWrist #0 #0 #0)));
  ("b", mkPose thumbTucked (extended #0) (extended #0) (extended #0) (extended #0) (Some (mkWrist #0 #0 #0)));
  ("c", mkPose (mkFinger #0.4 #0.6 #0.3 #0.2) (halfCurl #0.1) (halfCurl #0.05) (halfCurl #(-0.05)) (halfCurl #(-0.1)) (Some (mkWrist #0 #(-0.3) #0)));
  ("d", mkPose thumbTip (extended #0) (curled #0) (curled #0) (curled #0) (Some (mkWrist #0 #0 #0)));
  ("e", mkPose thumbTucked (slightBend #0) (slightBend #0) (slightBend #0) (slightBend #0) None);
  ("f", mkPose thumbTip (hooked #0) (extended #0.05) (extended #0) (extended #(-0.05)) None);
  ("g", mkPose thumbAcross (extended #0) (curled #0) (curled #0) (curled #0) (Some (mkWrist #0 #(-0.8) #0)));
  ("h", mkPose thumbTucked (extended #0) (extended #0) (curled #0) (curled #0) (Some (mkWrist #0 #0 #(-0.3))));
  ("i", mkPose thumbAcross (curled #0) (curled #0) (curled #0) (extended #0) (Some (mkWrist #0 #0 #0)));
  ("j", mkPose thumbAcross (curled #0) (curled #0) (curled #0) (extended #0) (Some (mkWrist #0 #0 #0.3)));
  ("k", mkPose (mkFinger #0.3 #0.4 #0.2 #0.1) (extended #0.15) (extended #(-0.1)) (curled #0) (curled #0) None);
  ("l", mkPose thumbOut (extended #0) (curled #0) (curled #0) (curled #0) (Some (mkWrist #0 #0 #0)));
  ("m", mkPose thumbTucked (flatBent #(-0.1)) (flatBent #0) (flatBent #0.1) (curled #0) None);
  ("n", mkPose thumbTucked (flatBent #(-0.05)) (flatBent #0.05) (curled #0) (curled #0) None);
  ("o", mkPose thumbTip (halfCurl #0.05) (halfCurl #0) (halfCurl #(-0.05)) (halfCurl #(-0.1)) None);
  ("p", mkPose thumbOut (extended #0.1) (extended #(-0.1)) (curled #0) (curled #0) (Some (mkWrist #0.8 #0 #0)));
  ("q", mkPose thumbOut (extended #0) (curled #0) (curled #0) (curled #0) (Some (mkWrist #1.0 #(-0.5) #0)));
  ("r", mkPose thumbAcross (extended #0.05) (extended #(-0.05)) (curled #0) (curled #0) (Some (mkWrist #0 #0 #0.2)));
  ("s", mkPose thumbAcross (curled #0) (curled #0) (curled #0) (curled #0) (Some (mkWrist #0 #0 #0)));
  ("t", mkPose thumbBetween (curled #0) (curled #0) (curled #0) (curled #0) None);
  ("u", mkPose thumbTucked (extended #0) (extended #0) (curled #0) (curled #0) (Some (mkWrist #0 #0 #0)));
  ("v", mkPose thumbAcross (extended #0.15) (extended #(-0.15)) (curled #0) (curled #0) None);
  ("w", mkPose thumbTucked (extended #0.1) (extended #0) (extended #(-0.1)) (curled #0) None);
  ("x", mkPose thumbAcross (hooked #0) (curled #0) (curled #0) (curled #0) None);
  ("y", mkPose thumbOut (curled #0) (curled #0) (curled #0) (extended #0) None);
  ("z", mkPose thumbAcross (extended #0) (curled #0) (curled #0) (curled #0) (Some (mkWrist #0 #0 #0.3)))
  ].

Definition ASL_WORD_ANIMATIONS : JsObject.t SignAnimation :=
  [
  ("hello",
   {| name := "HELLO"; type := Motion; category := "Greeting";
      description := "Wave hand outward from forehead";
      poses := [
        mkPose thumbSide (extended #0.05) (extended #0) (extended #(-0.05)) (extended #(-0.1)) (Some (mkWrist #(-0.3) #0 #0));
        mkPose thumbSide (extended #0.1) (extended #0.05) (extended #0) (extended #(-0.05)) (Some (mkWrist #(-0.1) #0.3 #0.15));
        mkPose thumbSide (extended #0.05) (extended #0) (extended #(-0.05)) (extended #(-0.1)) (Some (mkWrist #0.1 #0.5 #(-0.1))) ];
      durations := Some [#400; #350; #300]; loop := None |});
  ("thank you",
   {| name := "THANK YOU"; type := Motion; category := "Politeness";
      description := "Flat hand from chin outward";
      poses := [
        mkPose thumbSide (extended #0) (extended #0) (extended #0) (extended #0) (Some (mkWrist #(-0.5) #0 #0));
        mkPose thumbSide (extended #0) (extended #0) (extended #0) (extended #0) (Some (mkWrist #0.3 #0 #0)) ];
      durations := Some [#500; #400]; loop := None |});
  ("thanks",
   {| name := "THANKS"; type := Motion; category := "Politeness";
      description := "Same as THANK YOU — flat hand from chin";
      poses := [
        mkPose thumbSide (extended #0) (extended #0) (extended #0) (extended #0) (Some (mkWrist #(-0.5) #0 #0));
        mkPose thumbSide (extended #0) (extended #0) (extended #0) (extended #0) (Some (mkWrist #0.3 #0 #0)) ];
      durations := Some [#500; #400]; loop := None |});
  ("please",
   {| name := "PLEASE"; type := Motion; category := "Politeness";
      description := "Flat hand circles on chest";
      poses := [
        mkPose thumbSide (extended #0) (extended #0) (extended #0) (extended #0) (Some (mkWrist #0 #0 #0));
        mkPose thumbSide (extended #0) (extended #0) (extended #0) (extended #0) (Some (mkWrist #0.2 #0.2 #0.1));
        mkPose thumbSide (extended #0) (extended #0) (extended #0) (extended #0) (Some (mkWrist #0 #0 #(-0.1))) ];
      durations := Some [#400; #400; #400]; loop := Some true |});
  ("yes",
   {| name := "YES"; type := Motion; category := "Response";
      description := "Fist nods up and down";
      poses := [
        mkPose thumbAcross (curled #0) (curled #0) (curled #0) (curled #0) (Some (mkWrist #(-0.4) #0 #0));
        mkPose thumbAcross (curled #0) (curled #0) (curled #0) (curled #0) (Some (mkWrist #0.4 #0 #0));
        mkPose thumbAcross (curled #0) (curled #0) (curled #0) (curled #0) (Some (mkWrist #(-0.4) #0 #0)) ];
      durations := Some [#300; #300; #300]; loop := None |});
  ("no",
   {| name := "NO"; type := Motion; category := "Response";
      description := "Fingers snap against thumb";
      poses := [
        mkPose thumbOut (extended #0.1) (extended #(-0.1)) (curled #0) (curled #0) (Some (mkWrist #0 #0 #0));
        mkPose (mkFinger #0.6 #0 #0.4 #0.3) (halfCurl #0.1) (halfCurl #(-0.1)) (curled #0) (curled #0) (Some (mkWrist #0 #0 #0)) ];
      durations := Some [#250; #250]; loop := None |});
  ("sorry",
   {| name := "SORRY"; type := Motion; category := "Emotion";
      description := "Fist circles on chest";
      poses := [
        mkPose thumbAcross (curled #0) (curled #0) (curled #0) (curled #0) (Some (mkWrist #0 #0 #0));
        mkPose thumbAcross (curled #0) (curled #0) (curled #0) (curled #0) (Some (mkWrist #0.2 #0.2 #0));
        mkPose thumbAcross (curled #0) (curled #0) (curled #0) (curled #0) (Some (mkWrist #0 #(-0.2) #0)) ];
      durations := Some [#400; #400; #400]; loop := Some true |});
  ("help",
   {| name := "HELP"; type := Motion; category := "Action";
      description := "Fist on flat palm, both rise up";
      poses := [
        mkPose thumbSide (curled #0) (curled #0) (curled #0) (curled #0) (Some (mkWrist #0 #0 #0));
        mkPose thumbSide (curled #0) (curled #0) (curled #0) (curled #0) (Some (mkWrist #(-0.5) #0 #0)) ];
      durations := Some [#500; #400]; loop := None |});
  ("love",
   {| name := "LOVE / I LOVE YOU"; type := Static; category := "Emotion";
      description := "ILY sign — thumb, index, pinky extended";
      poses := [
        mkPose thumbOut (extended #0) (curled #0) (curled #0) (extended #0) None ];
      durations := None; loop := None |});
  ("friend",
   {| name := "FRIEND"; type := Motion; category := "People";
      description := "Hooked index fingers link together";
      poses := [
        mkPose thumbAcross (hooked #0) (curled #0) (curled #0) (curled #0) (Some (mkWrist #0 #0 #0));
        mkPose thumbAcross (hooked #0) (curled #0) (curled #0) (curled #0) (Some (mkWrist #0 #0 #0.5)) ];
      durations := Some [#400; #400]; loop := None |});
  ("learn",
   {| name := "LEARN"; type := Motion; category := "Education";
      description := "Pick up knowledge from palm to forehead";
      poses := [
        mkPose thumbSide (extended #0) (extended #0) (extended #0) (extended #0) (Some (mkWrist #0.3 #0 #0));
        mkPose thumbTip (halfCurl #0) (halfCurl #0) (halfCurl #0) (halfCurl #0) (Some (mkWrist #(-0.5) #0 #0)) ];
      durations := Some [#500; #500]; loop := None |});
  ("good",
   {| name := "GOOD"; type := Motion; category := "Description";
      description := "Flat hand from chin downward to open palm";
      poses := [
        mkPose thumbSide (extended #0) (extended #0) (extended #0) (extended #0) (Some (mkWrist #(-0.4) #0 #0));
        mkPose thumbSide (extended #0) (extended #0) (extended #0) (extended #0) (Some (mkWrist #0.4 #0 #0)) ];
      durations := Some [#400; #400]; loop := None |});
  ("bad",
   {| name := "BAD"; type := Motion; category := "Description";
      description := "Flat hand from chin, turns downward";
      poses := [
        mkPose thumbSide (extended #0) (extended #0) (extended #0) (extended #0) (Some (mkWrist #(-0.3) #0 #0));
        mkPose thumbSide (extended #0) (extended #0) (extended #0) (extended #0) (Some (mkWrist #0.5 #0 #0.5)) ];
      durations := Some [#400; #350]; loop := None |});
  ("want",
   {| name := "WANT"; type := Motion; category := "Action";
      description := "Clawed hands pull toward body";
      poses := [
        mkPose thumbOut (hooked #0.1) (hooked #0) (hooked #(-0.05)) (hooked #(-0.1)) (Some (mkWrist #0 #0 #0));
        mkPose thumbOut (hooked #0.1) (hooked #0) (hooked #(-0.05)) (hooked #(-0.1)) (Some (mkWrist #(-0.4) #0 #0)) ];
      durations := Some [#400; #400]; loop := None |});
  ("need",
   {| name := "NEED"; type := Motion; category := "Action";
      description := "Bent index finger nods downward";
      poses := [
        mkPose thumbAcross (hooked #0) (curled #0) (curled #0) (curled #0) (Some (mkWrist #(-0.3) #0 #0));
        mkPose thumbAcross (hooked #0) (curled #0) (curled #0) (curled #0) (Some (mkWrist #0.4 #0 #0)) ];
      durations := Some [#350; #350]; loop := None |});
  ("eat",
   {| name := "EAT"; type := Motion; category := "Action";
      description := "Bunched fingers tap to mouth repeatedly";
      poses := [
        mkPose thumbTip (halfCurl #0) (halfCurl #0) (halfCurl #0) (halfCurl #0) (Some (mkWrist #(-0.5) #0 #0));
        mkPose thumbTip (halfCurl #0) (halfCurl #0) (halfCurl #0) (halfCurl #0) (Some (mkWrist #(-0.2) #0 #0));
        mkPose thumbTip (halfCurl #0) (halfCurl #0) (halfCurl #0) (halfCurl #0) (Some (mkWrist #(-0.5) #0 #0)) ];
      durations := Some [#300; #250; #300]; loop := Some true |});
  ("drink",
   {| name := "DRINK"; type := Motion; category := "Action";
      description := "C-hand tilts toward mouth like drinking";
      poses := [
        mkPose (mkFinger #0.4 #0.5 #0.3 #0.2) (halfCurl #0.1) (halfCurl #0) (halfCurl #(-0.05)) (halfCurl #(-0.1)) (Some (mkWrist #(-0.2) #0 #0));
        mkPose (mkFinger #0.4 #0.5 #0.3 #0.2) (halfCurl #0.1) (halfCurl #0) (halfCurl #(-0.05)) (halfCurl #(-0.1)) (Some (mkWrist #(-0.7) #0 #0.3)) ];
      durations := Some [#500; #500]; loop := None |});
  ("water",
   {| name := "WATER"; type := Motion; category := "Object";
      description := "W-hand taps chin — index, middle, ring extended";
      poses := [
        mkPose thumbTucked (extended #0.1) (extended #0) (extended #(-0.1)) (curled #0) (Some (mkWrist #(-0.3) #0 #0));
        mkPose thumbTucked (extended #0.1) (extended #0) (extended #(-0.1)) (curled #0) (Some (mkWrist #(-0.5) #0 #0));
        mkPose thumbTucked (extended #0.1) (extended #0) (extended #(-0.1)) (curled #0) (Some (mkWrist #(-0.3) #0 #0)) ];
      durations := Some [#300; #250; #300]; loop := None |});
  ("home",
   {| name := "HOME"; type := Motion; category := "Place";
      description := "Bunched fingertips touch cheek then jaw";
      poses := [
        mkPose thumbTip (halfCurl #0) (halfCurl #0) (halfCurl #0) (halfCurl #0) (Some (mkWrist #(-0.3) #0.2 #0));
        mkPose thumbTip (halfCurl #0) (halfCurl #0) (halfCurl #0) (halfCurl #0) (Some (mkWrist #(-0.1) #0.4 #0)) ];
      durations := Some [#400; #400]; loop := None |});
  ("school",
   {| name := "SCHOOL"; type := Motion; category := "Place";
      description := "Clap flat hands together twice";
      poses := [
        mkPose thumbSide (extended #0) (extended #0) (extended #0) (extended #0) (Some (mkWrist #0.2 #0 #0));
        mkPose thumbSide (extended #0) (extended #0) (extended #0) (extended #0) (Some (mkWrist #(-0.2) #0 #0));
        mkPose thumbSide (extended #0) (extended #0) (extended #0) (extended #0) (Some (mkWrist #0.2 #0 #0)) ];
      durations := Some [#300; #250; #300]; loop := None |});
  ("work",
   {| name := "WORK"; type := Motion; category := "Action";
      description := "Fist taps on other fist twice";
      poses := [
        mkPose thumbAcross (curled #0) (curled #0) (curled #0) (curled #0) (Some (mkWrist #(-0.3) #0 #0));
        mkPose thumbAcross (curled #0) (curled #0) (curled #0) (curled #0) (Some (mkWrist #0.2 #0 #0));
        mkPose thumbAcross (curled #0) (curled #0) (curled #0) (curled #0) (Some (mkWrist #(-0.3) #0 #0)) ];
      durations := Some [#300; #250; #300]; loop := None |});
  ("name",
   {| name := "NAME"; type := Motion; category := "Communication";
      description := "H-hand taps on H-hand";
      poses := [
        mkPose thumbOut (extended #0) (extended #0) (curled #0) (curled #0) (Some (mkWrist #0 #(-0.5) #0));
        mkPose thumbOut (extended #0) (extended #0) (curled #0) (curled #0) (Some (mkWrist #0.3 #(-0.5) #0)) ];
      durations := Some [#350; #350]; loop := None |});
  ("what",
   {| name := "WHAT"; type := Motion; category := "Question";
      description := "Open hands shake side to side";
      poses := [
        mkPose thumbSide (extended #0.1) (extended #0) (extended #(-0.05)) (extended #(-0.1)) (Some (mkWrist #0 #(-0.3) #0));
        mkPose thumbSide (extended #0.1) (extended #0) (extended #(-0.05)) (extended #(-0.1)) (Some (mkWrist #0 #0.3 #0)) ];
      durations := Some [#350; #350]; loop := None |});
  ("where",
   {| name := "WHERE"; type := Motion; category := "Question";
      description := "Index finger wags side to side";
      poses := [
        mkPose thumbAcross (extended #0) (curled #0) (curled #0) (curled #0) (Some (mkWrist #0 #(-0.3) #0));
        mkPose thumbAcross (extended #0) (curled #0) (curled #0) (curled #0) (Some (mkWrist #0 #0.3 #0));
        mkPose thumbAcross (extended #0) (curled #0) (curled #0) (curled #0) (Some (mkWrist #0 #(-0.3) #0)) ];
      durations := Some [#300; #300; #300]; loop := None |});
  ("how",
   {| name := "HOW"; type := Motion; category := "Question";
      description := "Fists together, palms in, roll forward to open";
      poses := [
        mkPose thumbAcross (curled #0) (curled #0) (curled #0) (curled #0) (Some (mkWrist #0.3 #0 #0));
        mkPose thumbSide (extended #0) (extended #0) (extended #0) (extended #0) (Some (mkWrist #(-0.3) #0 #0)) ];
      durations := Some [#500; #500]; loop := None |});
  ("why",
   {| name := "WHY"; type := Motion; category := "Question";
      description := "Fingers touch forehead, pull down to Y-hand";
      poses := [
        mkPose thumbSide (extended #0) (extended #0) (extended #0) (extended #0) (Some (mkWrist #(-0.5) #0 #0));
        mkPose thumbOut (curled #0) (curled #0) (curled #0) (extended #0) (Some (mkWrist #0.2 #0 #0)) ];
      durations := Some [#500; #500]; loop := None |});
  ("stop",
   {| name := "STOP"; type := Motion; category := "Action";
      description := "Flat hand chops down on flat palm";
      poses := [
        mkPose thumbSide (extended #0) (extended #0) (extended #0) (extended #0) (Some (mkWrist #(-0.5) #(-0.3) #0));
        mkPose thumbSide (extended #0) (extended #0) (extended #0) (extended #0) (Some (mkWrist #0.3 #(-0.3) #0)) ];
      durations := Some [#300; #300]; loop := None |});
  ("go",
   {| name := "GO"; type := Motion; category := "Action";
      description := "Index fingers point and arc forward";
      poses := [
        mkPose thumbAcross (extended #0) (curled #0) (curled #0) (curled #0) (Some (mkWrist #(-0.2) #0 #0));
        mkPose thumbAcross (extended #0) (curled #0) (curled #0) (curled #0) (Some (mkWrist #0.4 #0 #0.2)) ];
      durations := Some [#400; #400]; loop := None |});
  ("come",
   {| name := "COME"; type := Motion; category := "Action";
      description := "Index finger beckons toward body";
      poses := [
        mkPose thumbAcross (extended #0) (curled #0) (curled #0) (curled #0) (Some (mkWrist #0.3 #0 #0));
        mkPose thumbAcross (hooked #0) (curled #0) (curled #0) (curled #0) (Some (mkWrist #(-0.2) #0 #0)) ];
      durations := Some [#400; #400]; loop := None |});
  ("happy",
   {| name := "HAPPY"; type := Motion; category := "Emotion";
      description := "Flat hand brushes up chest repeatedly";
      poses := [
        mkPose thumbSide (extended #0) (extended #0) (extended #0) (extended #0) (Some (mkWrist #0.2 #0 #0));
        mkPose thumbSide (extended #0) (extended #0) (extended #0) (extended #0) (Some (mkWrist #(-0.3) #0 #0));
        mkPose thumbSide (extended #0) (extended #0) (extended #0) (extended #0) (Some (mkWrist #0.2 #0 #0)) ];
      durations := Some [#350; #300; #350]; loop := None |});
  ("sad",
   {| name := "SAD"; type := Motion; category := "Emotion";
      description := "Open hands move down in front of face";
      poses := [
        mkPose thumbSide (extended #0.05) (extended #0) (extended #(-0.05)) (extended #(-0.1)) (Some (mkWrist #(-0.3) #0 #0));
        mkPose thumbSide (extended #0.05) (extended #0) (extended #(-0.05)) (extended #(-0.1)) (Some (mkWrist #0.4 #0 #0)) ];
      durations := Some [#600; #600]; loop := None |});
  ("understand",
   {| name := "UNDERSTAND"; type := Motion; category := "Communication";
      description := "Index finger flicks up near temple";
      poses := [
        mkPose thumbAcross (curled #0) (curled #0) (curled #0) (curled #0) (Some (mkWrist #(-0.3) #0.3 #0));
        mkPose thumbAcross (extended #0) (curled #0) (curled #0) (curled #0) (Some (mkWrist #(-0.5) #0.3 #0)) ];
      durations := Some [#400; #350]; loop := None |});
  ("think",
   {| name := "THINK"; type := Static; category := "Communication";
      description := "Index finger touches forehead";
      poses := [
        mkPose thumbAcross (extended #0) (curled #0) (curled #0) (curled #0) (Some (mkWrist #(-0.5) #0.2 #0)) ];
      durations := None; loop := None |});
  ("know",
   {| name := "KNOW"; type := Motion; category := "Communication";
      description := "Flat fingers tap forehead";
      poses := [
        mkPose thumbSide (extended #0) (extended #0) (extended #0) (extended #0) (Some (mkWrist #(-0.5) #0.2 #0));
        mkPose thumbSide (extended #0) (extended #0) (extended #0) (extended #0) (Some (mkWrist #(-0.3) #0.2 #0)) ];
      durations := Some [#350; #350]; loop := None |});
  ("like",
   {| name := "LIKE"; type := Motion; category := "Emotion";
      description := "Open hand pulls away from chest, closes";
      poses := [
        mkPose thumbOut (extended #0) (extended #0) (extended #0) (extended #0) (Some (mkWrist #0 #0 #0));
        mkPose thumbTip (halfCurl #0) (halfCurl #0) (halfCurl #0) (halfCurl #0) (Some (mkWrist #0.2 #0 #0)) ];
      durations := Some [#500; #400]; loop := None |});
  ("don",
   {| name := "DON'T"; type := Motion; category := "Response";
      description := "Arms cross outward from center";
      poses := [
        mkPose thumbSide (extended #0) (extended #0) (extended #0) (extended #0) (Some (mkWrist #0 #0.3 #0));
        mkPose thumbSide (extended #0) (extended #0) (extended #0) (extended #0) (Some (mkWrist #0 #(-0.5) (#0 - #2))) ];
      durations := Some [#350; #350]; loop := None |});
  ("can",
   {| name := "CAN"; type := Motion; category := "Action";
      description := "Both fists move down together";
      poses := [
        mkPose thumbAcross (curled #0) (curled #0) (curled #0) (curled #0) (Some (mkWrist #(-0.3) #0 #0));
        mkPose thumbAcross (curled #0) (curled #0) (curled #0) (curled #0) (Some (mkWrist #0.3 #0 #0)) ];
      durations := Some [#400; #400]; loop := None |});
  ("more",
   {| name := "MORE"; type := Motion; category := "Quantity";
      description := "Bunched fingertips tap together";
      poses := [
        mkPose thumbTip (halfCurl #0.05) (halfCurl #0) (halfCurl #(-0.05)) (halfCurl #(-0.1)) (Some (mkWrist #0 #(-0.2) #0));
        mkPose thumbTip (halfCurl #0.05) (halfCurl #0) (halfCurl #(-0.05)) (halfCurl #(-0.1)) (Some (mkWrist #0 #0.2 #0));
        mkPose thumbTip (halfCurl #0.05) (halfCurl #0) (halfCurl #(-0.05)) (halfCurl #(-0.1)) (Some (mkWrist #0 #(-0.2) #0)) ];
      durations := Some [#300; #250; #300]; loop := None |});
  ("teacher",
   {| name := "TEACHER"; type := Motion; category := "People";
      description := "Bunched fingers from temples outward + person marker";
      poses := [
        mkPose thumbTip (halfCurl #0) (halfCurl #0) (halfCurl #0) (halfCurl #0) (Some (mkWrist #(-0.4) #0.3 #0));
        mkPose thumbTip (halfCurl #0) (halfCurl #0) (halfCurl #0) (halfCurl #0) (Some (mkWrist #(-0.2) #0.5 #0));
        mkPose thumbSide (extended #0) (extended #0) (extended #0) (extended #0) (Some (mkWrist #0.3 #0 #0)) ];
      durations := Some [#400; #350; #400]; loop := None |});
  ("student",
   {| name := "STUDENT"; type := Motion; category := "People";
      description := "Pick up from palm to forehead + person marker";
      poses := [
        mkPose thumbSide (extended #0) (extended #0) (extended #0) (extended #0) (Some (mkWrist #0.3 #0 #0));
        mkPose thumbTip (halfCurl #0) (halfCurl #0) (halfCurl #0) (halfCurl #0) (Some (mkWrist #(-0.5) #0 #0));
        mkPose thumbSide (extended #0) (extended #0) (extended #0) (extended #0) (Some (mkWrist #0.3 #0 #0)) ];
      durations := Some [#400; #400; #400]; loop := None |});
  ("family",
   {| name := "FAMILY"; type := Motion; category := "People";
      description := "F-hands circle outward to connect";
      poses := [
        mkPose thumbTip (hooked #0) (extended #0) (extended #0) (extended #0) (Some (mkWrist #0 #(-0.3) #0));
        mkPose thumbTip (hooked #0) (extended #0) (extended #0) (extended #0) (Some (mkWrist #0 #0.3 #0)) ];
      durations := Some [#500; #500]; loop := Some true |});
  ("play",
   {| name := "PLAY"; type := Motion; category := "Action";
      description := "Y-hands shake";
      poses := [
        mkPose thumbOut (curled #0) (curled #0) (curled #0) (extended #0) (Some (mkWrist #0 #0 #(-0.3)));
        mkPose thumbOut (curled #0) (curled #0) (curled #0) (extended #0) (Some (mkWrist #0 #0 #0.3));
        mkPose thumbOut (curled #0) (curled #0) (curled #0) (extended #0) (Some (mkWrist #0 #0 #(-0.3))) ];
      durations := Some [#300; #300; #300]; loop := None |});
  ("time",
   {| name := "TIME"; type := Motion; category := "Concept";
      description := "Index finger taps wrist (like pointing at watch)";
      poses := [
        mkPose thumbAcross (extended #0) (curled #0) (curled #0) (curled #0) (Some (mkWrist #0.3 #(-0.3) #0));
        mkPose thumbAcross (extended #0) (curled #0) (curled #0) (curled #0) (Some (mkWrist #0.5 #(-0.3) #0)) ];
      durations := Some [#350; #350]; loop := None |});
  ("today",
   {| name := "TODAY"; type := Motion; category := "Time";
      description := "Both hands drop down in front of body";
      poses := [
        mkPose thumbSide (extended #0) (extended #0) (extended #0) (extended #0) (Some (mkWrist #(-0.3) #0 #0));
        mkPose thumbSide (extended #0) (extended #0) (extended #0) (extended #0) (Some (mkWrist #0.3 #0 #0)) ];
      durations := Some [#400; #400]; loop := None |})
  ].

(** The entries the ISL literal writes after [...ASL_WORD_ANIMATIONS]. *)
Definition ISL_OVERRIDES : JsObject.t SignAnimation :=
  [
  ("hello",
   {| name := "NAMASTE / HELLO"; type := Motion; category := "Greeting";
      description := "Palms together, slight bow (Namaste gesture)";
      poses := [
        mkPose thumbSide (extended #0) (extended #0) (extended #0) (extended #0) (Some (mkWrist #(-0.2) #0 #0));
        mkPose thumbSide (extended #0) (extended #0) (extended #0) (extended #0) (Some (mkWrist #(-0.4) #0 #0));
        mkPose thumbSide (extended #0) (extended #0) (extended #0) (extended #0) (Some (mkWrist #(-0.2) #0 #0)) ];
      durations := Some [#500; #400; #500]; loop := None |});
  ("thank you",
   {| name := "DHANYAVAAD"; type := Motion; category := "Politeness";
      description := "Right hand touches forehead and moves forward (sign of respect)";
      poses := [
        mkPose thumbSide (extended #0) (extended #0) (extended #0) (extended #0) (Some (mkWrist #(-0.5) #0.2 #0));
        mkPose thumbSide (extended #0) (extended #0) (extended #0) (extended #0) (Some (mkWrist #0.2 #0.2 #0)) ];
      durations := Some [#500; #500]; loop := None |});
  ("water",
   {| name := "PAANI"; type := Motion; category := "Object";
      description := "C-hand gestures as if holding cup and drinking";
      poses := [
        mkPose (mkFinger #0.4 #0.5 #0.3 #0.2) (halfCurl #0.1) (halfCurl #0) (halfCurl #(-0.05)) (halfCurl #(-0.1)) (Some (mkWrist #(-0.2) #0 #0));
        mkPose (mkFinger #0.4 #0.5 #0.3 #0.2) (halfCurl #0.1) (halfCurl #0) (halfCurl #(-0.05)) (halfCurl #(-0.1)) (Some (mkWrist #(-0.8) #0 #0.4)) ];
      durations := Some [#500; #500]; loop := None |});
  ("school",
   {| name := "SCHOOL / VIDYALAYA"; type := Motion; category := "Place";
      description := "Writing motion on palm (study gesture)";
      poses := [
        mkPose thumbTip (extended #0) (curled #0) (curled #0) (curled #0) (Some (mkWrist #0 #(-0.3) #0));
        mkPose thumbTip (extended #0) (curled #0) (curled #0) (curled #0) (Some (mkWrist #0.3 #(-0.3) #0.2));
        mkPose thumbTip (extended #0) (curled #0) (curled #0) (curled #0) (Some (mkWrist #0 #(-0.3) #0)) ];
      durations := Some [#350; #300; #350]; loop := None |});
  ("good",
   {| name := "ACCHA / GOOD"; type := Motion; category := "Description";
      description := "Thumbs up with forward motion";
      poses := [
        mkPose thumbUp (curled #0) (curled #0) (curled #0) (curled #0) (Some (mkWrist #(-0.2) #0 #0));
        mkPose thumbUp (curled #0) (curled #0) (curled #0) (curled #0) (Some (mkWrist #0.2 #0 #0)) ];
      durations := Some [#400; #400]; loop := None |})
  ].


Definition ISL_WORD_ANIMATIONS : JsObject.t SignAnimation :=
  JsObject.spread ASL_WORD_ANIMATIONS ISL_OVERRIDES.

(** *** Text to sign gloss pipeline *)

(** What a gloss item holds in [animation]: the value of the bracket read
    on the word table, an entry of the table or a member inherited from
    [Object.prototype]. *)
Inductive AnimationValue : Type :=
| TableAnimation (a : SignAnimation)
| PrototypeMember (member : string).

Record SignGlossItem : Type := {
  gloss_type : GlossType;
  value : string;
  animation : option AnimationValue;
  letterPoses : option (list HandPose)
}.

Definition getLetterPoses (mode : SignLanguageMode) : JsObject.t HandPose :=
  match mode with isl => ISL_LETTER_POSES | asl => ASL_LETTER_POSES end.

Definition getWordAnimations (mode : SignLanguageMode)
  : JsObject.t SignAnimation :=
  match mode with isl => ISL_WORD_ANIMATIONS | asl => ASL_WORD_ANIMATIONS end.

(** [text.toLowerCase().replace(/[^a-z\s]/g, '').split(/\s+/).filter(Boolean)] *)
Definition normalize (text : string) : list string :=
  List.filter JsString.truthy
    (JsString.split_spaces
       (JsString.filter (fun c => JsString.is_lower c || JsString.is_space c)
          (JsString.toLowerCase text))).

(** [words[i]]; every read is guarded by a test against [words.length]. *)
Definition word_at (words : list string) (i : nat) : string :=
  nth i words "undefined".

Definition animation_of (x : JsObject.value SignAnimation)
  : option AnimationValue :=
  match x with
  | JsObject.Own a => Some (TableAnimation a)
  | JsObject.Inherited m => Some (PrototypeMember m)
  | JsObject.Undefined => None
  end.

Definition word_item (phrase : string) (x : JsObject.value SignAnimation)
  : SignGlossItem :=
  {| gloss_type := word;
     value := JsString.toUpperCase phrase;
     animation := animation_of x;
     letterPoses := None |}.

(** [w.split('').map(char => letterPoses[char]).filter(Boolean)]; a key of
    one character names no member of [Object.prototype]. *)
Definition spell (letters : JsObject.t HandPose) (w : string)
  : list HandPose :=
  flat_map
    (fun c =>
       match JsObject.get letters (String c EmptyString) with
       | JsObject.Own p => [p]
       | _ => []
       end)
    (JsString.chars w).

Definition fingerspell_item (letters : JsObject.t HandPose) (w : string)
  : SignGlossItem :=
  {| gloss_type := fingerspell;
     value := JsString.toUpperCase w;
     animation := None;
     letterPoses := Some (spell letters w) |}.

(** One turn of the [while] loop of [textToSignGloss] on the state
    [(i, glossItems)]. *)
Definition gloss_step (wordAnimations : JsObject.t SignAnimation)
    (letters : JsObject.t HandPose) (words : list string)
    (st : nat * list SignGlossItem) : nat * list SignGlossItem :=
  let '(i, glossItems) := st in
  let threeWord :=
    word_at words i ++ " " ++ word_at words (i + 1) ++ " "
      ++ word_at words (i + 2) in
  let twoWord := word_at words i ++ " " ++ word_at words (i + 1) in
  if (i + 2 <? List.length words)%nat
     && JsObject.truthy (JsObject.get wordAnimations threeWord)
  then ((i + 3)%nat,
        (glossItems ++ [word_item threeWord (JsObject.get wordAnimations threeWord)])%list)
  else if (i + 1 <? List.length words)%nat
     && JsObject.truthy (JsObject.get wordAnimations twoWord)
  then ((i + 2)%nat,
        (glossItems ++ [word_item twoWord (JsObject.get wordAnimations twoWord)])%list)
  else if JsObject.truthy (JsObject.get wordAnimations (word_at words i))
  then ((i + 1)%nat,
        (glossItems ++ [word_item (word_at words i)
                          (JsObject.get wordAnimations (word_at words i))])%list)
  else ((i + 1)%nat,
        (glossItems ++ [fingerspell_item letters (word_at words i)])%list).

(** The loop over an already normalised word list. *)
Definition gloss_words (wordAnimations : JsObject.t SignAnimation)
    (letters : JsObject.t HandPose) (words : list string)
  : option (list SignGlossItem) :=
  option_map snd
    (while (S (List.length words))
       (fun st => (fst st <? List.length words)%nat)
       (gloss_step wordAnimations letters words)
       (0%nat, [])).

Definition textToSignGloss (text : string) (mode : SignLanguageMode)
  : option (list SignGlossItem) :=
  gloss_words (getWordAnimations mode) (getLetterPoses mode) (normalize text).

(** *** Interpolation *)

Definition lerp (t a b : num) : num := a + (b - a) * t.

Definition interpolateFinger (t : num) (fA fB : FingerPose) : FingerPose :=
  {| mcp_curl := lerp t (mcp_curl fA) (mcp_curl fB);
     mcp_spread := lerp t (mcp_spread fA) (mcp_spread fB);
     pip_curl := lerp t (pip_curl fA) (pip_curl fB);
     dip_curl := lerp t (dip_curl fA) (dip_curl fB) |}.

(** [pose.wrist?.pitch ?? 0] and its two siblings. *)
Definition wrist_or_zero (f : Wrist -> num) (p : HandPose) : num :=
  match wrist p with Some w => f w | None => #0 end.

Definition interpolatePose (poseA poseB : HandPose) (t : num) : HandPose :=
  {| thumb := interpolateFinger t (thumb poseA) (thumb poseB);
     index := interpolateFinger t (index poseA) (index poseB);
     middle := interpolateFinger t (middle poseA) (middle poseB);
     ring := interpolateFinger t (ring poseA) (ring poseB);
     pinky := interpolateFinger t (pinky poseA) (pinky poseB);
     wrist :=
       Some {| pitch := lerp t (wrist_or_zero pitch poseA) (wrist_or_zero pitch poseB);
               yaw := lerp t (wrist_or_zero yaw poseA) (wrist_or_zero yaw poseB);
               roll := lerp t (wrist_or_zero roll poseA) (wrist_or_zero roll poseB) |} |}.

Definition REST_POSE : HandPose :=
  mkPose (mkFinger #0.3 #0.4 #0.2 #0.1)
         (mkFinger #0.2 #0.05 #0.15 #0.1)
         (mkFinger #0.2 #0 #0.15 #0.1)
         (mkFinger #0.25 #(-0.05) #0.2 #0.15)
         (mkFinger #0.3 #(-0.1) #0.25 #0.2)
         (Some (mkWrist #0 #0 #0)).

(** The numeric fields of a pose in a fixed order: four per finger, then the
    wrist with a missing one read as zero. *)
Definition finger_fields (f : FingerPose) : list num :=
  [mcp_curl f; mcp_spread f; pip_curl f; dip_curl f].

Definition pose_fields (p : HandPose) : list num :=
  finger_fields (thumb p) ++ finger_fields (index p)
    ++ finger_fields (middle p) ++ finger_fields (ring p)
    ++ finger_fields (pinky p)
    ++ [wrist_or_zero pitch p; wrist_or_zero yaw p; wrist_or_zero roll p].

End WithNumbers.

Arguments FingerPose : clear implicits.
Arguments Wrist : clear implicits.
Arguments HandPose : clear implicits.
Arguments SignAnimation : clear implicits.
Arguments AnimationValue : clear implicits.
Arguments SignGlossItem : clear implicits.

End SignPoses.

(** ** lip-sync-engine.ts *)

Module LipSync.
Section WithNumbers.
Context {num : Type} `{JsNumber num}.
Local Open Scope js_scope.

Record Viseme : Type := mkViseme {
  name : string;
  mouthOpen : num;
  mouthWidth : num;
  lipRound : num;
  tongueOut : num;
  jawOpen : num;
  upperLipRaise : num
}.

Definition VISEMES : JsObject.t Viseme :=
  [
  ("rest", mkViseme "Rest" #0 #1 #0 #0 #0 #0);
  ("mbp", mkViseme "M/B/P" #0 #0.9 #0 #0 #0 #0);
  ("fv", mkViseme "F/V" #0.1 #0.95 #0 #0 #0.05 #0.4);
  ("th", mkViseme "TH" #0.15 #1 #0 #0.5 #0.1 #0);
  ("tdnl", mkViseme "T/D/N/L" #0.15 #1 #0 #0.1 #0.1 #0);
  ("sz", mkViseme "S/Z" #0.1 #1.1 #0 #0 #0.05 #0);
  ("shch", mkViseme "SH/CH" #0.15 #0.85 #0.4 #0 #0.1 #0);
  ("kgng", mkViseme "K/G" #0.25 #1 #0 #0 #0.2 #0);
  ("r", mkViseme "R" #0.2 #0.85 #0.3 #0 #0.15 #0);
  ("w", mkViseme "W" #0.15 #0.65 #0.7 #0 #0.1 #0);
  ("aa", mkViseme "AA (father)" #0.7 #1.1 #0 #0 #0.6 #0);
  ("ae", mkViseme "AE (cat)" #0.5 #1.2 #0 #0 #0.4 #0);
  ("ah", mkViseme "AH (but)" #0.4 #1 #0 #0 #0.35 #0);
  ("ee", mkViseme "EE (feet)" #0.2 #1.3 #0 #0 #0.1 #0);
  ("eh", mkViseme "EH (bed)" #0.35 #1.15 #0 #0 #0.25 #0);
  ("ih", mkViseme "IH (sit)" #0.25 #1.2 #0 #0 #0.15 #0);
  ("oh", mkViseme "OH (go)" #0.45 #0.7 #0.8 #0 #0.35 #0);
  ("oo", mkViseme "OO (food)" #0.3 #0.6 #0.9 #0 #0.2 #0);
  ("uh", mkViseme "UH (book)" #0.3 #0.8 #0.5 #0 #0.2 #0)
  ].

(** [VISEMES.rest] *)
Definition VISEMES_rest : Viseme := mkViseme "Rest" #0 #1 #0 #0 #0 #0.

Definition CHAR_TO_VISEME : JsObject.t string :=
  [
  ("b", "mbp"); ("m", "mbp"); ("p", "mbp"); ("f", "fv"); ("v", "fv");
  ("t", "tdnl"); ("d", "tdnl"); ("n", "tdnl"); ("l", "tdnl"); ("s", "sz");
  ("z", "sz"); ("k", "kgng"); ("g", "kgng"); ("r", "r"); ("w", "w");
  ("h", "ah"); ("j", "shch"); ("y", "ee"); ("c", "kgng"); ("q", "kgng");
  ("x", "kgng"); ("a", "ae"); ("e", "eh"); ("i", "ih"); ("o", "oh");
  ("u", "uh"); (" ", "rest")
  ].

Record LipSyncFrame : Type := {
  viseme : Viseme;
  character : ascii;
  time : num;
  duration : num
}.

(** [VISEMES[CHAR_TO_VISEME[char] || 'rest'] || VISEMES.rest].  A key of one
    character names no member of [Object.prototype], and the keys read from
    [VISEMES] are those [CHAR_TO_VISEME] holds. *)
Definition viseme_of (char : ascii) : Viseme :=
  let visemeKey :=
    match JsObject.get CHAR_TO_VISEME (String char EmptyString) with
    | JsObject.Own k => if JsString.truthy k then k else "rest"
    | _ => "rest"
    end in
  match JsObject.get VISEMES visemeKey with
  | JsObject.Own v => v
  | _ => VISEMES_rest
  end.

(** ['aeiou'.includes(char)] *)
Definition isVowel (char : ascii) : bool :=
  existsb (Ascii.eqb char) (JsString.chars "aeiou").

(** The body of the [for] loop, on the state [(frames, time)]. *)
Definition lip_step (msPerChar : num) (st : list LipSyncFrame * num)
    (char : ascii) : list LipSyncFrame * num :=
  let '(frames, time) := st in
  let duration := if isVowel char then msPerChar * #1.3 else msPerChar * #0.8 in
  ((frames ++ [ {| viseme := viseme_of char; character := char;
                   time := time; duration := duration |} ])%list,
   time + duration).

Definition generateLipSync (text : string) (wordsPerMinute : num)
  : list LipSyncFrame :=
  let chars := JsString.chars (JsString.toLowerCase text) in
  let msPerChar := (#60000 / wordsPerMinute) / #5 in
  fst (fold_left (lip_step msPerChar) chars ([], #0)).

(** The [for] loop of [getVisemeAtTime], from the last frame down;
    [currentTime >= frames[i].time] is [frames[i].time <= currentTime]. *)
Fixpoint scan_down (reversed : list LipSyncFrame) (currentTime : num)
  : Viseme :=
  match reversed with
  | [] => VISEMES_rest
  | f :: below =>
      if time f <=? currentTime then viseme f else scan_down below currentTime
  end.

Definition getVisemeAtTime (frames : list LipSyncFrame) (currentTime : num)
  : Viseme :=
  match frames with
  | [] => VISEMES_rest
  | _ => scan_down (rev frames) currentTime
  end.

End WithNumbers.

Arguments Viseme : clear implicits.
Arguments LipSyncFrame : clear implicits.

End LipSync.

(** ** emotion-engine.ts *)

Module EmotionEngine.

Inductive EmotionType :=
| neutral | happy | sad | surprised | angry | thinking | excited | confused.

Definition EmotionType_eqb (a b : EmotionType) : bool :=
  match a, b with
  | neutral, neutral | happy, happy | sad, sad | surprised, surprised
  | angry, angry | thinking, thinking | excited, excited
  | confused, confused => true
  | _, _ => false
  end.

(** The numeric parameters of a [FacialExpression], but for [intensity]. *)
Inductive ExpressionKey :=
| eyeOpenLeft | eyeOpenRight | eyeLookX | eyeLookY | pupilDilation
| browLeftHeight | browRightHeight | browLeftAngle | browRightAngle
| mouthSmile | mouthOpen | mouthWidth | jawOpen
| cheekPuff | noseWrinkle | blushIntensity.

Definition ExpressionKey_eqb (a b : ExpressionKey) : bool :=
  match a, b with
  | eyeOpenLeft, eyeOpenLeft | eyeOpenRight, eyeOpenRight
  | eyeLookX, eyeLookX | eyeLookY, eyeLookY
  | pupilDilation, pupilDilation
  | browLeftHeight, browLeftHeight | browRightHeight, browRightHeight
  | browLeftAngle, browLeftAngle | browRightAngle, browRightAngle
  | mouthSmile, mouthSmile | mouthOpen, mouthOpen | mouthWidth, mouthWidth
  | jawOpen, jawOpen | cheekPuff, cheekPuff | noseWrinkle, noseWrinkle
  | blushIntensity, blushIntensity => true
  | _, _ => false
  end.

Section WithNumbers.
Context {num : Type} `{JsNumber num}.
Local Open Scope js_scope.

(** An expression object: its tag, its intensity, and the value held under
    each parameter key. *)
Record FacialExpression : Type := {
  emotion : EmotionType;
  intensity : num;
  param : ExpressionKey -> num
}.

Definition NEUTRAL_EXPRESSION : FacialExpression :=
  {| emotion := neutral;
     intensity := #0;
     param := fun k =>
       match k with
       | eyeOpenLeft => #1 | eyeOpenRight => #1
       | eyeLookX => #0 | eyeLookY => #0
       | pupilDilation => #1
       | browLeftHeight => #0 | browRightHeight => #0
       | browLeftAngle => #0 | browRightAngle => #0
       | mouthSmile => #0 | mouthOpen => #0 | mouthWidth => #1
       | jawOpen => #0
       | cheekPuff => #0 | noseWrinkle => #0 | blushIntensity => #0
       end |}.

(** The presets, each the entries of its literal in order. *)
Definition EXPRESSIONS (e : EmotionType) : list (ExpressionKey * num) :=
  match e with
  | neutral => []
  | happy =>
      [ (eyeOpenLeft, #0.85);
        (eyeOpenRight, #0.85);
        (browLeftHeight, #0.3);
        (browRightHeight, #0.3);
        (mouthSmile, #0.8);
        (mouthWidth, #1.2);
        (cheekPuff, #0.2);
        (blushIntensity, #0.15) ]
  | sad =>
      [ (eyeOpenLeft, #0.7);
        (eyeOpenRight, #0.7);
        (eyeLookY, #(-0.3));
        (browLeftHeight, #(-0.4));
        (browRightHeight, #(-0.4));
        (browLeftAngle, #0.5);
        (browRightAngle, #0.5);
        (mouthSmile, #(-0.6));
        (mouthWidth, #0.85) ]
  | surprised =>
      [ (eyeOpenLeft, #1.4);
        (eyeOpenRight, #1.4);
        (pupilDilation, #1.3);
        (browLeftHeight, #0.9);
        (browRightHeight, #0.9);
        (mouthOpen, #0.6);
        (mouthSmile, #0);
        (jawOpen, #0.4) ]
  | angry =>
      [ (eyeOpenLeft, #0.8);
        (eyeOpenRight, #0.8);
        (browLeftHeight, #(-0.5));
        (browRightHeight, #(-0.5));
        (browLeftAngle, #(-0.7));
        (browRightAngle, #(-0.7));
        (mouthSmile, #(-0.3));
        (mouthWidth, #0.9);
        (noseWrinkle, #0.6);
        (jawOpen, #0.15) ]
  | thinking =>
      [ (eyeOpenLeft, #0.9);
        (eyeOpenRight, #0.75);
        (eyeLookX, #0.4);
        (eyeLookY, #0.3);
        (browLeftHeight, #0.4);
        (browRightHeight, #(-0.1));
        (mouthSmile, #0.1);
        (mouthWidth, #0.9) ]
  | excited =>
      [ (eyeOpenLeft, #1.3);
        (eyeOpenRight, #1.3);
        (pupilDilation, #1.2);
        (browLeftHeight, #0.7);
        (browRightHeight, #0.7);
        (mouthSmile, #1.0);
        (mouthOpen, #0.3);
        (mouthWidth, #1.3);
        (cheekPuff, #0.1);
        (blushIntensity, #0.3) ]
  | confused =>
      [ (eyeOpenLeft, #1.1);
        (eyeOpenRight, #0.8);
        (eyeLookX, #0.2);
        (browLeftHeight, #0.6);
        (browRightHeight, #(-0.2));
        (browLeftAngle, #0.3);
        (browRightAngle, #(-0.4));
        (mouthSmile, #(-0.1));
        (mouthWidth, #0.95) ]
  end.

Definition EMOTION_KEYWORDS : list (EmotionType * list string) :=
  [
  (happy,
     [ "happy"; "joy"; "glad"; "great"; "wonderful"; "amazing";
       "love"; "like"; "good"; "beautiful"; "fantastic"; "excellent";
       "awesome"; "perfect"; "fun"; "smile"; "laugh"; "celebrate";
       "yes"; "thank"; "thanks"; "welcome"; "friend"; "play"; "enjoy" ]);
  (sad,
     [ "sad"; "sorry"; "miss"; "lonely"; "cry"; "tears"; "unhappy";
       "depressed"; "bad"; "hurt"; "pain"; "lose"; "lost"; "fail";
       "failure"; "disappoint"; "unfortunately"; "grief"; "mourn" ]);
  (surprised,
     [ "surprise"; "wow"; "amazing"; "unbelievable"; "shocked";
       "incredible"; "suddenly"; "unexpected"; "what"; "really";
       "seriously"; "oh"; "omg" ]);
  (angry,
     [ "angry"; "mad"; "hate"; "furious"; "awful"; "terrible";
       "horrible"; "stop"; "no"; "wrong"; "fight"; "unfair";
       "annoyed"; "frustrated"; "stupid" ]);
  (thinking,
     [ "think"; "wonder"; "maybe"; "perhaps"; "consider"; "question";
       "how"; "why"; "understand"; "learn"; "know"; "study";
       "analyze"; "problem"; "solve"; "idea" ]);
  (excited,
     [ "excited"; "thrilled"; "can't wait"; "yay"; "hooray";
       "fantastic"; "incredible"; "brilliant"; "absolutely";
       "definitely"; "totally" ]);
  (confused,
     [ "confused"; "don't understand"; "what"; "huh"; "weird";
       "strange"; "unclear"; "complicated"; "difficult"; "hard";
       "where" ]);
  (neutral, [])
  ].


(** [result[key] = value] *)
Definition set_param (result : FacialExpression) (key : ExpressionKey)
    (v : num) : FacialExpression :=
  {| emotion := emotion result;
     intensity := intensity result;
     param := fun k => if ExpressionKey_eqb k key then v else param result k |}.

(** The body of the loop over [Object.entries(preset)]; every value of a
    preset is a number and every key is a key of [NEUTRAL_EXPRESSION]. *)
Definition blend (intensity : num) (result : FacialExpression)
    (entry : ExpressionKey * num) : FacialExpression :=
  let '(key, value) := entry in
  let neutralVal := param NEUTRAL_EXPRESSION key in
  set_param result key (neutralVal + (value - neutralVal) * intensity).

Definition getExpression (emotion : EmotionType) (intensity : num)
  : FacialExpression :=
  let preset := EXPRESSIONS emotion in
  let result :=
    {| emotion := emotion; intensity := intensity;
       param := param NEUTRAL_EXPRESSION |} in
  fold_left (blend intensity) preset result.

(** The [scores] object: its value under each key; [score_keys] is the
    order of its entries. *)
Definition Scores : Type := EmotionType -> num.

Definition score_keys : list EmotionType :=
  [neutral; happy; sad; surprised; angry; thinking; excited; confused].

Definition initial_scores : Scores :=
  fun e => match e with neutral => #0.1 | _ => #0 end.

(** [scores[e] += x] *)
Definition bump (scores : Scores) (e : EmotionType) (x : num) : Scores :=
  fun e' => if EmotionType_eqb e' e then scores e' + x else scores e'.

(** [keywords.includes(word)] *)
Definition includes (keywords : list string) (w : string) : bool :=
  existsb (String.eqb w) keywords.

(** The two nested loops that count keyword matches. *)
Definition count_word (scores : Scores) (w : string) : Scores :=
  fold_left
    (fun sc entry =>
       if includes (snd entry) w then bump sc (fst entry) #1 else sc)
    EMOTION_KEYWORDS scores.

Definition count_keywords (words : list string) : Scores :=
  fold_left count_word words initial_scores.

(** A match count as a number. *)
Definition of_count (n : nat) : num := num_lit (inject_Z (Z.of_nat n)).

Definition boost (scores : Scores) (n : nat) (strong weak : EmotionType)
  : Scores :=
  if (0 <? n)%nat
  then bump (bump scores strong (of_count n * #0.3)) weak (of_count n * #0.2)
  else scores.

(** The scores after the keyword count and the two punctuation boosts. *)
Definition emotion_scores (text : string) : Scores :=
  let words := JsString.split_spaces (JsString.toLowerCase text) in
  let scores := count_keywords words in
  let exclamations := JsString.count "!"%char text in
  let scores := boost scores exclamations excited surprised in
  let questions := JsString.count "?"%char text in
  boost scores questions thinking confused.

(** The loop that finds the winning emotion, on [(maxEmotion, maxScore)]. *)
Definition pick (scores : Scores) (st : EmotionType * num) (e : EmotionType)
  : EmotionType * num :=
  let '(maxEmotion, maxScore) := st in
  if maxScore <? scores e then (e, scores e) else (maxEmotion, maxScore).

Definition analyzeEmotion (text : string) : EmotionType * num :=
  let scores := emotion_scores text in
  let '(maxEmotion, maxScore) := fold_left (pick scores) score_keys (neutral, #0) in
  (maxEmotion, num_min #1 (maxScore / #3)).

End WithNumbers.

Arguments FacialExpression : clear implicits.
Arguments Scores : clear implicits.

End EmotionEngine.

(** ** sign-language-3d.tsx: the playback controller

    The state variables and refs of [SignLanguage3D] that its playback
    callbacks read and write, with the timers of the browser made explicit:
    [timeouts] holds the [setTimeout] callbacks scheduled and neither fired
    nor cleared, [intervals] the running [setInterval] samplers.  A callback
    closes over the values of the render that created it ([Render]); state
    setters given a function act on the state as it is when they run.  The
    effects that recompute the pose and the lip-sync frames after a render,
    and the [onPlayPause] callback of the parent, are outside the model. *)

Module Playback.
Import SignPoses LipSync.

Inductive SignMode := signs | spell.

Section WithNumbers.
Context {num : Type} `{JsNumber num}.
Local Open Scope js_scope.

(** The prop [text]. *)
Variable text : string.

Record Render : Type := {
  r_signMode : SignMode;
  r_currentItemIndex : nat;
  r_currentKeyframe : nat;
  r_currentLetterIndex : nat;
  r_glossItems : list (SignGlossItem num);
  r_spellChars : list ascii;
  r_speed : num
}.

(** A scheduled [setTimeout(advancePlayback, delay)]. *)
Record Timeout : Type := {
  handle : nat;
  delay : num;
  closure : Render
}.

Record State : Type := {
  signMode : SignMode;
  languageMode : SignLanguageMode;
  playing : bool;
  currentItemIndex : nat;
  currentKeyframe : nat;
  currentLetterIndex : nat;
  currentPose : HandPose num;
  speed : num;
  currentViseme : Viseme num;
  headTilt : num * num * num;
  lipSyncStartTime : num;
  timerRef : option nat;
  lipSyncIntervalRef : option nat;
  timeouts : list Timeout;
  intervals : list nat;
  next_handle : nat
}.

(** The state with one variable written. *)
Definition set_signMode (v : SignMode) (s : State) : State :=
  {| signMode := v;
     languageMode := languageMode s;
     playing := playing s;
     currentItemIndex := currentItemIndex s;
     currentKeyframe := currentKeyframe s;
     currentLetterIndex := currentLetterIndex s;
     currentPose := currentPose s;
     speed := speed s;
     currentViseme := currentViseme s;
     headTilt := headTilt s;
     lipSyncStartTime := lipSyncStartTime s;
     timerRef := timerRef s;
     lipSyncIntervalRef := lipSyncIntervalRef s;
     timeouts := timeouts s;
     intervals := intervals s;
     next_handle := next_handle s |}.

Definition set_languageMode (v : SignLanguageMode) (s : State) : State :=
  {| signMode := signMode s;
     languageMode := v;
     playing := playing s;
     currentItemIndex := currentItemIndex s;
     currentKeyframe := currentKeyframe s;
     currentLetterIndex := currentLetterIndex s;
     currentPose := currentPose s;
     speed := speed s;
     currentViseme := currentViseme s;
     headTilt := headTilt s;
     lipSyncStartTime := lipSyncStartTime s;
     timerRef := timerRef s;
     lipSyncIntervalRef := lipSyncIntervalRef s;
     timeouts := timeouts s;
     intervals := intervals s;
     next_handle := next_handle s |}.

Definition set_playing (v : bool) (s : State) : State :=
  {| signMode := signMode s;
     languageMode := languageMode s;
     playing := v;
     currentItemIndex := currentItemIndex s;
     currentKeyframe := currentKeyframe s;
     currentLetterIndex := currentLetterIndex s;
     currentPose := currentPose s;
     speed := speed s;
     currentViseme := currentViseme s;
     headTilt := headTilt s;
     lipSyncStartTime := lipSyncStartTime s;
     timerRef := timerRef s;
     lipSyncIntervalRef := lipSyncIntervalRef s;
     timeouts := timeouts s;
     intervals := intervals s;
     next_handle := next_handle s |}.

Definition set_currentItemIndex (v : nat) (s : State) : State :=
  {| signMode := signMode s;
     languageMode := languageMode s;
     playing := playing s;
     currentItemIndex := v;
     currentKeyframe := currentKeyframe s;
     currentLetterIndex := currentLetterIndex s;
     currentPose := currentPose s;
     speed := speed s;
     currentViseme := currentViseme s;
     headTilt := headTilt s;
     lipSyncStartTime := lipSyncStartTime s;
     timerRef := timerRef s;
     lipSyncIntervalRef := lipSyncIntervalRef s;
     timeouts := timeouts s;
     intervals := intervals s;
     next_handle := next_handle s |}.

Definition set_currentKeyframe (v : nat) (s : State) : State :=
  {| signMode := signMode s;
     languageMode := languageMode s;
     playing := playing s;
     currentItemIndex := currentItemIndex s;
     currentKeyframe := v;
     currentLetterIndex := currentLetterIndex s;
     currentPose := currentPose s;
     speed := speed s;
     currentViseme := currentViseme s;
     headTilt := headTilt s;
     lipSyncStartTime := lipSyncStartTime s;
     timerRef := timerRef s;
     lipSyncIntervalRef := lipSyncIntervalRef s;
     timeouts := timeouts s;
     intervals := intervals s;
     next_handle := next_handle s |}.

Definition set_currentLetterIndex (v : nat) (s : State) : State :=
  {| signMode := signMode s;
     languageMode := languageMode s;
     playing := playing s;
     currentItemIndex := currentItemIndex s;
     currentKeyframe := currentKeyframe s;
     currentLetterIndex := v;
     currentPose := currentPose s;
     speed := speed s;
     currentViseme := currentViseme s;
     headTilt := headTilt s;
     lipSyncStartTime := lipSyncStartTime s;
     timerRef := timerRef s;
     lipSyncIntervalRef := lipSyncIntervalRef s;
     timeouts := timeouts s;
     intervals := intervals s;
     next_handle := next_handle s |}.

Definition set_currentPose (v : HandPose num) (s : State) : State :=
  {| signMode := signMode s;
     languageMode := languageMode s;
     playing := playing s;
     currentItemIndex := currentItemIndex s;
     currentKeyframe := currentKeyframe s;
     currentLetterIndex := currentLetterIndex s;
     currentPose := v;
     speed := speed s;
     currentViseme := currentViseme s;
     headTilt := headTilt s;
     lipSyncStartTime := lipSyncStartTime s;
     timerRef := timerRef s;
     lipSyncIntervalRef := lipSyncIntervalRef s;
     timeouts := timeouts s;
     intervals := intervals s;
     next_handle := next_handle s |}.

Definition set_speed (v : num) (s : State) : State :=
  {| signMode := signMode s;
     languageMode := languageMode s;
     playing := playing s;
     currentItemIndex := currentItemIndex s;
     currentKeyframe := currentKeyframe s;
     currentLetterIndex := currentLetterIndex s;
     currentPose := currentPose s;
     speed := v;
     currentViseme := currentViseme s;
     headTilt := headTilt s;
     lipSyncStartTime := lipSyncStartTime s;
     timerRef := timerRef s;
     lipSyncIntervalRef := lipSyncIntervalRef s;
     timeouts := timeouts s;
     intervals := intervals s;
     next_handle := next_handle s |}.

Definition set_currentViseme (v : Viseme num) (s : State) : State :=
  {| signMode := signMode s;
     languageMode := languageMode s;
     playing := playing s;
     currentItemIndex := currentItemIndex s;
     currentKeyframe := currentKeyframe s;
     currentLetterIndex := currentLetterIndex s;
     currentPose := currentPose s;
     speed := speed s;
     currentViseme := v;
     headTilt := headTilt s;
     lipSyncStartTime := lipSyncStartTime s;
     timerRef := timerRef s;
     lipSyncIntervalRef := lipSyncIntervalRef s;
     timeouts := timeouts s;
     intervals := intervals s;
     next_handle := next_handle s |}.

Definition set_headTilt (v : num * num * num) (s : State) : State :=
  {| signMode := signMode s;
     languageMode := languageMode s;
     playing := playing s;
     currentItemIndex := currentItemIndex s;
     currentKeyframe := currentKeyframe s;
     currentLetterIndex := currentLetterIndex s;
     currentPose := currentPose s;
     speed := speed s;
     currentViseme := currentViseme s;
     headTilt := v;
     lipSyncStartTime := lipSyncStartTime s;
     timerRef := timerRef s;
     lipSyncIntervalRef := lipSyncIntervalRef s;
     timeouts := timeouts s;
     intervals := intervals s;
     next_handle := next_handle s |}.

Definition set_lipSyncStartTime (v : num) (s : State) : State :=
  {| signMode := signMode s;
     languageMode := languageMode s;
     playing := playing s;
     currentItemIndex := currentItemIndex s;
     currentKeyframe := currentKeyframe s;
     currentLetterIndex := currentLetterIndex s;
     currentPose := currentPose s;
     speed := speed s;
     currentViseme := currentViseme s;
     headTilt := headTilt s;
     lipSyncStartTime := v;
     timerRef := timerRef s;
     lipSyncIntervalRef := lipSyncIntervalRef s;
     timeouts := timeouts s;
     intervals := intervals s;
     next_handle := next_handle s |}.

Definition set_timerRef (v : option nat) (s : State) : State :=
  {| signMode := signMode s;
     languageMode := languageMode s;
     playing := playing s;
     currentItemIndex := currentItemIndex s;
     currentKeyframe := currentKeyframe s;
     currentLetterIndex := currentLetterIndex s;
     currentPose := currentPose s;
     speed := speed s;
     currentViseme := currentViseme s;
     headTilt := headTilt s;
     lipSyncStartTime := lipSyncStartTime s;
     timerRef := v;
     lipSyncIntervalRef := lipSyncIntervalRef s;
     timeouts := timeouts s;
     intervals := intervals s;
     next_handle := next_handle s |}.

Definition set_lipSyncIntervalRef (v : option nat) (s : State) : State :=
  {| signMode := signMode s;
     languageMode := languageMode s;
     playing := playing s;
     currentItemIndex := currentItemIndex s;
     currentKeyframe := currentKeyframe s;
     currentLetterIndex := currentLetterIndex s;
     currentPose := currentPose s;
     speed := speed s;
     currentViseme := currentViseme s;
     headTilt := headTilt s;
     lipSyncStartTime := lipSyncStartTime s;
     timerRef := timerRef s;
     lipSyncIntervalRef := v;
     timeouts := timeouts s;
     intervals := intervals s;
     next_handle := next_handle s |}.

Definition set_timeouts (v : list Timeout) (s : State) : State :=
  {| signMode := signMode s;
     languageMode := languageMode s;
     playing := playing s;
     currentItemIndex := currentItemIndex s;
     currentKeyframe := currentKeyframe s;
     currentLetterIndex := currentLetterIndex s;
     currentPose := currentPose s;
     speed := speed s;
     currentViseme := currentViseme s;
     headTilt := headTilt s;
     lipSyncStartTime := lipSyncStartTime s;
     timerRef := timerRef s;
     lipSyncIntervalRef := lipSyncIntervalRef s;
     timeouts := v;
     intervals := intervals s;
     next_handle := next_handle s |}.

Definition set_intervals (v : list nat) (s : State) : State :=
  {| signMode := signMode s;
     languageMode := languageMode s;
     playing := playing s;
     currentItemIndex := currentItemIndex s;
     currentKeyframe := currentKeyframe s;
     currentLetterIndex := currentLetterIndex s;
     currentPose := currentPose s;
     speed := speed s;
     currentViseme := currentViseme s;
     headTilt := headTilt s;
     lipSyncStartTime := lipSyncStartTime s;
     timerRef := timerRef s;
     lipSyncIntervalRef := lipSyncIntervalRef s;
     timeouts := timeouts s;
     intervals := v;
     next_handle := next_handle s |}.

Definition set_next_handle (v : nat) (s : State) : State :=
  {| signMode := signMode s;
     languageMode := languageMode s;
     playing := playing s;
     currentItemIndex := currentItemIndex s;
     currentKeyframe := currentKeyframe s;
     currentLetterIndex := currentLetterIndex s;
     currentPose := currentPose s;
     speed := speed s;
     currentViseme := currentViseme s;
     headTilt := headTilt s;
     lipSyncStartTime := lipSyncStartTime s;
     timerRef := timerRef s;
     lipSyncIntervalRef := lipSyncIntervalRef s;
     timeouts := timeouts s;
     intervals := intervals s;
     next_handle := v |}.

Definition initial (externalPlaying : bool) : State :=
  {| signMode := signs;
     languageMode := asl;
     playing := externalPlaying;
     currentItemIndex := 0;
     currentKeyframe := 0;
     currentLetterIndex := 0;
     currentPose := REST_POSE;
     speed := #1;
     currentViseme := VISEMES_rest;
     headTilt := (#0, #0, #0);
     lipSyncStartTime := #0;
     timerRef := None;
     lipSyncIntervalRef := None;
     timeouts := [];
     intervals := [];
     next_handle := 1 |}.

(** [textToSignGloss(text, languageMode)]; the resolver always returns. *)
Definition glossItems_of (mode : SignLanguageMode) : list (SignGlossItem num) :=
  match textToSignGloss text mode with
  | Some items => items
  | None => []
  end.

(** [text.replace(/[^a-zA-Z\s]/g, '').toLowerCase().split('').filter(Boolean)] *)
Definition spellChars_of : list ascii :=
  JsString.chars
    (JsString.toLowerCase
       (JsString.filter
          (fun c => JsString.is_lower c || JsString.is_upper c
                    || JsString.is_space c)
          text)).

(** The values a callback created in the current render closes over. *)
Definition render (s : State) : Render :=
  {| r_signMode := signMode s;
     r_currentItemIndex := currentItemIndex s;
     r_currentKeyframe := currentKeyframe s;
     r_currentLetterIndex := currentLetterIndex s;
     r_glossItems := glossItems_of (languageMode s);
     r_spellChars := spellChars_of;
     r_speed := speed s |}.

Definition clearTimeout (h : nat) (s : State) : State :=
  set_timeouts (List.filter (fun t => negb (handle t =? h)%nat) (timeouts s)) s.

Definition clearInterval (h : nat) (s : State) : State :=
  set_intervals (List.filter (fun i => negb (i =? h)%nat) (intervals s)) s.

(** [timerRef.current = setTimeout(advancePlayback, delay)], the callback
    being the one of render [r]. *)
Definition schedule (r : Render) (d : num) (s : State) : State :=
  let h := next_handle s in
  set_timerRef (Some h)
    (set_next_handle (S h)
       (set_timeouts (timeouts s ++ [ {| handle := h; delay := d; closure := r |} ])%list s)).

Definition startLipSync (now : num) (s : State) : State :=
  let s := match lipSyncIntervalRef s with
           | Some h => clearInterval h s
           | None => s
           end in
  let s := set_lipSyncStartTime now s in
  let h := next_handle s in
  set_lipSyncIntervalRef (Some h)
    (set_next_handle (S h) (set_intervals (intervals s ++ [h])%list s)).

Definition stopLipSync (s : State) : State :=
  let s := match lipSyncIntervalRef s with
           | Some h => set_lipSyncIntervalRef None (clearInterval h s)
           | None => s
           end in
  set_currentViseme VISEMES_rest s.

Definition clearTimer (s : State) : State :=
  match timerRef s with
  | Some h => set_timerRef None (clearTimeout h s)
  | None => s
  end.

Definition stopPlaying (s : State) : State :=
  stopLipSync (clearTimer (set_playing false s)).

(** [ds?.[k] || fallback] *)
Definition duration_or (ds : option (list num)) (k : nat) (fallback : num) : num :=
  match ds with
  | Some l =>
      match nth_error l k with
      | Some d => if num_truthy d then d else fallback
      | None => fallback
      end
  | None => fallback
  end.

(** [setCurrentItemIndex(prev => prev + 1); setCurrentKeyframe(0);
    setCurrentLetterIndex(0)] *)
Definition next_item (s : State) : State :=
  set_currentLetterIndex 0
    (set_currentKeyframe 0 (set_currentItemIndex (currentItemIndex s + 1) s)).

(** [advancePlayback] as created in render [r], run at time [now].  An item
    of type [word] whose [animation] is a member of [Object.prototype] has
    no [poses]: reading their length throws, and the callback ends there. *)
Definition advancePlayback (r : Render) (now : num) (s : State) : State :=
  match r_signMode r with
  | signs =>
      match nth_error (r_glossItems r) (r_currentItemIndex r) with
      | None => stopPlaying s
      | Some item =>
          match gloss_type item, animation item, letterPoses item with
          | word, Some (PrototypeMember _), _ => s
          | word, Some (TableAnimation a), _ =>
              if (r_currentKeyframe r + 1 <? List.length (poses a))%nat then
                schedule r
                  (duration_or (durations a) (r_currentKeyframe r + 1) #500 / r_speed r)
                  (set_currentKeyframe (currentKeyframe s + 1) s)
              else if match loop a with Some b => b | None => false end then
                schedule r (#400 / r_speed r) (set_currentKeyframe 0 s)
              else if (r_currentItemIndex r + 1 <? List.length (r_glossItems r))%nat then
                schedule r (#600 / r_speed r)
                  (set_lipSyncStartTime now (next_item s))
              else stopPlaying s
          | fingerspell, _, Some letters =>
              if (r_currentLetterIndex r + 1 <? List.length letters)%nat then
                schedule r (#700 / r_speed r)
                  (set_currentLetterIndex (currentLetterIndex s + 1) s)
              else if (r_currentItemIndex r + 1 <? List.length (r_glossItems r))%nat then
                schedule r (#800 / r_speed r) (next_item s)
              else stopPlaying s
          | _, _, _ => s
          end
      end
  | spell =>
      if (r_currentLetterIndex r + 1 <? List.length (r_spellChars r))%nat then
        schedule r (#700 / r_speed r)
          (set_currentLetterIndex (currentLetterIndex s + 1) s)
      else stopPlaying s
  end.

(** [(item?.type === 'word' && item.animation?.durations?.[0]) || 600] *)
Definition first_delay (r : Render) : num :=
  match nth_error (r_glossItems r) (r_currentItemIndex r) with
  | Some item =>
      match gloss_type item, animation item with
      | word, Some (TableAnimation a) => duration_or (durations a) 0 #600
      | _, _ => #600
      end
  | None => #600
  end.

Definition startPlaying (r : Render) (now : num) (s : State) : State :=
  schedule r (first_delay r / r_speed r)
    (startLipSync now (set_playing true s)).

Definition reset (s : State) : State :=
  set_headTilt (#0, #0, #0)
    (set_currentViseme VISEMES_rest
       (set_currentPose REST_POSE
          (set_currentLetterIndex 0
             (set_currentKeyframe 0
                (set_currentItemIndex 0 (stopPlaying s)))))).

Definition stepForward (r : Render) (s : State) : State :=
  match r_signMode r with
  | signs =>
      if (r_currentItemIndex r + 1 <? List.length (r_glossItems r))%nat
      then next_item s else s
  | spell =>
      if (r_currentLetterIndex r + 1 <? List.length (r_spellChars r))%nat
      then set_currentLetterIndex (currentLetterIndex s + 1) s else s
  end.

Definition stepBackward (r : Render) (s : State) : State :=
  match r_signMode r with
  | signs =>
      if (0 <? r_currentItemIndex r)%nat
      then set_currentLetterIndex 0
             (set_currentKeyframe 0
                (set_currentItemIndex (currentItemIndex s - 1) s))
      else s
  | spell =>
      if (0 <? r_currentLetterIndex r)%nat
      then set_currentLetterIndex (currentLetterIndex s - 1) s else s
  end.

(** The [onClick] of the chip of item [idx]: a direct jump. *)
Definition jumpTo (idx : nat) (s : State) : State :=
  set_currentLetterIndex 0 (set_currentKeyframe 0 (set_currentItemIndex idx s)).

(** *** The component as a transition system *)

Inductive Event : Type :=
| ClickStart (now : num)
| ClickPause
| ClickReset
| ClickStepForward
| ClickStepBackward
| ClickItem (idx : nat)
| ClickLanguage (mode : SignLanguageMode)
| ClickSignMode (mode : SignMode)
| ClickSpeed (v : num)
| Fire (h : nat) (now : num).

Definition totalItems (s : State) : nat :=
  match signMode s with
  | signs => List.length (glossItems_of (languageMode s))
  | spell => List.length spellChars_of
  end.

Definition currentIdx (s : State) : nat :=
  match signMode s with
  | signs => currentItemIndex s
  | spell => currentLetterIndex s
  end.

(** What the rendered controls let happen: Start is shown while not
    playing (and disabled without items), Pause while playing, the step
    buttons are disabled at the ends, the chips exist in [signs] mode, and
    only a pending timeout fires. *)
Definition enabled (s : State) (e : Event) : bool :=
  match e with
  | ClickStart _ => negb (playing s) && negb (totalItems s =? 0)%nat
  | ClickPause => playing s
  | ClickReset => true
  | ClickStepForward => (currentIdx s + 1 <? totalItems s)%nat
  | ClickStepBackward => negb (currentIdx s =? 0)%nat
  | ClickItem idx =>
      match signMode s with
      | signs => (idx <? List.length (glossItems_of (languageMode s)))%nat
      | spell => false
      end
  | ClickLanguage _ => true
  | ClickSignMode _ => true
  | ClickSpeed _ => true
  | Fire h _ => existsb (fun t => (handle t =? h)%nat) (timeouts s)
  end.

Definition closure_of (h : nat) (s : State) : Render :=
  match List.find (fun t => (handle t =? h)%nat) (timeouts s) with
  | Some t => closure t
  | None => render s
  end.

(** A click runs the handler of the current render; a timeout leaves the
    pending set and runs the callback it was given. *)
Definition step (s : State) (e : Event) : State :=
  match e with
  | ClickStart now => startPlaying (render s) now s
  | ClickPause => stopPlaying s
  | ClickReset => reset s
  | ClickStepForward => stepForward (render s) s
  | ClickStepBackward => stepBackward (render s) s
  | ClickItem idx => jumpTo idx s
  | ClickLanguage mode => reset (set_languageMode mode s)
  | ClickSignMode mode => reset (set_signMode mode s)
  | ClickSpeed v => set_speed v s
  | Fire h now => advancePlayback (closure_of h s) now (clearTimeout h s)
  end.

Inductive reachable (externalPlaying : bool) : State -> Prop :=
| reach_initial : reachable externalPlaying (initial externalPlaying)
| reach_step s e :
    reachable externalPlaying s -> enabled s e = true ->
    reachable externalPlaying (step s e).

End WithNumbers.

Arguments Render : clear implicits.
Arguments Timeout : clear implicits.
Arguments State : clear implicits.
Arguments Event : clear implicits.

End Playback.

(** ** lip-sync-engine.ts and emotion-engine.ts: blending *)

Module Blending.
Import EmotionEngine.

Section WithNumbers.
Context {num : Type} `{JsNumber num}.
Local Open Scope js_scope.

(** [lerpViseme]; [t > 0.5] is [0.5 < t]. *)
Definition lerpViseme (a b : LipSync.Viseme num) (t : num)
  : LipSync.Viseme num :=
  let lerp := fun x y : num => x + (y - x) * t in
  {| LipSync.name := if #0.5 <? t then LipSync.name b else LipSync.name a;
     LipSync.mouthOpen := lerp (LipSync.mouthOpen a) (LipSync.mouthOpen b);
     LipSync.mouthWidth := lerp (LipSync.mouthWidth a) (LipSync.mouthWidth b);
     LipSync.lipRound := lerp (LipSync.lipRound a) (LipSync.lipRound b);
     LipSync.tongueOut := lerp (LipSync.tongueOut a) (LipSync.tongueOut b);
     LipSync.jawOpen := lerp (LipSync.jawOpen a) (LipSync.jawOpen b);
     LipSync.upperLipRaise :=
       lerp (LipSync.upperLipRaise a) (LipSync.upperLipRaise b) |}.

(** [lerpExpression]: every numeric field is blended, the sixteen
    parameters and [intensity]. *)
Definition lerpExpression (a b : FacialExpression num) (t : num)
  : FacialExpression num :=
  let lerp := fun x y : num => x + (y - x) * t in
  {| emotion := if #0.5 <? t then emotion b else emotion a;
     intensity := lerp (intensity a) (intensity b);
     param := fun k => lerp (param a k) (param b k) |}.

End WithNumbers.
End Blending.

(** ** hand-3d-model.tsx: the pose a hand shows

    The two refs of [Hand3DModel] and what its render body and its
    [useFrame] callback do to them.  The wrist rotation the callback copies
    to the scene graph is not part of the model. *)

Module Hand3D.
Import SignPoses.

Section WithNumbers.
Context {num : Type} `{JsNumber num}.
Local Open Scope js_scope.

Record Refs : Type := {
  currentPoseRef : HandPose num;
  targetPoseRef : HandPose num
}.

(** The initial values of the refs, from the props [pose] and
    [targetPose]. *)
Definition mount (externalPose targetPose : option (HandPose num)) : Refs :=
  {| currentPoseRef :=
       match externalPose with Some p => p | None => REST_POSE end;
     targetPoseRef :=
       match targetPose, externalPose with
       | Some p, _ => p
       | None, Some p => p
       | None, None => REST_POSE
       end |}.

(** The render body: the target follows the props. *)
Definition render (externalPose targetPose : option (HandPose num))
    (r : Refs) : Refs :=
  match targetPose, externalPose with
  | Some p, _ => {| currentPoseRef := currentPoseRef r; targetPoseRef := p |}
  | None, Some p => {| currentPoseRef := currentPoseRef r; targetPoseRef := p |}
  | None, None => r
  end.

(** The [useFrame] callback, [delta] seconds after the previous frame. *)
Definition frame (transitionSpeed delta : num) (r : Refs) : Refs :=
  let speed := transitionSpeed * delta in
  let t := num_min #1 speed in
  let lerpVal := fun current target : num => current + (target - current) * t in
  let lerpFinger := fun cur tgt : FingerPose num =>
    {| mcp_curl := lerpVal (mcp_curl cur) (mcp_curl tgt);
       mcp_spread := lerpVal (mcp_spread cur) (mcp_spread tgt);
       pip_curl := lerpVal (pip_curl cur) (pip_curl tgt);
       dip_curl := lerpVal (dip_curl cur) (dip_curl tgt) |} in
  let cur := currentPoseRef r in
  let tgt := targetPoseRef r in
  {| currentPoseRef :=
       {| thumb := lerpFinger (thumb cur) (thumb tgt);
          index := lerpFinger (index cur) (index tgt);
          middle := lerpFinger (middle cur) (middle tgt);
          ring := lerpFinger (ring cur) (ring tgt);
          pinky := lerpFinger (pinky cur) (pinky tgt);
          wrist :=
            Some {| pitch := lerpVal (wrist_or_zero pitch cur) (wrist_or_zero pitch tgt);
                    yaw := lerpVal (wrist_or_zero yaw cur) (wrist_or_zero yaw tgt);
                    roll := lerpVal (wrist_or_zero roll cur) (wrist_or_zero roll tgt) |} |};
     targetPoseRef := tgt |}.

End WithNumbers.

Arguments Refs : clear implicits.

End Hand3D.

(** ** sign-language-3d.tsx: what a render derives and its effects

    The values [SignLanguage3D] computes in a render from its state, and the
    two effects that follow a render: the one that picks the pose to show
    and the one that prepares the lip-sync frames.  An effect is given by
    the arguments it passes to the state setters. *)

Module Display.
Import SignPoses LipSync Playback.

(** What an effect does: it calls setters, leaves the state alone, or
    throws a [TypeError]. *)
Inductive Outcome (A : Type) : Type :=
| Sets (v : A)
| Skips
| Throws.

Arguments Skips {A}.
Arguments Throws {A}.

Section WithNumbers.
Context {num : Type} `{JsNumber num}.
Local Open Scope js_scope.

Variable text : string.

(** [Math.sin]. *)
Variable Math_sin : num -> num.

(** [signMode === 'signs' ? glossItems[currentItemIndex] : null]; [None]
    stands for [null] and for [undefined]. *)
Definition currentItem (s : State num) : option (SignGlossItem num) :=
  match signMode s with
  | signs => nth_error (glossItems_of text (languageMode s)) (currentItemIndex s)
  | spell => None
  end.

(** [signMode === 'spell' ? spellChars[currentLetterIndex] : '']; [None]
    stands for the two falsy values, [''] and [undefined]. *)
Definition currentChar (s : State num) : option ascii :=
  match signMode s with
  | spell => nth_error (spellChars_of text) (currentLetterIndex s)
  | signs => None
  end.

(** [glossItems.filter(g => g.type === 'word').length], [0] in spell
    mode. *)
Definition wordCount (s : State num) : nat :=
  match signMode s with
  | signs =>
      List.length
        (List.filter
           (fun g => match gloss_type g with word => true | fingerspell => false end)
           (glossItems_of text (languageMode s)))
  | spell => 0
  end.

(** The arguments of [setCurrentPose] and, when it is called, of
    [setHeadTilt].  A pose of [None] is [undefined]. *)
Record PoseUpdate : Type := {
  shown : option (HandPose num);
  tilt : option (num * num * num)
}.

(** The effect on [signMode], the three counters, [currentChar] and
    [letterPoses]. *)
Definition pose_effect (s : State num) : Outcome PoseUpdate :=
  match signMode s, currentItem s with
  | signs, Some item =>
      match gloss_type item, animation item, letterPoses item with
      | word, Some (PrototypeMember _), _ => Throws
      | word, Some (TableAnimation a), _ =>
          Sets
            {| shown :=
                 match nth_error (poses a) (currentKeyframe s) with
                 | Some p => Some p
                 | None => nth_error (poses a) 0
                 end;
               tilt :=
                 Some
                   (match type a with
                    | Motion =>
                        Math_sin (num_lit (inject_Z (Z.of_nat (currentKeyframe s))))
                        * #0.05
                    | Static => #0
                    end, #0, #0) |}
      | fingerspell, _, Some letters =>
          (* Math.min(currentLetterIndex, letters.length - 1): -1 on an
             empty list, where the read gives undefined *)
          Sets
            {| shown :=
                 Some
                   (match letters with
                    | [] => REST_POSE
                    | _ :: _ =>
                        nth (Nat.min (currentLetterIndex s) (List.length letters - 1))
                          letters REST_POSE
                    end);
               tilt := None |}
      | _, _, _ => Skips
      end
  | spell, _ =>
      match currentChar s with
      | Some c =>
          Sets
            {| shown :=
                 Some
                   (match JsObject.get (getLetterPoses (languageMode s))
                            (String c EmptyString) with
                    | JsObject.Own p => p
                    | _ => REST_POSE
                    end);
               tilt := None |}
      | None => Skips
      end
  | signs, None => Skips
  end.

(** The effect on [currentItem], [currentChar], [signMode] and [speed]: the
    argument of [setLipSyncFrames], when it is called. *)
Definition lipSync_effect (s : State num) : option (list (LipSyncFrame num)) :=
  match currentItem s with
  | Some {| gloss_type := word; value := v; animation := Some _ |} =>
      Some (generateLipSync v (#120 * speed s))
  | _ =>
      match signMode s, currentChar s with
      | spell, Some c => Some (generateLipSync (String c EmptyString) #60)
      | _, _ => None
      end
  end.

End WithNumbers.

Arguments PoseUpdate : clear implicits.

End Display.

(** ** Texts of any UTF-16 code unit *)

Module Utf16.
Import SignPoses.

(** A JavaScript string is a sequence of UTF-16 code units.  [JsString]
    holds the strings over U+0000..U+00FF: the keys of the tables, the
    keywords and every word the resolver looks up are such strings.  A text
    that is typed in may hold any code unit, and is a list of them here. *)
Definition of_string (s : string) : list N :=
  List.map JsString.code (JsString.chars s).

(** The string of code units that are U+00FF at most. *)
Definition to_string (w : list N) : string :=
  string_of_list_ascii (List.map ascii_of_N w).

(** [\s] of a regular expression: the white space and the line terminators
    of ECMAScript. *)
Definition is_space (u : N) : bool :=
  ((9 <=? u) && (u <=? 13) || (u =? 32) || (u =? 160) || (u =? 0x1680)
   || (0x2000 <=? u) && (u <=? 0x200A) || (u =? 0x2028) || (u =? 0x2029)
   || (u =? 0x202F) || (u =? 0x205F) || (u =? 0x3000) || (u =? 0xFEFF))%N.

(** [a-z]. *)
Definition is_lower (u : N) : bool := ((97 <=? u) && (u <=? 122))%N.

(** [A-Z]. *)
Definition is_upper (u : N) : bool := ((65 <=? u) && (u <=? 90))%N.

(** [s.split(/\s+/)], as [JsString.split_ws]. *)
Fixpoint split_ws (s cur : list N) (in_run : bool) : list (list N) :=
  match s with
  | [] => [cur]
  | u :: s' =>
      if is_space u then
        if in_run then split_ws s' cur true
        else cur :: split_ws s' [] true
      else split_ws s' (cur ++ [u]) false
  end.

(** [Boolean(s)] for a string. *)
Definition truthy (w : list N) : bool :=
  match w with [] => false | _ :: _ => true end.

Section Lowering.

(** [String.prototype.toLowerCase] on any text: the lower-case mapping of
    the Unicode character database, which the engine brings and the
    program does not hold.  It is a parameter of what follows. *)
Variable toLowerCase : list N -> list N.

(** [text.toLowerCase().replace(/[^a-z\s]/g, '').split(/\s+/)
    .filter(Boolean)]; what the strip leaves is [a-z] and white space, so
    the words are strings over [a-z]. *)
Definition normalize (text : list N) : list string :=
  List.map to_string
    (List.filter truthy
       (split_ws
          (List.filter (fun u => is_lower u || is_space u) (toLowerCase text))
          [] false)).

(** [text.replace(/[^a-zA-Z\s]/g, '').toLowerCase().split('')
    .filter(Boolean)]: one code unit per element, none of them empty. *)
Definition spellChars (text : list N) : list N :=
  toLowerCase
    (List.filter (fun u => is_lower u || is_upper u || is_space u) text).

Context {num : Type} `{JsNumber num}.

(** [textToSignGloss(text, mode)] on any text: the loop of
    [SignPoses.gloss_words] on the words of [normalize]. *)
Definition textToSignGloss (text : list N) (mode : SignLanguageMode)
  : option (list (SignGlossItem num)) :=
  gloss_words (getWordAnimations mode) (getLetterPoses mode) (normalize text).

End Lowering.

(** *** What the program needs of [toLowerCase] *)

(** The code units of [a-z] and white space that the lower-casing of one
    code unit leaves: [A-Z] gives its small letter, [a-z] and white space
    stay, U+212A KELVIN SIGN gives [k], U+0130 LATIN CAPITAL LETTER I WITH
    DOT ABOVE gives [i] (followed by U+0307), and no other code unit gives
    any. *)
Definition lower_kept (u : N) : list N :=
  if is_upper u then [(u + 32)%N]
  else if is_lower u || is_space u then [u]
  else if (u =? 0x212A)%N then [107%N]
  else if (u =? 0x130)%N then [105%N]
  else [].

(** [toLowerCase] on [A-Z], [a-z] and white space. *)
Definition lower_ascii (u : N) : N :=
  if is_upper u then (u + 32)%N else u.

(** Three facts of the Unicode lower-case mapping: which letters of [a-z]
    and which white space a lower-cased text holds; that a text of [A-Z],
    [a-z] and white space is lower-cased letter by letter; and that on
    U+0000..U+00FF it is [JsString.toLowerCase]. *)
Record Lowercasing (toLowerCase : list N -> list N) : Prop := {
  lowered_kept :
    forall s,
      List.filter (fun u => is_lower u || is_space u) (toLowerCase s)
      = flat_map lower_kept s;
  lowered_letters :
    forall s,
      Forall (fun u => is_lower u || is_upper u || is_space u = true) s ->
      toLowerCase s = List.map lower_ascii s;
  lowered_latin1 :
    forall s : string,
      toLowerCase (of_string s) = of_string (JsString.toLowerCase s)
}.

(** [toLowerCase] for texts whose only capitals are those of U+0000..U+00FF,
    U+0130 and U+212A: every other code unit stays.  One function with the
    three properties. *)
Definition lower_unit (u : N) : list N :=
  if is_upper u || ((192 <=? u) && (u <=? 222) && negb (u =? 215))%N
  then [(u + 32)%N]
  else if (u =? 0x212A)%N then [107%N]
  else if (u =? 0x130)%N then [105%N; 0x307%N]
  else [u].

Definition toLowerCase_basic (s : list N) : list N := flat_map lower_unit s.

(** A code unit whose lower-casing holds a letter of [a-z]. *)
Definition letter_source (u : N) : bool :=
  is_lower u || is_upper u || (u =? 0x212A)%N || (u =? 0x130)%N.

End Utf16.

(** * Properties *)

Unset Implicit Arguments.

(** ** The models of numbers and strings on a few values *)

(** A literal is the double the JavaScript parser reads. *)
Example lit_is_nearest_double :
  Float64.lit 0.1 = 0x1.999999999999ap-4%float
  /\ Float64.lit 0.05 = 0x1.999999999999ap-5%float
  /\ Float64.lit 1.3 = 0x1.4cccccccccccdp+0%float
  /\ Float64.lit (-0.3) = (-0x1.3333333333333p-2)%float
  /\ Float64.lit 60000 = 60000%float.
Proof. repeat split. Qed.

Example split_spaces_keeps_empty_ends :
  JsString.split_spaces " a  b " = [""; "a"; "b"; ""]
  /\ JsString.split_spaces "" = [""]
  /\ SignPoses.normalize "Hello,  World! 42" = ["hello"; "world"].
Proof. repeat split. Qed.

Example word_tables_sizes :
  List.length (SignPoses.ASL_LETTER_POSES (num := float)) = 26%nat
  /\ List.length (SignPoses.ISL_LETTER_POSES (num := float)) = 26%nat
  /\ List.length (SignPoses.ASL_WORD_ANIMATIONS (num := float)) = 44%nat
  /\ List.length (SignPoses.ISL_WORD_ANIMATIONS (num := float)) = 44%nat
  /\ NoDup (JsObject.keys (SignPoses.ASL_WORD_ANIMATIONS (num := float))).
Proof.
  repeat split.
  cbv [JsObject.keys SignPoses.ASL_WORD_ANIMATIONS List.map fst].
  repeat (constructor; [cbn [In]; intuition discriminate|]). constructor.
Qed.

(** ** Loops, strings and tables *)

Lemma while_stop {S : Type} (cond : S -> bool) (body : S -> S) (s : S) n :
  cond s = false -> while (Datatypes.S n) cond body s = Some s.
Proof. intros E. simpl. now rewrite E. Qed.

Lemma while_turn {S : Type} (cond : S -> bool) (body : S -> S) (s : S) n :
  cond s = true ->
  while (Datatypes.S n) cond body s = while n cond body (body s).
Proof. intros E. simpl. now rewrite E. Qed.

Lemma skipn_head {A : Type} (l : list A) : forall i a r d,
  skipn i l = a :: r ->
  nth i l d = a /\ skipn (S i) l = r /\ (i < List.length l)%nat.
Proof.
  induction l as [|x l IH]; intros i a r d E.
  - destruct i; discriminate E.
  - destruct i as [|i].
    + simpl in E. injection E as -> ->. simpl. repeat split. lia.
    + simpl in E. destruct (IH i a r d E) as (E1 & E2 & E3).
      simpl nth. repeat split; [exact E1 | exact E2 | simpl; lia].
Qed.

Lemma skipn_nil_length {A : Type} (l : list A) i :
  skipn i l = [] -> (List.length l <= i)%nat.
Proof.
  revert i. induction l as [|x l IH]; intros [|i] E; simpl in *; try lia.
  - discriminate E.
  - apply IH in E. lia.
Qed.

Lemma skipn_add {A : Type} (l : list A) i k :
  skipn (i + k) l = skipn k (skipn i l).
Proof.
  revert l. induction i as [|i IH]; intros l; simpl.
  - reflexivity.
  - destruct l as [|x l]; [now destruct k | apply IH].
Qed.

Module TableFacts.
Import JsObject.

Section Own.
Context {V : Type}.

Lemma own_assign (o : t V) k v k' :
  own (assign o k v) k' = if String.eqb k' k then Some v else own o k'.
Proof.
  induction o as [|[k0 v0] o IH]; simpl.
  - reflexivity.
  - destruct (String.eqb k k0) eqn:E; simpl.
    + apply String.eqb_eq in E. subst k0.
      destruct (String.eqb k' k); reflexivity.
    + rewrite IH. destruct (String.eqb k' k0) eqn:E0; [|reflexivity].
      apply String.eqb_eq in E0. subst k0.
      destruct (String.eqb k' k) eqn:E1; [|reflexivity].
      apply String.eqb_eq in E1. subst k'. rewrite String.eqb_refl in E.
      discriminate E.
Qed.

Lemma keys_assign (o : t V) k v k' :
  In k' (keys o) -> In k' (keys (assign o k v)).
Proof.
  unfold keys. induction o as [|[k0 v0] o IH]; simpl; [tauto|].
  intros [E | I]; destruct (String.eqb k k0); simpl; auto.
Qed.

Lemma keys_spread (entries base : t V) k :
  In k (keys base) -> In k (keys (spread base entries)).
Proof.
  unfold spread. revert base.
  induction entries as [|[k0 v0] es IH]; intros base I; simpl; [exact I|].
  apply IH, keys_assign, I.
Qed.

(** A spread leaves alone the keys its entries do not write. *)
Lemma own_spread_other (entries base : t V) k :
  ~ In k (keys entries) -> own (spread base entries) k = own base k.
Proof.
  unfold spread. revert base.
  induction entries as [|[k0 v0] es IH]; intros base N; simpl; [reflexivity|].
  rewrite IH by (intros I; apply N; right; exact I).
  rewrite own_assign. destruct (String.eqb k k0) eqn:E; [|reflexivity].
  apply String.eqb_eq in E. exfalso. apply N. left. now symmetry.
Qed.

Lemma get_own_eq (o o' : t V) k : own o k = own o' k -> get o k = get o' k.
Proof. unfold get. now intros ->. Qed.

Lemma get_own (o : t V) k v : get o k = Own v -> own o k = Some v.
Proof.
  unfold get. destruct (own o k) as [v'|].
  - now intros [= ->].
  - now destruct (existsb _ _).
Qed.

End Own.
End TableFacts.

(** ** The gloss resolver *)

Section GlossResolver.
Import SignPoses.
Context {num : Type} `{JsNumber num}.
Variable wordAnimations : JsObject.t (SignAnimation num).
Variable letters : JsObject.t (HandPose num).

Definition matches (phrase : string) : bool :=
  JsObject.truthy (JsObject.get wordAnimations phrase).

Definition phrase2 (w1 w2 : string) : string := w1 ++ " " ++ w2.
Definition phrase3 (w1 w2 w3 : string) : string := w1 ++ " " ++ w2 ++ " " ++ w3.

Definition no_three (ws : list string) : Prop :=
  match ws with
  | w1 :: w2 :: w3 :: _ => matches (phrase3 w1 w2 w3) = false
  | _ => True
  end.

Definition no_two (ws : list string) : Prop :=
  match ws with
  | w1 :: w2 :: _ => matches (phrase2 w1 w2) = false
  | _ => True
  end.

Definition table_item (phrase : string) : SignGlossItem num :=
  word_item phrase (JsObject.get wordAnimations phrase).

(** The scan as the specification words it: at the head of the remaining
    words the longest of a three-word, a two-word and a one-word phrase that
    the table knows is emitted as a word sign and consumed, and a word
    starting no known phrase is fingerspelled. *)
Inductive greedy_scan : list string -> list (SignGlossItem num) -> Prop :=
| scan_done : greedy_scan [] []
| scan_three w1 w2 w3 rest items :
    matches (phrase3 w1 w2 w3) = true ->
    greedy_scan rest items ->
    greedy_scan (w1 :: w2 :: w3 :: rest) (table_item (phrase3 w1 w2 w3) :: items)
| scan_two w1 w2 rest items :
    no_three (w1 :: w2 :: rest) ->
    matches (phrase2 w1 w2) = true ->
    greedy_scan rest items ->
    greedy_scan (w1 :: w2 :: rest) (table_item (phrase2 w1 w2) :: items)
| scan_one w rest items :
    no_three (w :: rest) -> no_two (w :: rest) ->
    matches w = true ->
    greedy_scan rest items ->
    greedy_scan (w :: rest) (table_item w :: items)
| scan_spell w rest items :
    no_three (w :: rest) -> no_two (w :: rest) ->
    matches w = false ->
    greedy_scan rest items ->
    greedy_scan (w :: rest) (fingerspell_item letters w :: items).

Variable words : list string.

Lemma word_at_skipn i a r :
  skipn i words = a :: r ->
  word_at words i = a /\ skipn (S i) words = r /\ (i < List.length words)%nat.
Proof. apply skipn_head. Qed.

(** One turn of the loop, read on the words that remain at [i]. *)
Lemma gloss_step_remaining i acc w1 r :
  skipn i words = w1 :: r ->
  gloss_step wordAnimations letters words (i, acc) =
    match r with
    | w2 :: w3 :: _ =>
        if matches (phrase3 w1 w2 w3)
        then ((i + 3)%nat, (acc ++ [table_item (phrase3 w1 w2 w3)])%list)
        else if matches (phrase2 w1 w2)
        then ((i + 2)%nat, (acc ++ [table_item (phrase2 w1 w2)])%list)
        else if matches w1
        then ((i + 1)%nat, (acc ++ [table_item w1])%list)
        else ((i + 1)%nat, (acc ++ [fingerspell_item letters w1])%list)
    | [w2] =>
        if matches (phrase2 w1 w2)
        then ((i + 2)%nat, (acc ++ [table_item (phrase2 w1 w2)])%list)
        else if matches w1
        then ((i + 1)%nat, (acc ++ [table_item w1])%list)
        else ((i + 1)%nat, (acc ++ [fingerspell_item letters w1])%list)
    | [] =>
        if matches w1
        then ((i + 1)%nat, (acc ++ [table_item w1])%list)
        else ((i + 1)%nat, (acc ++ [fingerspell_item letters w1])%list)
    end.
Proof.
  intros E1. destruct (word_at_skipn _ _ _ E1) as (W1 & S1 & L1).
  unfold gloss_step, matches, table_item, phrase2, phrase3.
  replace (i + 1)%nat with (S i) by lia.
  replace (i + 2)%nat with (S (S i)) by lia.
  rewrite W1.
  destruct r as [|w2 r2].
  - apply skipn_nil_length in S1.
    replace (S (S i) <? List.length words)%nat with false
      by (symmetry; apply Nat.ltb_ge; lia).
    replace (S i <? List.length words)%nat with false
      by (symmetry; apply Nat.ltb_ge; lia).
    reflexivity.
  - destruct (word_at_skipn _ _ _ S1) as (W2 & S2 & L2). rewrite W2.
    apply Nat.ltb_lt in L2. rewrite L2.
    destruct r2 as [|w3 r3].
    + apply skipn_nil_length in S2.
      replace (S (S i) <? List.length words)%nat with false
        by (symmetry; apply Nat.ltb_ge; lia).
      reflexivity.
    + destruct (word_at_skipn _ _ _ S2) as (W3 & S3 & L3). rewrite W3.
      apply Nat.ltb_lt in L3. rewrite L3. reflexivity.
Qed.

Let cond (st : nat * list (SignGlossItem num)) : bool :=
  (fst st <? List.length words)%nat.

(** From position [i] the loop ends within [length words - i] turns, having
    appended a greedy scan of the words from [i] on. *)
Lemma gloss_loop_scan : forall n i acc,
  (List.length words - i < n)%nat ->
  exists j items,
    while n cond (gloss_step wordAnimations letters words) (i, acc)
      = Some (j, (acc ++ items)%list)
    /\ greedy_scan (skipn i words) items.
Proof.
  induction n as [|n IH]; intros i acc Hn; [lia|].
  destruct (skipn i words) as [|w1 r] eqn:E1.
  - apply skipn_nil_length in E1.
    exists i, []. split; [|constructor].
    rewrite while_stop, app_nil_r; [reflexivity|].
    unfold cond; simpl. apply Nat.ltb_ge. exact E1.
  - destruct (word_at_skipn _ _ _ E1) as (_ & _ & L1).
    rewrite while_turn by (unfold cond; simpl; apply Nat.ltb_lt; exact L1).
    rewrite (gloss_step_remaining i acc w1 r E1).
    assert (Next : forall k it,
      (0 < k)%nat ->
      (forall items, greedy_scan (skipn k (w1 :: r)) items ->
                     greedy_scan (w1 :: r) (it :: items)) ->
      exists j items,
        while n cond (gloss_step wordAnimations letters words)
          ((i + k)%nat, (acc ++ [it])%list) = Some (j, (acc ++ items)%list)
        /\ greedy_scan (w1 :: r) items).
    { intros k it Hk Hs.
      destruct (IH (i + k)%nat (acc ++ [it])%list) as (j & items & Hw & Hg); [lia|].
      exists j, (it :: items). split.
      - rewrite Hw. now rewrite <- app_assoc.
      - apply Hs. now rewrite skipn_add, E1 in Hg. }
    destruct r as [|w2 [|w3 r3]];
      repeat match goal with
             | |- context [if matches ?p then _ else _] =>
                 destruct (matches p) eqn:?
             end;
      (apply Next; [lia | simpl; intros items Hg]);
      first [ now apply scan_three
            | now apply scan_two
            | now apply scan_one
            | now apply scan_spell ].
Qed.

(** The resolver returns, and what it returns is a greedy scan of the word
    list. *)
Lemma gloss_words_scan :
  exists items,
    gloss_words wordAnimations letters words = Some items
    /\ greedy_scan words items.
Proof.
  destruct (gloss_loop_scan (S (List.length words)) 0%nat []) as (j & items & Hw & Hg);
    [lia|].
  exists items. split; [|exact Hg].
  unfold gloss_words. fold cond. rewrite Hw. reflexivity.
Qed.

End GlossResolver.

(** *** What the strip keeps *)

Definition kept (c : ascii) : bool :=
  JsString.is_lower c || JsString.is_space c.

Lemma chars_app a b :
  JsString.chars (a ++ b) = (JsString.chars a ++ JsString.chars b)%list.
Proof.
  unfold JsString.chars. induction a as [|c a IH]; simpl; [reflexivity|].
  now rewrite IH.
Qed.

Lemma chars_filter p s :
  JsString.chars (JsString.filter p s) = List.filter p (JsString.chars s).
Proof.
  unfold JsString.chars. induction s as [|c s IH]; simpl; [reflexivity|].
  destruct (p c); simpl; now rewrite IH.
Qed.

Lemma chars_map f s :
  JsString.chars (JsString.map f s) = List.map f (JsString.chars s).
Proof.
  unfold JsString.chars. induction s as [|c s IH]; simpl; [reflexivity|].
  now rewrite IH.
Qed.

(** *** Texts beyond U+00FF *)

(** Tests on code units, read as arithmetic. *)
Ltac unit_tests :=
  unfold Utf16.letter_source, Utf16.is_space, Utf16.is_lower, Utf16.is_upper in *;
  rewrite ?orb_true_iff, ?orb_false_iff, ?andb_true_iff, ?andb_false_iff,
    ?negb_true_iff, ?negb_false_iff, ?N.leb_le, ?N.leb_gt, ?N.eqb_eq,
    ?N.eqb_neq in *;
  lia.

Section WideTexts.
Import SignPoses Utf16.

Lemma upper_lowered u :
  is_upper u = true ->
  is_lower (u + 32) = true /\ is_lower u = false /\ is_space u = false.
Proof. intros U. repeat split; unit_tests. Qed.

Lemma lower_not_others u :
  is_lower u = true -> is_upper u = false /\ is_space u = false.
Proof. intros L. split; unit_tests. Qed.

Lemma space_not_letter u :
  is_space u = true -> is_upper u = false /\ is_lower u = false.
Proof. intros S. split; unit_tests. Qed.

(** White space only gives no word. *)
Lemma wide_split_spaces s :
  forallb is_space s = true ->
  forall cur in_run,
    List.filter truthy (split_ws s cur in_run) = List.filter truthy [cur].
Proof.
  induction s as [|u s IH]; intros A cur in_run; [reflexivity|].
  cbn [forallb] in A. apply andb_true_iff in A as [Su A].
  cbn [split_ws]. rewrite Su. destruct in_run.
  - now apply IH.
  - cbn [List.filter]. rewrite (IH A [] true). cbn.
    now destruct (truthy cur).
Qed.

(** The code units of the pieces of a split, in order, are those of the
    text that are no white space. *)
Lemma wide_split_units s : forall cur in_run,
  List.concat (split_ws s cur in_run)
  = (cur ++ List.filter (fun u => negb (is_space u)) s)%list.
Proof.
  induction s as [|u s IH]; intros cur in_run; cbn [split_ws List.filter].
  - cbn. now rewrite app_nil_r.
  - destruct (is_space u); cbn [negb].
    + destruct in_run; [apply IH|]. cbn [List.concat]. now rewrite IH.
    + rewrite IH, <- app_assoc. reflexivity.
Qed.

Lemma wide_concat_truthy l : List.concat (List.filter truthy l) = List.concat l.
Proof.
  induction l as [|w l IH]; [reflexivity|].
  destruct w as [|u w]; cbn; [exact IH | now rewrite IH].
Qed.

(** A piece of a split holds code units of the text, or of the piece that
    was being read. *)
Lemma wide_split_pieces s : forall cur in_run w,
  In w (split_ws s cur in_run) ->
  forall u, In u w -> In u cur \/ (In u s /\ is_space u = false).
Proof.
  induction s as [|x s IH]; intros cur in_run w I u U; cbn [split_ws] in I.
  - destruct I as [<- | []]. now left.
  - destruct (is_space x) eqn:Sp.
    + destruct in_run.
      * destruct (IH _ _ _ I u U) as [C | [C1 C2]]; [now left|].
        right. split; [now right | exact C2].
      * destruct I as [<- | I]; [now left|].
        destruct (IH _ _ _ I u U) as [[] | [C1 C2]].
        right. split; [now right | exact C2].
    + destruct (IH _ _ _ I u U) as [C | [C1 C2]].
      * apply in_app_or in C as [C | [<- | []]]; [now left|].
        right. split; [now left | exact Sp].
      * right. split; [now right | exact C2].
Qed.

Lemma of_to_string w :
  Forall (fun u => (u < 256)%N) w -> of_string (to_string w) = w.
Proof.
  unfold of_string, to_string, JsString.chars, JsString.code.
  rewrite list_ascii_of_string_of_list_ascii.
  induction 1 as [|u w B _ IH]; [reflexivity|].
  cbn [List.map]. rewrite IH. f_equal. now apply N_ascii_embedding.
Qed.

Lemma to_of_string s : to_string (of_string s) = s.
Proof.
  unfold of_string, to_string, JsString.chars, JsString.code.
  rewrite map_map.
  rewrite (map_ext _ (fun c => c)) by (intros c; apply ascii_N_embedding).
  rewrite map_id. apply string_of_list_ascii_of_string.
Qed.

Section Lowered.
Variable toLowerCase : list N -> list N.
Hypothesis lowering : Lowercasing toLowerCase.

(** What the strip leaves of the lower-cased text. *)
Lemma wide_stripped text :
  List.filter (fun u => is_lower u || is_space u) (toLowerCase text)
  = flat_map lower_kept text.
Proof. apply (lowered_kept lowering). Qed.

Lemma lower_kept_units u x :
  In x (lower_kept u) -> is_lower x = true \/ is_space x = true.
Proof.
  unfold lower_kept.
  destruct (is_upper u) eqn:U.
  - intros [<- | []]. left. now apply upper_lowered.
  - destruct (is_lower u || is_space u) eqn:K.
    + intros [<- | []]. now apply orb_true_iff.
    + destruct (u =? 0x212A)%N; [intros [<- | []]; now left|].
      destruct (u =? 0x130)%N; [intros [<- | []]; now left|].
      intros [].
Qed.

(** Every word of the normalised text is a non-empty string of [a-z],
    whatever [toLowerCase] returns: the strip sees to it. *)
Lemma wide_normalize_words text w :
  In w (normalize toLowerCase text) ->
  exists units,
    w = to_string units /\ units <> []
    /\ Forall (fun u => is_lower u = true) units.
Proof.
  unfold normalize. intros I.
  apply in_map_iff in I as (units & <- & I).
  apply filter_In in I as [I T]. exists units.
  split; [reflexivity|]. split; [now destruct units|].
  apply Forall_forall. intros u U.
  destruct (wide_split_pieces _ _ _ _ I u U) as [[] | [C1 C2]].
  apply filter_In in C1 as [_ K]. rewrite C2, orb_false_r in K. exact K.
Qed.

(** A text with no letter source leaves white space only. *)
Lemma no_source_spaces text :
  Forall (fun u => letter_source u = false) text ->
  forallb is_space (flat_map lower_kept text) = true.
Proof.
  induction 1 as [|u text Su _ IH]; [reflexivity|].
  cbn [flat_map]. rewrite forallb_app, IH, andb_true_r.
  unfold lower_kept.
  assert (U : is_upper u = false) by unit_tests.
  assert (L : is_lower u = false) by unit_tests.
  assert (K : (u =? 0x212A)%N = false) by unit_tests.
  assert (I : (u =? 0x130)%N = false) by unit_tests.
  rewrite U, L, K, I. cbn [orb].
  destruct (is_space u) eqn:S; cbn; [now rewrite S | reflexivity].
Qed.

Lemma wide_normalize_no_source text :
  Forall (fun u => letter_source u = false) text ->
  normalize toLowerCase text = [].
Proof.
  intros F. unfold normalize. rewrite wide_stripped.
  now rewrite (wide_split_spaces _ (no_source_spaces _ F)).
Qed.

(** The Kelvin sign is read as the word ["k"]. *)
Lemma wide_normalize_kelvin : normalize toLowerCase [0x212A%N] = ["k"].
Proof. unfold normalize. rewrite wide_stripped. reflexivity. Qed.

(** The letters of the normalised words, in order. *)
Lemma wide_normalize_letters text :
  flat_map of_string (normalize toLowerCase text)
  = List.filter is_lower (flat_map lower_kept text).
Proof.
  assert (P : forall l,
             Forall (Forall (fun u => (u < 256)%N)) l ->
             flat_map of_string (List.map to_string l) = List.concat l).
  { induction 1 as [|w l B _ IH]; [reflexivity|].
    cbn [List.map flat_map List.concat]. now rewrite IH, of_to_string. }
  unfold normalize. rewrite wide_stripped, P.
  - rewrite wide_concat_truthy, wide_split_units. cbn [app].
    apply filter_ext_in. intros x X.
    apply in_flat_map in X as (u & _ & X).
    destruct (lower_kept_units _ _ X) as [L | S].
    + rewrite L. now rewrite (proj2 (lower_not_others x L)).
    + rewrite S. now rewrite (proj2 (space_not_letter x S)).
  - apply Forall_forall. intros w W. apply filter_In in W as [W _].
    apply Forall_forall. intros x X.
    destruct (wide_split_pieces _ _ _ _ W x X) as [[] | [C1 C2]].
    apply in_flat_map in C1 as (u & _ & C1).
    destruct (lower_kept_units _ _ C1) as [L | S]; [|congruence].
    unit_tests.
Qed.

(** The characters of spell mode. *)
Lemma wide_spellChars_letters text :
  spellChars toLowerCase text
  = List.map lower_ascii
      (List.filter (fun u => is_lower u || is_upper u || is_space u) text).
Proof.
  unfold spellChars. apply (lowered_letters lowering).
  apply Forall_forall. intros u U. now apply filter_In in U as [_ U].
Qed.

Lemma wide_spellChars_units text :
  Forall (fun u => is_lower u = true \/ is_space u = true)
    (spellChars toLowerCase text).
Proof.
  rewrite wide_spellChars_letters. apply Forall_forall. intros x X.
  apply in_map_iff in X as (u & <- & U). apply filter_In in U as [_ U].
  unfold lower_ascii. destruct (is_upper u) eqn:Up.
  - left. now apply upper_lowered.
  - rewrite orb_false_r in U. now apply orb_true_iff.
Qed.

(** Apart from the Kelvin sign and the dotted capital I, spell mode and
    the resolver read the same letters. *)
Lemma spell_and_gloss_letters text :
  Forall (fun u => (u =? 0x212A)%N || (u =? 0x130)%N = false) text ->
  List.filter is_lower (spellChars toLowerCase text)
  = flat_map of_string (normalize toLowerCase text).
Proof.
  intros F. rewrite wide_normalize_letters, wide_spellChars_letters.
  induction F as [|u text Su _ IH]; [reflexivity|].
  cbn [flat_map]. rewrite filter_app, <- IH.
  apply orb_false_iff in Su as [K I].
  cbn [List.filter]. unfold lower_kept. rewrite K, I.
  destruct (is_upper u) eqn:Up.
  - destruct (upper_lowered u Up) as (L' & L & S).
    rewrite L, orb_true_r. cbn [orb List.map List.filter app].
    unfold lower_ascii at 1 2. rewrite Up, L'. reflexivity.
  - rewrite orb_false_r. destruct (is_lower u) eqn:L.
    + cbn [orb List.map List.filter app].
      unfold lower_ascii at 1 2. rewrite Up, L. reflexivity.
    + cbn [orb]. destruct (is_space u) eqn:S.
      * cbn [List.map List.filter app].
        unfold lower_ascii at 1. rewrite Up, L. reflexivity.
      * reflexivity.
Qed.

Lemma wide_spellChars_kelvin : spellChars toLowerCase [0x212A%N] = [].
Proof. now rewrite wide_spellChars_letters. Qed.

(** *** On U+0000..U+00FF the two readings agree *)

Lemma is_space_code c : is_space (JsString.code c) = JsString.is_space c.
Proof. destruct c as [[] [] [] [] [] [] [] []]; reflexivity. Qed.

Lemma of_string_app a b :
  of_string (a ++ b) = (of_string a ++ of_string b)%list.
Proof. unfold of_string. now rewrite chars_app, map_app. Qed.

Lemma of_string_filter p q s :
  (forall c, p (JsString.code c) = q c) ->
  List.filter p (of_string s) = of_string (JsString.filter q s).
Proof.
  intros E. unfold of_string. rewrite chars_filter.
  induction (JsString.chars s) as [|c l IH]; [reflexivity|].
  cbn [List.map List.filter]. rewrite E.
  destruct (q c); cbn [List.map]; now rewrite IH.
Qed.

Lemma split_ws_of_string s : forall cur in_run,
  split_ws (of_string s) (of_string cur) in_run
  = List.map of_string (JsString.split_ws s cur in_run).
Proof.
  induction s as [|c s IH]; intros cur in_run; [reflexivity|].
  change (of_string (String c s)) with (JsString.code c :: of_string s).
  cbn [split_ws JsString.split_ws]. rewrite is_space_code.
  destruct (JsString.is_space c).
  - destruct in_run; [apply IH|]. cbn [List.map]. f_equal.
    apply (IH EmptyString true).
  - rewrite <- IH, of_string_app. reflexivity.
Qed.

Lemma truthy_of_string l :
  List.filter truthy (List.map of_string l)
  = List.map of_string (List.filter JsString.truthy l).
Proof.
  induction l as [|w l IH]; [reflexivity|].
  destruct w as [|c w]; cbn; now rewrite IH.
Qed.

Lemma normalize_of_string (s : string) :
  normalize toLowerCase (of_string s) = SignPoses.normalize s.
Proof.
  unfold normalize, SignPoses.normalize, JsString.split_spaces.
  rewrite (lowered_latin1 lowering).
  rewrite (of_string_filter _
             (fun c => JsString.is_lower c || JsString.is_space c))
    by (intros c; now rewrite is_space_code).
  rewrite (split_ws_of_string _ EmptyString false), truthy_of_string.
  rewrite map_map, (map_ext _ (fun w => w)) by apply to_of_string.
  apply map_id.
Qed.

Lemma spellChars_of_string (s : string) :
  spellChars toLowerCase (of_string s)
  = List.map JsString.code (Playback.spellChars_of s).
Proof.
  unfold spellChars, Playback.spellChars_of.
  rewrite (of_string_filter _
             (fun c => JsString.is_lower c || JsString.is_upper c
                       || JsString.is_space c))
    by (intros c; now rewrite is_space_code).
  now rewrite (lowered_latin1 lowering).
Qed.

End Lowered.
(** [toLowerCase_basic] has the three properties. *)
Lemma basic_lowercasing : Lowercasing toLowerCase_basic.
Proof.
  split.
  - intros s. unfold toLowerCase_basic.
    induction s as [|u s IH]; [reflexivity|].
    cbn [flat_map]. rewrite filter_app, IH. f_equal.
    unfold lower_unit, lower_kept.
    destruct (is_upper u) eqn:Up.
    + cbn [orb List.filter]. now rewrite (proj1 (upper_lowered u Up)).
    + cbn [orb].
      destruct ((192 <=? u) && (u <=? 222) && negb (u =? 215))%N eqn:L1.
      * assert (E : is_lower u || is_space u = false) by unit_tests.
        assert (K : (u =? 0x212A)%N = false) by unit_tests.
        assert (I : (u =? 0x130)%N = false) by unit_tests.
        assert (E' : is_lower (u + 32) || is_space (u + 32) = false)
          by unit_tests.
        rewrite E, K, I. cbn [List.filter]. now rewrite E'.
      * destruct (u =? 0x212A)%N eqn:K.
        { apply N.eqb_eq in K. subst u. reflexivity. }
        destruct (u =? 0x130)%N eqn:I.
        { apply N.eqb_eq in I. subst u. reflexivity. }
        cbn [List.filter]. now destruct (is_lower u || is_space u).
  - intros s F. unfold toLowerCase_basic.
    induction F as [|u s Fu _ IH]; [reflexivity|].
    cbn [flat_map List.map]. rewrite IH.
    unfold lower_unit, lower_ascii.
    destruct (is_upper u) eqn:Up; [reflexivity|]. cbn [orb].
    assert (L1 : ((192 <=? u) && (u <=? 222) && negb (u =? 215))%N = false)
      by unit_tests.
    assert (K : (u =? 0x212A)%N = false) by unit_tests.
    assert (I : (u =? 0x130)%N = false) by unit_tests.
    now rewrite L1, K, I.
  - intros s. unfold toLowerCase_basic, of_string, JsString.toLowerCase.
    rewrite chars_map.
    induction (JsString.chars s) as [|c l IH]; [reflexivity|].
    cbn [List.map flat_map]. rewrite IH. f_equal.
    destruct c as [[] [] [] [] [] [] [] []]; reflexivity.
Qed.

End WideTexts.

(** *** The claims on the resolver *)

Section Resolver.
Import SignPoses.
Context {num : Type} `{JsNumber num}.

(** C2.  [textToSignGloss] returns a greedy left-to-right scan of the
    normalised word list: at each position the three-word window is tried
    against the word table of the mode, then the two-word window, then the
    single word, and only then is the word fingerspelled.  On
    ["thank you very much"] in ASL it yields the word sign of
    ["thank you"], then the fingerspelled ["very"] and ["much"]. *)
Theorem textToSignGloss_greedy :
  (forall text mode,
     exists items,
       textToSignGloss text mode = Some items
       /\ greedy_scan (getWordAnimations mode) (getLetterPoses mode)
            (normalize text) items)
  /\ (exists thank_you,
        JsObject.get ASL_WORD_ANIMATIONS "thank you" = JsObject.Own thank_you
        /\ name thank_you = "THANK YOU"
        /\ JsObject.get ASL_WORD_ANIMATIONS "thank" = JsObject.Undefined
        /\ textToSignGloss "thank you very much" asl
           = Some [ {| gloss_type := word; value := "THANK YOU";
                       animation := Some (TableAnimation thank_you);
                       letterPoses := None |};
                    fingerspell_item ASL_LETTER_POSES "very";
                    fingerspell_item ASL_LETTER_POSES "much" ]
        /\ value (fingerspell_item (num := num) ASL_LETTER_POSES "very") = "VERY"
        /\ value (fingerspell_item (num := num) ASL_LETTER_POSES "much") = "MUCH").
Proof.
  split.
  - intros text mode. apply gloss_words_scan.
  - eexists. repeat split; vm_compute; reflexivity.
Qed.

(** C3.  [textToSignGloss] returns a list for every text and either mode:
    for a text of U+0000..U+00FF, and for a text of any code units whatever
    [toLowerCase] makes of it.  With the lower-casing of Unicode the list
    is empty for every text none of whose code units is a letter of [A-Z]
    or [a-z], the Kelvin sign U+212A or the dotted capital I U+0130: the
    empty text, white space, digits, punctuation of any script.  The two
    exceptions lower-case to [k] and to [i]: the Kelvin sign alone is read
    as the word [k] and gives one item.  On U+0000..U+00FF both readings
    of the resolver agree. *)
Theorem textToSignGloss_total :
  (forall text mode, exists items, textToSignGloss text mode = Some items)
  /\ (forall toLowerCase text mode,
        exists items,
          Utf16.textToSignGloss toLowerCase text mode = Some items)
  /\ (forall toLowerCase,
        Utf16.Lowercasing toLowerCase ->
        (forall text mode,
           Forall (fun u => Utf16.letter_source u = false) text ->
           Utf16.textToSignGloss toLowerCase text mode = Some [])
        /\ (forall (text : string) mode,
              Utf16.textToSignGloss toLowerCase (Utf16.of_string text) mode
              = textToSignGloss text mode)
        /\ (forall mode,
              exists item,
                Utf16.textToSignGloss toLowerCase [0x212A%N] mode
                = Some [item]
                /\ gloss_type item = fingerspell /\ value item = "K")).
Proof.
  split; [|split].
  - intros text mode.
    destruct (gloss_words_scan (getWordAnimations mode) (getLetterPoses mode)
                (normalize text)) as (items & E & _).
    now exists items.
  - intros toLowerCase text mode.
    destruct (gloss_words_scan (getWordAnimations mode) (getLetterPoses mode)
                (Utf16.normalize toLowerCase text)) as (items & E & _).
    now exists items.
  - intros toLowerCase L. split; [|split].
    + intros text mode F. unfold Utf16.textToSignGloss.
      now rewrite (wide_normalize_no_source toLowerCase L text F).
    + intros text mode. unfold Utf16.textToSignGloss, textToSignGloss.
      now rewrite (normalize_of_string toLowerCase L).
    + intros mode. unfold Utf16.textToSignGloss.
      rewrite (wide_normalize_kelvin toLowerCase L).
      destruct mode; eexists; (split; [vm_compute; reflexivity|]);
        split; reflexivity.
Qed.

(** What every item of a greedy scan is made of. *)
Definition item_from (wordAnimations : JsObject.t (SignAnimation num))
    (letters : JsObject.t (HandPose num)) (it : SignGlossItem num) : Prop :=
  (exists phrase,
     it = word_item phrase (JsObject.get wordAnimations phrase)
     /\ JsObject.truthy (JsObject.get wordAnimations phrase) = true)
  \/ (exists w, it = fingerspell_item letters w).

Lemma greedy_scan_items wordAnimations letters ws items :
  greedy_scan wordAnimations letters ws items ->
  Forall (item_from wordAnimations letters) items.
Proof.
  induction 1; constructor; trivial;
    solve [ left; eexists; split; [reflexivity | assumption]
          | right; eexists; reflexivity ].
Qed.

(** The poses of a fingerspelled word are entries of the letter table, at
    most one per character. *)
Lemma spell_from_table (letters : JsObject.t (HandPose num)) w :
  (List.length (spell letters w) <= String.length w)%nat
  /\ Forall (fun p => exists c, JsObject.own letters (String c EmptyString) = Some p)
       (spell letters w).
Proof.
  unfold spell, JsString.chars.
  induction w as [|c w [IHl IHf]]; simpl; [split; [lia | constructor]|].
  destruct (JsObject.get letters (String c EmptyString)) as [p| |] eqn:G;
    simpl; try (split; [lia | exact IHf]).
  split; [lia|]. constructor; [|exact IHf].
  exists c. now apply TableFacts.get_own.
Qed.

(** A word item holds the value of the bracket read: an entry of the table,
    or a member of [Object.prototype] when the phrase is not a key. *)
Lemma word_item_animation (wordAnimations : JsObject.t (SignAnimation num)) phrase :
  JsObject.truthy (JsObject.get wordAnimations phrase) = true ->
  (exists a, JsObject.own wordAnimations phrase = Some a
             /\ animation (word_item phrase (JsObject.get wordAnimations phrase))
                = Some (TableAnimation a))
  \/ (JsObject.own wordAnimations phrase = None
      /\ In phrase JsObject.prototype_members
      /\ animation (word_item phrase (JsObject.get wordAnimations phrase))
         = Some (PrototypeMember phrase)).
Proof.
  unfold JsObject.get.
  destruct (JsObject.own wordAnimations phrase) as [a|].
  - intros _. left. now exists a.
  - destruct (existsb (String.eqb phrase) JsObject.prototype_members) eqn:E;
      [|discriminate].
    intros _. right.
    apply existsb_exists in E as (m & I & Em). apply String.eqb_eq in Em.
    subst m. auto.
Qed.

(** What holds of every item returned: it is a word item holding the value
    of the bracket read for a phrase the table matched, or the fingerspelling
    of a word; either way its [value] is the upper-cased phrase. *)
Lemma textToSignGloss_items text mode items :
  textToSignGloss text mode = Some items ->
  Forall (item_from (getWordAnimations mode) (getLetterPoses mode)) items
  /\ Forall
       (fun it =>
          exists phrase,
            value it = JsString.toUpperCase phrase
            /\ match gloss_type it with
               | word => animation it <> None /\ letterPoses it = None
               | fingerspell =>
                   animation it = None
                   /\ letterPoses it = Some (spell (getLetterPoses mode) phrase)
               end)
       items.
Proof.
  intros E.
  destruct (gloss_words_scan (getWordAnimations mode) (getLetterPoses mode)
              (normalize text)) as (items' & E' & G).
  unfold textToSignGloss in E. rewrite E' in E. injection E as <-.
  pose proof (greedy_scan_items _ _ _ _ G) as F. split; [exact F|].
  eapply Forall_impl; [|exact F]. intros it [(p & -> & M) | (w & ->)].
  - exists p. split; [reflexivity|]. cbn. split; [|reflexivity].
    destruct (JsObject.get (getWordAnimations mode) p); cbn in *;
      congruence.
  - exists w. now split.
Qed.

(** C10, at the input that breaks it.  The word ["constructor"] is no key
    of either word table, yet the bracket read finds
    [Object.prototype.constructor]: the resolver emits an item of type
    [word] whose [animation] is that inherited member and no animation of
    the table. *)
Theorem textToSignGloss_constructor :
  forall mode,
    JsObject.own (getWordAnimations mode) "constructor" = None
    /\ textToSignGloss "constructor" mode
       = Some [ {| gloss_type := word; value := "CONSTRUCTOR";
                   animation := Some (PrototypeMember "constructor");
                   letterPoses := None |} ].
Proof. intros []; split; vm_compute; reflexivity. Qed.

(** C9.  Every key of the ASL word table is a key of the ISL table; on the
    five keys the ISL literal writes again the ISL table holds its own
    animation, another one than ASL's; on every other key the two tables
    read alike. *)
Theorem isl_extends_asl :
  (forall k, In k (JsObject.keys ASL_WORD_ANIMATIONS) ->
             In k (JsObject.keys ISL_WORD_ANIMATIONS))
  /\ JsObject.keys ISL_OVERRIDES = ["hello"; "thank you"; "water"; "school"; "good"]
  /\ Forall
       (fun k =>
          exists a_isl a_asl,
            JsObject.own ISL_OVERRIDES k = Some a_isl
            /\ JsObject.get (getWordAnimations isl) k = JsObject.Own a_isl
            /\ JsObject.get (getWordAnimations asl) k = JsObject.Own a_asl
            /\ name a_isl <> name a_asl)
       ["hello"; "thank you"; "water"; "school"; "good"]
  /\ (forall k,
        ~ In k ["hello"; "thank you"; "water"; "school"; "good"] ->
        JsObject.get (getWordAnimations isl) k
        = JsObject.get (getWordAnimations asl) k).
Proof.
  split; [|split; [|split]].
  - intros k. apply TableFacts.keys_spread.
  - reflexivity.
  - repeat constructor;
      (eexists; eexists; repeat split;
       [vm_compute; reflexivity .. | vm_compute; discriminate]).
  - intros k N. apply TableFacts.get_own_eq.
    unfold getWordAnimations, ISL_WORD_ANIMATIONS.
    apply TableFacts.own_spread_other.
    now replace (JsObject.keys ISL_OVERRIDES)
      with ["hello"; "thank you"; "water"; "school"; "good"].
Qed.

End Resolver.

Section ResolverExamples.
Import SignPoses.

(** Curly quotes, marks, a space, digits and a dash; and the empty text. *)
Lemma textToSignGloss_total_witness :
  Utf16.textToSignGloss (num := float) Utf16.toLowerCase_basic
    [0x201C; 0x3F; 0x21; 0x20; 0x34; 0x32; 0x2014; 0x201D]%N isl = Some []
  /\ Utf16.textToSignGloss (num := float) Utf16.toLowerCase_basic [] asl
     = Some [].
Proof.
  destruct (proj2 (proj2 (textToSignGloss_total (num := float)))
              Utf16.toLowerCase_basic basic_lowercasing) as (A & _).
  split; apply A; repeat constructor.
Defined.

Lemma isl_extends_asl_witness :
  In "love" (JsObject.keys (ISL_WORD_ANIMATIONS (num := float)))
  /\ JsObject.get (getWordAnimations (num := float) isl) "love"
     = JsObject.get (getWordAnimations (num := float) asl) "love".
Proof.
  destruct (isl_extends_asl (num := float)) as (K & _ & _ & O). split.
  - apply K. vm_compute. tauto.
  - apply O. vm_compute. intuition discriminate.
Defined.

End ResolverExamples.

(** ** Interpolation of poses *)

Module FloatFacts.
Open Scope float_scope.

Definition is_real (x : spec_float) : Prop :=
  match x with
  | S754_zero _ | S754_finite _ _ _ => True
  | _ => False
  end.

Lemma finite_is_real x : is_finite x = true -> is_real (Prim2SF x).
Proof.
  unfold is_finite, is_nan, is_infinity.
  rewrite !FloatAxioms.eqb_spec, FloatAxioms.abs_spec.
  change (Prim2SF infinity) with (S754_infinity false).
  destruct (Prim2SF x) as [s|[|]| |s m e]; simpl; trivial;
    vm_compute; intros D; discriminate D.
Qed.

Lemma SFeqb_refl x : is_real x -> SFeqb x x = true.
Proof.
  destruct x as [s|s| |s m e]; simpl; try tauto. intros _.
  unfold SFeqb, SFcompare.
  rewrite Z.compare_refl, Pos.compare_cont_refl. now destruct s.
Qed.

(** [x * 0] is a zero and [a + 0] is [a], up to the sign of a zero. *)
Lemma add_mul_zero a d :
  is_finite a = true -> is_finite d = true -> (a + d * 0 =? a) = true.
Proof.
  intros Fa Fd. apply finite_is_real in Fa, Fd.
  rewrite FloatAxioms.eqb_spec, FloatAxioms.add_spec, FloatAxioms.mul_spec.
  change (Prim2SF 0) with (S754_zero false).
  destruct (Prim2SF d) as [sd|sd| |sd md ed]; try contradiction;
    destruct (Prim2SF a) as [sa|sa| |sa ma ea] eqn:Ea; try contradiction;
    unfold SF64add, SF64mul, SFmul, SFadd; simpl;
    try (destruct sa, sd; reflexivity);
    apply SFeqb_refl; exact I.
Qed.

Lemma digits_shift m :
  Zpos (digits2_pos (4503599627370496 * m)) = (Zpos (digits2_pos m) + 52)%Z.
Proof. cbn [Pos.mul digits2_pos]. rewrite !Pos2Z.inj_succ. lia. Qed.

(** Rounding the product of a canonical mantissa with the mantissa of [1]
    shifts it back unchanged. *)
Lemma round_times_one s m e :
  bounded prec emax m e = true ->
  binary_round_aux prec emax (xorb s false)
    (Zpos (m * 4503599627370496)) (e + -52) loc_Exact
  = S754_finite s m e.
Proof.
  unfold bounded, canonical_mantissa. intros B.
  apply andb_true_iff in B as [C L]. apply Z.eqb_eq in C.
  rewrite Pos.mul_comm.
  unfold binary_round_aux, shr_fexp. cbn [Zdigits2].
  rewrite digits_shift.
  replace (Zpos (digits2_pos m) + 52 + (e + -52))%Z
    with (Zpos (digits2_pos m) + e)%Z by lia.
  rewrite C. replace (e - (e + -52))%Z with 52%Z by lia.
  cbn [shr shr_record_of_loc iter_pos Pos.mul shr_1 orb shr_m
       loc_of_shr_record round_nearest_even].
  replace (e + -52 + 52)%Z with e by lia.
  cbn [Zdigits2]. rewrite C, Z.sub_diag. cbn [shr shr_record_of_loc shr_m].
  rewrite L. now rewrite xorb_false_r.
Qed.

(** Multiplying a double by [1] is exact. *)
Lemma mul_one x : x * 1 = x.
Proof.
  apply Prim2SF_inj. rewrite FloatAxioms.mul_spec.
  change (Prim2SF 1) with (S754_finite false 4503599627370496 (-52)).
  pose proof (Prim2SF_valid x) as V.
  destruct (Prim2SF x) as [s|s| |s m e]; unfold SF64mul, SFmul;
    [now destruct s | now destruct s | reflexivity |].
  now apply round_times_one.
Qed.

End FloatFacts.

(** Signs of sums, products and quotients of doubles, read off the
    specification of the operations. *)

Module FloatSign.
Open Scope Z_scope.

(** Zero, a positive double or plus infinity. *)
Definition nonneg (x : spec_float) : Prop :=
  match x with
  | S754_zero false | S754_finite false _ _ | S754_infinity false => True
  | _ => False
  end.

Definition positive_or_inf (x : spec_float) : Prop :=
  match x with
  | S754_finite false _ _ | S754_infinity false => True
  | _ => False
  end.

Definition negative (x : spec_float) : Prop :=
  match x with
  | S754_finite true _ _ | S754_infinity true => True
  | _ => False
  end.

Lemma iter_pos_keeps {A : Type} (P : A -> Prop) (f : A -> A) :
  (forall x, P x -> P (f x)) -> forall p x, P x -> P (iter_pos f p x).
Proof. intros Hf. induction p; simpl; auto. Qed.

Lemma shr_1_nonneg mrs : 0 <= shr_m mrs -> 0 <= shr_m (shr_1 mrs).
Proof.
  destruct mrs as [m r s]. destruct m as [|[p|p|]|[p|p|]]; simpl; lia.
Qed.

Lemma shr_fexp_nonneg m e l :
  0 <= m -> 0 <= shr_m (fst (shr_fexp prec emax m e l)).
Proof.
  intros M. unfold shr_fexp, shr.
  assert (0 <= shr_m (shr_record_of_loc m l)) by (now destruct l as [|[]]).
  destruct (fexp prec emax (Zdigits2 m + e) - e); simpl; trivial.
  now apply (iter_pos_keeps (fun x => 0 <= shr_m x) shr_1 shr_1_nonneg).
Qed.

Lemma round_nonneg m l : 0 <= m -> 0 <= round_nearest_even m l.
Proof. destruct l as [|[]]; simpl; try lia; destruct (Z.even m); lia. Qed.

(** Rounding a non-negative mantissa gives a zero, a finite value or an
    infinity of the sign asked for, never NaN. *)
Lemma round_sign s m e l :
  0 <= m ->
  match binary_round_aux prec emax s m e l with
  | S754_zero s' | S754_infinity s' | S754_finite s' _ _ => s' = s
  | S754_nan => False
  end.
Proof.
  intros M. unfold binary_round_aux.
  pose proof (shr_fexp_nonneg m e l M) as M1.
  destruct (shr_fexp prec emax m e l) as [mrs' e'].
  pose proof (shr_fexp_nonneg _ e' loc_Exact
                (round_nonneg _ (loc_of_shr_record mrs') M1)) as M2.
  destruct (shr_fexp prec emax _ e' loc_Exact) as [mrs'' e''].
  simpl in M2. destruct (shr_m mrs''); [reflexivity | | lia].
  now destruct (e'' <=? emax - prec).
Qed.

Lemma round_nonneg_value m e l :
  0 <= m -> nonneg (binary_round_aux prec emax false m e l).
Proof.
  intros M. pose proof (round_sign false m e l M) as R.
  destruct (binary_round_aux prec emax false m e l); subst; simpl; tauto.
Qed.

Lemma add_nonneg x y : nonneg x -> nonneg y -> nonneg (SF64add x y).
Proof.
  destruct x as [[|]|[|]| |[|] mx ex]; try contradiction;
    destruct y as [[|]|[|]| |[|] my ey]; try contradiction; intros _ _;
    try exact I.
  unfold SF64add, SFadd, binary_normalize, cond_Zopp. cbn [Z.add].
  unfold binary_round. destruct (shl_align _ _ _) as [mz ez].
  apply round_nonneg_value. lia.
Qed.

Lemma mul_nonneg x y :
  nonneg x -> (exists m e, y = S754_finite false m e) -> nonneg (SF64mul x y).
Proof.
  intros X (my & ey & ->).
  destruct x as [[|]|[|]| |[|] mx ex]; try contradiction; try exact I.
  unfold SF64mul, SFmul. cbn [xorb]. apply round_nonneg_value. lia.
Qed.

Lemma div_nonneg x y :
  nonneg x -> positive_or_inf y ->
  (exists m e, x = S754_finite false m e) \/ (exists m e, y = S754_finite false m e) ->
  nonneg (SF64div x y).
Proof.
  intros X Y F.
  destruct x as [[|]|[|]| |[|] mx ex]; try contradiction;
    destruct y as [[|]|[|]| |[|] my ey]; try contradiction; try exact I.
  - destruct F as [(? & ? & [=]) | (? & ? & [=])].
  - unfold SF64div, SFdiv, SFdiv_core_binary. cbn [xorb].
    match goal with |- context [Z.div_eucl ?a ?b] =>
      pose proof (Z.div_pos a b) as Q; unfold Z.div in Q;
      destruct (Z.div_eucl a b) as [q r]
    end.
    apply round_nonneg_value. apply Q; [|lia].
    match goal with |- 0 <= match ?s with _ => _ end => destruct s eqn:S end;
      try lia.
    apply Z.shiftl_nonneg. lia.
Qed.

Lemma leb_nonneg_negative x t : nonneg x -> negative t -> SFleb x t = false.
Proof.
  destruct x as [[|]|[|]| |[|] mx ex]; try contradiction;
    destruct t as [[|]|[|]| |[|] mt et]; try contradiction; reflexivity.
Qed.

End FloatSign.

(** ** Order of doubles under addition

    Adding a double that is not negative never gives a smaller double:
    the sum is rounded at an exponent that is at least the one of the first
    operand, and what the shift drops is less than what was added. *)

Module FloatOrder.
Open Scope Z_scope.

Lemma fexp_spec z : fexp prec emax z = Z.max (z - 53) (-1074).
Proof. reflexivity. Qed.

Lemma digits_bounds p :
  2 ^ (Zpos (digits2_pos p) - 1) <= Zpos p < 2 ^ Zpos (digits2_pos p).
Proof.
  induction p as [p IH|p IH|]; cbn [digits2_pos].
  - rewrite Pos2Z.inj_succ, (Pos2Z.inj_xI p).
    replace (Z.succ (Zpos (digits2_pos p)) - 1)
      with (Z.succ (Zpos (digits2_pos p) - 1)) by lia.
    rewrite !Z.pow_succ_r by lia. lia.
  - rewrite Pos2Z.inj_succ, (Pos2Z.inj_xO p).
    replace (Z.succ (Zpos (digits2_pos p)) - 1)
      with (Z.succ (Zpos (digits2_pos p) - 1)) by lia.
    rewrite !Z.pow_succ_r by lia. lia.
  - cbn. lia.
Qed.

Lemma Zdigits_bounds q :
  0 < q -> 2 ^ (Zdigits2 q - 1) <= q < 2 ^ Zdigits2 q.
Proof. destruct q as [|p|p]; try lia. intros _. apply digits_bounds. Qed.

Lemma Zdigits_pos q : 0 < q -> 0 < Zdigits2 q.
Proof. destruct q; cbn; lia. Qed.

Lemma Zdigits_mono a b : 0 < a -> a <= b -> Zdigits2 a <= Zdigits2 b.
Proof.
  intros A L. pose proof (Zdigits_bounds a A) as Ba.
  pose proof (Zdigits_bounds b ltac:(lia)) as Bb.
  destruct (Z_le_gt_dec (Zdigits2 a) (Zdigits2 b)) as [|G]; [assumption|].
  exfalso.
  assert (2 ^ Zdigits2 b <= 2 ^ (Zdigits2 a - 1))
    by (apply Z.pow_le_mono_r; lia).
  lia.
Qed.

Lemma Zdigits_shift a k :
  0 < a -> 0 <= k -> Zdigits2 (a * 2 ^ k) = Zdigits2 a + k.
Proof.
  intros A K. pose proof (Zdigits_bounds a A) as Ba.
  pose proof (Zdigits_pos a A) as Pa.
  assert (P : 0 < 2 ^ k) by (apply Z.pow_pos_nonneg; lia).
  assert (Q : 0 < a * 2 ^ k) by nia.
  pose proof (Zdigits_bounds _ Q) as Bs.
  set (d := Zdigits2 (a * 2 ^ k)) in *.
  assert (E1 : 2 ^ (Zdigits2 a - 1 + k) = 2 ^ (Zdigits2 a - 1) * 2 ^ k)
    by (apply Z.pow_add_r; lia).
  assert (E2 : 2 ^ (Zdigits2 a + k) = 2 ^ Zdigits2 a * 2 ^ k)
    by (apply Z.pow_add_r; lia).
  destruct (Z.lt_trichotomy d (Zdigits2 a + k)) as [L | [E | G]]; [|exact E|].
  - exfalso.
    assert (2 ^ d <= 2 ^ (Zdigits2 a - 1 + k)) by (apply Z.pow_le_mono_r; lia).
    nia.
  - exfalso.
    assert (2 ^ (Zdigits2 a + k) <= 2 ^ (d - 1)) by (apply Z.pow_le_mono_r; lia).
    nia.
Qed.

Lemma shr_1_half mrs : 0 <= shr_m mrs -> shr_m (shr_1 mrs) = shr_m mrs / 2.
Proof.
  destruct mrs as [m r s]. destruct m as [|[p|p|]|p]; cbn [shr_m shr_1];
    intros M; try lia; try reflexivity.
  - apply Z.div_unique_pos with (r := 1); lia.
  - apply Z.div_unique_pos with (r := 0); lia.
Qed.

Lemma iter_shr_nonneg p mrs :
  0 <= shr_m mrs -> 0 <= shr_m (iter_pos shr_1 p mrs).
Proof.
  apply (FloatSign.iter_pos_keeps (fun x => 0 <= shr_m x) shr_1
           FloatSign.shr_1_nonneg).
Qed.

Lemma iter_shr_div p : forall mrs,
  0 <= shr_m mrs -> shr_m (iter_pos shr_1 p mrs) = shr_m mrs / 2 ^ Zpos p.
Proof.
  induction p as [p IH|p IH|]; intros mrs M; cbn [iter_pos].
  - rewrite IH, IH, shr_1_half; trivial;
      [|now apply FloatSign.shr_1_nonneg
       |apply iter_shr_nonneg; now apply FloatSign.shr_1_nonneg].
    assert (P : 0 < 2 ^ Zpos p) by (apply Z.pow_pos_nonneg; lia).
    rewrite !Z.div_div by lia. f_equal.
    rewrite (Pos2Z.inj_xI p).
    replace (2 * Zpos p + 1) with (1 + Zpos p + Zpos p) by lia.
    rewrite !Z.pow_add_r by lia. lia.
  - rewrite IH, IH; trivial; [|now apply iter_shr_nonneg].
    assert (P : 0 < 2 ^ Zpos p) by (apply Z.pow_pos_nonneg; lia).
    rewrite !Z.div_div by lia. f_equal.
    rewrite (Pos2Z.inj_xO p).
    replace (2 * Zpos p) with (Zpos p + Zpos p) by lia.
    rewrite !Z.pow_add_r by lia. lia.
  - now rewrite shr_1_half.
Qed.

(** One shift to the exponent the format wants: the exponent reached and
    the mantissa left. *)
Lemma shift_stage q e l :
  0 < q -> -1074 <= e ->
  snd (shr_fexp prec emax q e l)
  = e + Z.max 0 (fexp prec emax (Zdigits2 q + e) - e)
  /\ shr_m (fst (shr_fexp prec emax q e l))
     = q / 2 ^ Z.max 0 (fexp prec emax (Zdigits2 q + e) - e)
  /\ 0 < shr_m (fst (shr_fexp prec emax q e l)).
Proof.
  intros Q E. unfold shr_fexp, shr.
  assert (R : shr_m (shr_record_of_loc q l) = q) by (now destruct l as [|[]]).
  pose proof (Zdigits_bounds q Q) as B.
  rewrite fexp_spec in *.
  destruct (Z.max (Zdigits2 q + e - 53) (-1074) - e) as [|p|p] eqn:K;
    cbn [fst snd].
  - rewrite Z.max_id. cbn. rewrite Z.div_1_r, R. lia.
  - replace (Z.max 0 (Zpos p)) with (Zpos p) by lia.
    rewrite iter_shr_div by (rewrite R; lia). rewrite R.
    split; [reflexivity|]. split; [reflexivity|].
    apply Z.div_str_pos. split; [apply Z.pow_pos_nonneg; lia|].
    assert (2 ^ Zpos p <= 2 ^ (Zdigits2 q - 1))
      by (apply Z.pow_le_mono_r; lia).
    lia.
  - replace (Z.max 0 (Zneg p)) with 0 by lia.
    cbn. rewrite Z.div_1_r, R. lia.
Qed.

Lemma round_bounds m l :
  m <= round_nearest_even m l <= m + 1.
Proof. destruct l as [|[]]; cbn; try lia. destruct (Z.even m); lia. Qed.

Lemma iter_xO_value m p : Zpos (Pos.iter xO m p) = Zpos m * 2 ^ Zpos p.
Proof.
  induction p as [|p IH] using Pos.peano_ind.
  - cbn. lia.
  - rewrite Pos.iter_succ, (Pos2Z.inj_xO (Pos.iter xO m p)), IH, Pos2Z.inj_succ, Z.pow_succ_r by lia.
    lia.
Qed.

Lemma shl_align_value m e e' :
  e' <= e -> Zpos (fst (shl_align m e e')) = Zpos m * 2 ^ (e - e').
Proof.
  intros L. unfold shl_align.
  destruct (e' - e) as [|p|p] eqn:K; cbn [fst]; try lia.
  - replace (e - e') with 0 by lia. cbn. lia.
  - rewrite iter_xO_value. f_equal. f_equal. lia.
Qed.

Lemma shl_align_same m e e' : e <= e' -> shl_align m e e' = (m, e).
Proof.
  intros L. unfold shl_align. destruct (e' - e) eqn:K; trivial; lia.
Qed.

Lemma canonical_exponent m e :
  bounded prec emax m e = true ->
  fexp prec emax (Zpos (digits2_pos m) + e) = e /\ -1074 <= e /\ e <= 971.
Proof.
  unfold bounded, canonical_mantissa. intros B.
  apply andb_true_iff in B as [C L]. apply Z.eqb_eq in C.
  apply Z.leb_le in L. split; [exact C|]. rewrite fexp_spec in C.
  change (emax - prec) with 971 in L. lia.
Qed.

(** The sum of two positive doubles is not below the first. *)
Lemma add_not_below mx ex md ed :
  bounded prec emax mx ex = true -> bounded prec emax md ed = true ->
  SFleb (S754_finite false mx ex)
    (SF64add (S754_finite false mx ex) (S754_finite false md ed)) = true.
Proof.
  intros Bx Bd.
  destruct (canonical_exponent _ _ Bx) as (Cx & Lx & Ux).
  destruct (canonical_exponent _ _ Bd) as (Cd & Ld & Ud).
  unfold SF64add, SFadd, binary_normalize, cond_Zopp.
  set (ez := Z.min ex ed).
  pose proof (shl_align_value mx ex ez ltac:(lia)) as Va.
  pose proof (shl_align_value md ed ez ltac:(lia)) as Vb.
  set (a := fst (shl_align mx ex ez)) in *.
  set (b := fst (shl_align md ed ez)) in *.
  cbn [Z.add]. unfold binary_round.
  assert (Pk : 0 < 2 ^ (ex - ez)) by (apply Z.pow_pos_nonneg; lia).
  assert (Da : Zdigits2 (Zpos a) = Zpos (digits2_pos mx) + (ex - ez)).
  { rewrite Va. apply (Zdigits_shift (Zpos mx)); lia. }
  assert (Ds : Zdigits2 (Zpos a) <= Zdigits2 (Zpos (a + b)))
    by (apply Zdigits_mono; lia).
  assert (Et : ex <= fexp prec emax (Zpos (digits2_pos (a + b)) + ez)).
  { cbn [Zdigits2] in Ds, Da. rewrite fexp_spec in *. lia. }
  rewrite shl_align_same by lia.
  unfold binary_round_aux.
  destruct (shift_stage (Zpos (a + b)) ez loc_Exact ltac:(lia) ltac:(lia))
    as (E1 & M1 & P1).
  destruct (shr_fexp prec emax (Zpos (a + b)) ez loc_Exact) as [mrs1 e1].
  cbn [fst snd] in E1, M1, P1.
  pose proof (round_bounds (shr_m mrs1) (loc_of_shr_record mrs1)) as R.
  set (m2 := round_nearest_even (shr_m mrs1) (loc_of_shr_record mrs1)) in *.
  cbn [Zdigits2] in E1, M1.
  assert (E1' : e1 = fexp prec emax (Zpos (digits2_pos (a + b)) + ez)) by lia.
  destruct (shift_stage m2 e1 loc_Exact ltac:(lia)
              ltac:(rewrite fexp_spec in *; lia))
    as (E2 & M2 & P2).
  destruct (shr_fexp prec emax m2 e1 loc_Exact) as [mrs2 e2].
  cbn [fst snd] in E2, M2, P2.
  destruct (shr_m mrs2) as [|m3|m3] eqn:K3; try lia.
  destruct (e2 <=? emax - prec); [|reflexivity].
  unfold SFleb, SFcompare.
  destruct (Z.compare_spec ex e2) as [Ee | Lt | Gt]; [|reflexivity|lia].
  (* same exponent: nothing was shifted away beyond the first operand *)
  change (Pos.compare_cont Eq mx m3) with (mx ?= m3)%positive.
  destruct (Pos.compare_spec mx m3) as [|L|G]; try reflexivity. exfalso.
  assert (K2 : Z.max 0 (fexp prec emax (Zdigits2 m2 + e1) - e1) = 0) by lia.
  rewrite K2 in M2. cbn in M2. rewrite Z.div_1_r in M2.
  assert (e1 = ex) by lia.
  assert (K1 : Z.max 0 (fexp prec emax (Zpos (digits2_pos (a + b)) + ez) - ez)
               = ex - ez) by lia.
  rewrite K1 in M1.
  assert (Zpos mx <= shr_m mrs1).
  { rewrite M1. apply Z.div_le_lower_bound; [lia|].
    rewrite Pos2Z.inj_add, Va. lia. }
  lia.
Qed.

Lemma leb_refl x : FloatSign.nonneg x -> SFleb x x = true.
Proof.
  destruct x as [[|]|[|]| |[|] m e]; try contradiction; intros _;
    try reflexivity.
  unfold SFleb, SFcompare. now rewrite Z.compare_refl, Pos.compare_cont_refl.
Qed.

Lemma leb_finite m1 e1 m2 e2 :
  SFleb (S754_finite false m1 e1) (S754_finite false m2 e2) = true
  <-> e1 < e2 \/ (e1 = e2 /\ (m1 <= m2)%positive).
Proof.
  unfold SFleb, SFcompare.
  change (Pos.compare_cont Eq m1 m2) with (m1 ?= m2)%positive.
  destruct (Z.compare_spec e1 e2) as [E|L|G];
    [destruct (Pos.compare_spec m1 m2) as [E'|L'|G']| |];
    split; intros T; try reflexivity; try discriminate T; lia.
Qed.

Lemma leb_trans x y z :
  FloatSign.nonneg x -> FloatSign.nonneg y -> FloatSign.nonneg z ->
  SFleb x y = true -> SFleb y z = true -> SFleb x z = true.
Proof.
  destruct x as [[|]|[|]| |[|] m1 e1]; try contradiction;
    destruct y as [[|]|[|]| |[|] m2 e2]; try contradiction;
    destruct z as [[|]|[|]| |[|] m3 e3]; try contradiction;
    intros _ _ _; try reflexivity; try discriminate;
    try (intros T; discriminate T).
  rewrite !leb_finite. lia.
Qed.

(** Adding a double that is not negative does not go below. *)
Lemma add_above x d :
  valid_binary x = true -> valid_binary d = true ->
  FloatSign.nonneg x -> FloatSign.nonneg d ->
  SFleb x (SF64add x d) = true.
Proof.
  destruct x as [[|]|[|]| |[|] mx ex]; try contradiction;
    destruct d as [[|]|[|]| |[|] md ed]; try contradiction;
    intros Vx Vd _ _; try reflexivity.
  - apply (leb_refl (S754_finite false mx ex)). exact I.
  - now apply add_not_below.
Qed.

End FloatOrder.


Section Interpolation.
Import SignPoses.

Definition fields_eqb {num : Type} `{JsNumber num} (xs ys : list num) : bool :=
  (List.length xs =? List.length ys)%nat
  && forallb (fun xy => num_eqb (fst xy) (snd xy)) (combine xs ys).

(** [p] and [q] agree, by [===], on the four fields of every finger and on
    the wrist, a missing wrist read as zero. *)
Definition pose_eqb {num : Type} `{JsNumber num} (p q : HandPose num) : bool :=
  fields_eqb (pose_fields p) (pose_fields q).

Lemma interpolatePose_fields {num : Type} `{JsNumber num} (A B : HandPose num) t :
  pose_fields (interpolatePose A B t)
  = List.map (fun ab => lerp t (fst ab) (snd ab))
      (combine (pose_fields A) (pose_fields B)).
Proof. reflexivity. Qed.

Lemma pose_fields_length {num : Type} `{JsNumber num} (A : HandPose num) :
  List.length (pose_fields A) = 23%nat.
Proof. reflexivity. Qed.

(** A pose of doubles none of which is an infinity or NaN. *)
Definition finite_pose (A : HandPose float) : Prop :=
  Forall (fun x => PrimFloat.is_finite x = true) (pose_fields A).

(** No field of [B] is so far from the field of [A] that their difference
    overflows. *)
Definition finite_steps (A B : HandPose float) : Prop :=
  Forall (fun ab => PrimFloat.is_finite (PrimFloat.sub (snd ab) (fst ab)) = true)
    (combine (pose_fields A) (pose_fields B)).

Lemma lerp_zero_fields : forall xs ys : list float,
  List.length xs = List.length ys ->
  Forall (fun x => PrimFloat.is_finite x = true) xs ->
  Forall (fun ab => PrimFloat.is_finite (PrimFloat.sub (snd ab) (fst ab)) = true)
    (combine xs ys) ->
  fields_eqb (List.map (fun ab => lerp (#0)%js (fst ab) (snd ab)) (combine xs ys)) xs
  = true.
Proof.
  intros xs ys L Fx Fd. unfold fields_eqb. apply andb_true_iff. split.
  - rewrite length_map, length_combine, <- L, Nat.min_id. apply Nat.eqb_refl.
  - revert ys L Fx Fd.
    induction xs as [|x xs IH]; intros [|y ys] L Fx Fd; try discriminate L;
      [reflexivity|].
    injection L as L. inversion Fx as [|? ? Fx1 Fx2]; subst.
    inversion Fd as [|? ? Fd1 Fd2]; subst.
    cbn [combine List.map forallb fst snd]. apply andb_true_iff. split.
    + unfold lerp. cbn [num_add num_sub num_mul num_eqb num_lit float_number].
      change (Float64.lit 0) with 0%float.
      now apply FloatFacts.add_mul_zero.
    + now apply IH.
Qed.

Lemma lerp_one_fields (A B : HandPose float) :
  pose_fields (interpolatePose A B (#1)%js)
  = List.map (fun ab => PrimFloat.add (fst ab) (PrimFloat.sub (snd ab) (fst ab)))
      (combine (pose_fields A) (pose_fields B)).
Proof.
  rewrite interpolatePose_fields. apply map_ext. intros [a b].
  unfold lerp. cbn [num_add num_sub num_mul num_lit float_number fst snd].
  change (Float64.lit 1) with 1%float. now rewrite FloatFacts.mul_one.
Qed.

(** C5, as the program computes it.  In double arithmetic
    [interpolatePose(A, B, 0)] equals [A] on every finger field and on the
    wrist (a missing wrist read as zero) for finite poses whose field
    differences do not overflow, and every field of
    [interpolatePose(A, B, 1)] is the double [a + (b - a)].  That sum is
    [b] in exact arithmetic: over the rationals the result at [t = 1]
    equals [B] on every field. *)
Theorem interpolatePose_boundary :
  (forall A B : HandPose float,
     finite_pose A -> finite_steps A B ->
     pose_eqb (interpolatePose A B (#0)%js) A = true)
  /\ (forall A B : HandPose float,
        pose_fields (interpolatePose A B (#1)%js)
        = List.map
            (fun ab => PrimFloat.add (fst ab) (PrimFloat.sub (snd ab) (fst ab)))
            (combine (pose_fields A) (pose_fields B)))
  /\ (forall A B : HandPose Q,
        Forall2 Qeq (pose_fields (interpolatePose A B (#0)%js)) (pose_fields A)
        /\ Forall2 Qeq (pose_fields (interpolatePose A B (#1)%js)) (pose_fields B)).
Proof.
  split; [|split].
  - intros A B FA FS. unfold pose_eqb. rewrite interpolatePose_fields.
    apply lerp_zero_fields; [now rewrite !pose_fields_length | exact FA | exact FS].
  - apply lerp_one_fields.
  - intros A B. split;
      unfold pose_fields, finger_fields, interpolatePose, interpolateFinger,
        wrist_or_zero, lerp; simpl;
      repeat constructor; ring.
Qed.

Definition letter_pose (mode : SignLanguageMode) (k : string) : HandPose float :=
  match JsObject.own (getLetterPoses mode) k with
  | Some p => p
  | None => REST_POSE
  end.

Lemma interpolatePose_boundary_witness :
  pose_eqb (interpolatePose (letter_pose asl "o") (letter_pose asl "m") (#0)%js)
    (letter_pose asl "o") = true.
Proof.
  apply (proj1 interpolatePose_boundary);
    unfold finite_pose, finite_steps; vm_compute; repeat constructor.
Defined.

(** C5 fails at [t = 1] in double arithmetic: from the ASL letter [o] to the
    ASL letter [m] the spread of the index finger goes from [0.05] to
    [-0.1], and [0.05 + (-0.1 - 0.05) * 1] is [-0.10000000000000002], the
    double next below [-0.1]. *)
Lemma interpolatePose_one_inexact :
  exists A B : HandPose float,
    JsObject.own ASL_LETTER_POSES "o" = Some A
    /\ JsObject.own ASL_LETTER_POSES "m" = Some B
    /\ finite_pose A /\ finite_pose B /\ finite_steps A B
    /\ pose_eqb (interpolatePose A B (#1)%js) B = false
    /\ mcp_spread (index A) = (#0.05)%js
    /\ mcp_spread (index B) = (#(-0.1))%js
    /\ mcp_spread (index (interpolatePose A B (#1)%js))
       = PrimFloat.next_down (#(-0.1))%js.
Proof.
  eexists. eexists.
  split; [vm_compute; reflexivity|].
  split; [vm_compute; reflexivity|].
  split; [unfold finite_pose; vm_compute; repeat constructor|].
  split; [unfold finite_pose; vm_compute; repeat constructor|].
  split; [unfold finite_steps; vm_compute; repeat constructor|].
  repeat split; vm_compute; reflexivity.
Qed.

End Interpolation.

(** ** The lip-sync engine *)

Section LipSyncFrames.
Import LipSync.
Context {num : Type} `{JsNumber num}.
Local Open Scope js_scope.

Definition frame_of (msPerChar time : num) (char : ascii) : LipSyncFrame num :=
  {| viseme := viseme_of char; character := char; time := time;
     duration := if isVowel char then msPerChar * #1.3 else msPerChar * #0.8 |}.

(** The frames of the characters [chars] when the first starts at [t]. *)
Fixpoint frames_from (msPerChar t : num) (chars : list ascii)
  : list (LipSyncFrame num) :=
  match chars with
  | [] => []
  | c :: cs =>
      let f := frame_of msPerChar t c in
      f :: frames_from msPerChar (time f + duration f) cs
  end.

Lemma lip_loop msPerChar : forall chars frames t,
  fst (fold_left (lip_step msPerChar) chars (frames, t))
  = (frames ++ frames_from msPerChar t chars)%list.
Proof.
  induction chars as [|c cs IH]; intros frames t; simpl.
  - now rewrite app_nil_r.
  - rewrite IH, <- app_assoc. reflexivity.
Qed.

Lemma generateLipSync_frames text wordsPerMinute :
  generateLipSync text wordsPerMinute
  = frames_from ((#60000 / wordsPerMinute) / #5) #0
      (JsString.chars (JsString.toLowerCase text)).
Proof. unfold generateLipSync. now rewrite lip_loop. Qed.

(** The first frame, if any, is at offset zero. *)
Definition starts_at_zero (frames : list (LipSyncFrame num)) : Prop :=
  match frames with
  | [] => True
  | f :: _ => time f = #0
  end.

(** No gap and no overlap: each next frame starts where the previous one
    ends. *)
Fixpoint chained (frames : list (LipSyncFrame num)) : Prop :=
  match frames with
  | f :: (g :: _) as rest => time g = time f + duration f /\ chained rest
  | _ => True
  end.

Lemma frames_from_chained msPerChar : forall chars t,
  chained (frames_from msPerChar t chars).
Proof.
  induction chars as [|c [|c' cs] IH]; intros t; simpl; trivial.
  split; [reflexivity|]. apply (IH _).
Qed.

(** [v] is the viseme of the last frame at or before [t], or the rest
    viseme when there is no such frame. *)
Definition last_at_or_before (frames : list (LipSyncFrame num)) (t : num)
    (v : Viseme num) : Prop :=
  (Forall (fun g => (time g <=? t) = false) frames /\ v = VISEMES_rest)
  \/ (exists before f after,
        frames = (before ++ f :: after)%list
        /\ (time f <=? t) = true
        /\ Forall (fun g => (time g <=? t) = false) after
        /\ v = viseme f).

Lemma scan_down_last : forall frames t,
  last_at_or_before frames t (scan_down (rev frames) t).
Proof.
  induction frames as [|f frames IH] using rev_ind; intros t.
  - left. split; [constructor | reflexivity].
  - rewrite rev_app_distr. simpl.
    destruct (time f <=? t) eqn:E.
    + right. exists frames, f, [].
      split; [reflexivity | split; [exact E | split; [constructor | reflexivity]]].
    + destruct (IH t) as [[All R] | (before & g & after & -> & Eg & All & R)].
      * left. split; [|exact R]. apply Forall_app. split; [exact All|].
        now constructor.
      * right. exists before, g, (after ++ [f])%list.
        split; [now rewrite <- app_assoc|]. split; [exact Eg|].
        split; [|exact R].
        apply Forall_app. split; [exact All | now constructor].
Qed.

Lemma getVisemeAtTime_last frames t :
  last_at_or_before frames t (getVisemeAtTime frames t).
Proof.
  destruct frames as [|f frames].
  - left. split; [constructor | reflexivity].
  - apply (scan_down_last (f :: frames)).
Qed.

End LipSyncFrames.

Section LipSyncOrder.
Import LipSync.

(** Over the rationals: with a positive rate every frame lasts a positive
    time, so the offsets increase. *)
Lemma frame_end_later (ms : Q) c t :
  0 < ms ->
  t < (time (frame_of ms t c) + duration (frame_of ms t c))%js.
Proof.
  intros P. unfold frame_of. cbn [time duration].
  destruct (isVowel c); cbn; lra.
Qed.

Lemma frames_from_later (ms : Q) : 0 < ms -> forall chars t,
  Forall (fun f => t <= time f) (frames_from ms t chars).
Proof.
  intros P. induction chars as [|c cs IH]; intros t; cbn [frames_from];
    constructor.
  - apply Qle_refl.
  - pose proof (frame_end_later ms c t P) as D.
    eapply Forall_impl; [|apply IH]. cbv beta. intros f L. lra.
Qed.

Lemma frames_from_increasing (ms : Q) : 0 < ms -> forall chars t,
  StronglySorted (fun f g => time f < time g) (frames_from ms t chars).
Proof.
  intros P. induction chars as [|c cs IH]; intros t; cbn [frames_from];
    constructor.
  - apply IH.
  - pose proof (frame_end_later ms c t P) as D.
    eapply Forall_impl; [|apply (frames_from_later ms P)]. cbv beta.
    intros f L. change (time (frame_of ms t c)) with t. lra.
Qed.

Lemma msPerChar_positive (wpm : Q) : 0 < wpm -> 0 < (60000 / wpm) / 5.
Proof.
  intros P. apply Qlt_shift_div_l; [lra|]. rewrite Qmult_0_l.
  apply Qlt_shift_div_l; [exact P|]. lra.
Qed.

Lemma early_rest (ms : Q) chars t :
  0 < ms -> t < 0 ->
  getVisemeAtTime (frames_from ms 0 chars) t = VISEMES_rest.
Proof.
  intros M Lt.
  destruct (getVisemeAtTime_last (frames_from ms 0 chars) t)
    as [[_ R] | (before & g & after & E & Le & _)]; [exact R|].
  exfalso. pose proof (frames_from_later ms M chars 0) as L.
  rewrite E in L. apply Forall_app in L as [_ L].
  inversion L as [|? ? L1 _]; subst.
  cbn [num_leb Q_number] in Le. apply Qle_bool_iff in Le. lra.
Qed.

(** In doubles: with a positive rate no offset is negative or NaN, so a
    negative [t] comes before every frame. *)
Definition nonneg_double (x : float) : Prop := FloatSign.nonneg (Prim2SF x).

Lemma positive_rate (wpm : float) :
  PrimFloat.ltb 0 wpm = true -> FloatSign.positive_or_inf (Prim2SF wpm).
Proof.
  rewrite FloatAxioms.ltb_spec. change (Prim2SF 0) with (S754_zero false).
  destruct (Prim2SF wpm) as [[|]|[|]| |[|] m e]; cbn; trivial; discriminate.
Qed.

Lemma negative_time (t : float) :
  PrimFloat.ltb t 0 = true -> FloatSign.negative (Prim2SF t).
Proof.
  rewrite FloatAxioms.ltb_spec. change (Prim2SF 0) with (S754_zero false).
  destruct (Prim2SF t) as [[|]|[|]| |[|] m e]; cbn; trivial; discriminate.
Qed.

Lemma msPerChar_nonneg (wpm : float) :
  PrimFloat.ltb 0 wpm = true ->
  nonneg_double ((num_lit 60000 / wpm) / num_lit 5)%js.
Proof.
  intros P. unfold nonneg_double.
  cbn [num_div num_lit float_number].
  rewrite !FloatAxioms.div_spec.
  assert (C1 : exists m e, Prim2SF (Float64.lit 60000) = S754_finite false m e)
    by (vm_compute; eexists; eexists; reflexivity).
  assert (C2 : exists m e, Prim2SF (Float64.lit 5) = S754_finite false m e)
    by (vm_compute; eexists; eexists; reflexivity).
  apply FloatSign.div_nonneg; [| |right; exact C2].
  - apply FloatSign.div_nonneg;
      [|now apply positive_rate | left; exact C1].
    destruct C1 as (m & e & ->). exact I.
  - destruct C2 as (m & e & ->). exact I.
Qed.

Lemma frame_end_nonneg (ms t : float) c :
  nonneg_double ms -> nonneg_double t ->
  nonneg_double (time (frame_of ms t c) + duration (frame_of ms t c))%js.
Proof.
  intros M T. unfold nonneg_double, frame_of. cbn [time duration].
  cbn [num_add num_mul num_lit float_number].
  rewrite FloatAxioms.add_spec. apply FloatSign.add_nonneg; [exact T|].
  destruct (isVowel c); rewrite FloatAxioms.mul_spec;
    apply FloatSign.mul_nonneg; trivial;
    vm_compute; eexists; eexists; reflexivity.
Qed.

Lemma frames_from_nonneg (ms : float) : nonneg_double ms -> forall chars t,
  nonneg_double t ->
  Forall (fun f => nonneg_double (time f)) (frames_from ms t chars).
Proof.
  intros M. induction chars as [|c cs IH]; intros t T; cbn [frames_from];
    constructor.
  - exact T.
  - apply IH. now apply frame_end_nonneg.
Qed.

Lemma early_rest_double text (wpm t : float) :
  PrimFloat.ltb 0 wpm = true -> PrimFloat.ltb t 0 = true ->
  getVisemeAtTime (generateLipSync text wpm) t = VISEMES_rest.
Proof.
  intros P N. rewrite generateLipSync_frames.
  match goal with |- getVisemeAtTime ?fs t = _ =>
    destruct (getVisemeAtTime_last fs t)
      as [[_ R] | (before & g & after & E & Le & _)]; [exact R|];
    assert (F : Forall (fun f => nonneg_double (time f)) fs)
  end.
  { apply frames_from_nonneg; [now apply msPerChar_nonneg|].
    unfold nonneg_double. vm_compute. exact I. }
  exfalso. rewrite E in F. apply Forall_app in F as [_ F].
  inversion F as [|? ? G _]; subst.
  cbn [num_leb float_number] in Le. rewrite FloatAxioms.leb_spec in Le.
  rewrite (FloatSign.leb_nonneg_negative _ _ G (negative_time t N)) in Le.
  discriminate Le.
Qed.

(** In doubles a frame does not end before it starts, so no later frame
    starts before an earlier one. *)
Lemma frame_end_not_before (ms t : float) c :
  nonneg_double ms -> nonneg_double t ->
  PrimFloat.leb t (time (frame_of ms t c) + duration (frame_of ms t c))%js
  = true.
Proof.
  intros M T. unfold frame_of. cbn [time duration].
  cbn [num_add num_mul num_lit float_number].
  rewrite FloatAxioms.leb_spec, FloatAxioms.add_spec.
  apply FloatOrder.add_above; try apply FloatAxioms.Prim2SF_valid;
    [exact T|].
  destruct (isVowel c); rewrite FloatAxioms.mul_spec;
    apply FloatSign.mul_nonneg; trivial;
    vm_compute; eexists; eexists; reflexivity.
Qed.

Lemma frames_from_not_before (ms : float) :
  nonneg_double ms -> forall chars t,
  nonneg_double t ->
  Forall (fun f => PrimFloat.leb t (time f) = true) (frames_from ms t chars).
Proof.
  intros M. induction chars as [|c cs IH]; intros t T; cbn [frames_from];
    constructor.
  - cbn [time frame_of]. rewrite FloatAxioms.leb_spec.
    now apply FloatOrder.leb_refl.
  - pose proof (frame_end_not_before ms t c M T) as D.
    pose proof (frame_end_nonneg ms t c M T) as E.
    pose proof (frames_from_nonneg ms M cs _ E) as F.
    specialize (IH _ E). rewrite Forall_forall in *. intros f In.
    rewrite FloatAxioms.leb_spec in *.
    apply (FloatOrder.leb_trans _ _ _ T E (F f In) D).
    rewrite <- FloatAxioms.leb_spec. now apply IH.
Qed.

Lemma frames_from_sorted (ms : float) :
  nonneg_double ms -> forall chars t,
  nonneg_double t ->
  StronglySorted (fun f g => PrimFloat.leb (time f) (time g) = true)
    (frames_from ms t chars).
Proof.
  intros M. induction chars as [|c cs IH]; intros t T; cbn [frames_from];
    constructor.
  - apply IH. now apply frame_end_nonneg.
  - apply (Forall_inv_tail (frames_from_not_before ms M (c :: cs) t T)).
Qed.

Lemma generateLipSync_sorted text (wpm : float) :
  PrimFloat.ltb 0 wpm = true ->
  StronglySorted (fun f g => PrimFloat.leb (time f) (time g) = true)
    (generateLipSync text wpm).
Proof.
  intros P. rewrite generateLipSync_frames.
  apply frames_from_sorted; [now apply msPerChar_nonneg|].
  unfold nonneg_double. vm_compute. exact I.
Qed.

(** C6.  The frames of [generateLipSync] start at offset zero and each next
    frame starts at the previous frame's time plus its duration, one frame
    per character; [getVisemeAtTime] returns the viseme of the last frame
    whose time is at most [t] and the rest viseme when there is none, as on
    an empty list.  For a positive rate, in doubles, the offsets never
    decrease with the index and a [t] before the first frame's time (any
    negative [t], such as [-1]) yields the rest viseme; over the rationals
    the offsets increase. *)
Theorem generateLipSync_timing :
  (forall (num : Type) (N : JsNumber num) (text : string) (wpm : num),
     starts_at_zero (generateLipSync text wpm)
     /\ chained (generateLipSync text wpm)
     /\ List.map character (generateLipSync text wpm)
        = JsString.chars (JsString.toLowerCase text))
  /\ (forall (num : Type) (N : JsNumber num) (frames : list (LipSyncFrame num)) t,
        getVisemeAtTime [] t = VISEMES_rest
        /\ last_at_or_before frames t (getVisemeAtTime frames t))
  /\ (forall (text : string) (wpm : float),
        num_ltb (num_lit 0) wpm = true ->
        StronglySorted (fun f g => num_leb (time f) (time g) = true)
          (generateLipSync text wpm)
        /\ (forall t f,
              hd_error (generateLipSync text wpm) = Some f ->
              num_ltb t (time f) = true ->
              getVisemeAtTime (generateLipSync text wpm) t = VISEMES_rest)
        /\ getVisemeAtTime (generateLipSync text wpm) (num_lit (-1))
           = VISEMES_rest)
  /\ (forall (text : string) (wpm : Q),
        0 < wpm ->
        StronglySorted (fun f g => time f < time g)
          (generateLipSync text wpm)
        /\ (forall t f,
              hd_error (generateLipSync text wpm) = Some f -> t < time f ->
              getVisemeAtTime (generateLipSync text wpm) t = VISEMES_rest)
        /\ getVisemeAtTime (generateLipSync text wpm) (-1) = VISEMES_rest).
Proof.
  split; [|split; [|split]].
  - intros num N text wpm. rewrite generateLipSync_frames.
    generalize (JsString.chars (JsString.toLowerCase text)) as chars.
    intros chars. split; [|split].
    + now destruct chars.
    + apply frames_from_chained.
    + generalize (num_lit 0 : num). induction chars as [|c cs IH]; intros t;
        simpl; [reflexivity | now rewrite IH].
  - intros num N frames t. split; [reflexivity | apply getVisemeAtTime_last].
  - intros text wpm P. split; [now apply generateLipSync_sorted|].
    split; [|now apply early_rest_double].
    intros t f Hd Lt. apply early_rest_double; [exact P|].
    rewrite generateLipSync_frames in Hd.
    destruct (JsString.chars (JsString.toLowerCase text)); [discriminate|].
    cbn [frames_from hd_error] in Hd. injection Hd as <-. exact Lt.
  - intros text wpm P. rewrite generateLipSync_frames.
    pose proof (msPerChar_positive wpm P) as M.
    split; [|split].
    + apply frames_from_increasing. exact M.
    + intros t f Hd Lt. apply (early_rest _ _ _ M).
      destruct (JsString.chars (JsString.toLowerCase text)); [discriminate|].
      cbn [frames_from hd_error] in Hd. injection Hd as <-. exact Lt.
    + apply (early_rest _ _ _ M). reflexivity.
Qed.

Lemma generateLipSync_timing_witness :
  StronglySorted (fun f g => num_leb (time f) (time g) = true)
    (generateLipSync (num := float) "Hi you" (num_lit 120))
  /\ getVisemeAtTime (generateLipSync (num := float) "Hi you" (num_lit 120))
       (num_lit (-1)) = VISEMES_rest
  /\ StronglySorted (fun f g => time f < time g)
       (generateLipSync (num := Q) "Hi you" 120)
  /\ getVisemeAtTime (generateLipSync (num := Q) "Hi you" 120) (-1)
     = VISEMES_rest.
Proof.
  destruct generateLipSync_timing as (_ & _ & D & R).
  destruct (D "Hi you" (num_lit 120)) as (S1 & _ & R1); [reflexivity|].
  destruct (R "Hi you" 120) as (S2 & _ & R2); [reflexivity|].
  split; [exact S1 | split; [exact R1 | split; [exact S2 | exact R2]]].
Defined.

(** The same text in doubles, at 120 words per minute. *)
Example lip_sync_in_doubles :
  List.map time (generateLipSync (num := float) "Hi you" (num_lit 120))
  = [0; 80; 210; 290; 370; 500]%float
  /\ List.map (fun f => LipSync.name (viseme f))
       (generateLipSync (num := float) "Hi you" (num_lit 120))
     = ["AH (but)"; "IH (sit)"; "Rest"; "EE (feet)"; "OH (go)"; "UH (book)"]
  /\ getVisemeAtTime (generateLipSync (num := float) "Hi you" (num_lit 120))
       (num_lit (-1)) = VISEMES_rest
  /\ LipSync.name
       (getVisemeAtTime (generateLipSync (num := float) "Hi you" (num_lit 120))
          (num_lit 200)) = "IH (sit)".
Proof. repeat split; vm_compute; reflexivity. Qed.

End LipSyncOrder.

(** ** The emotion engine *)

Section Expressions.
Import EmotionEngine.
Context {num : Type} `{JsNumber num}.
Local Open Scope js_scope.

(** The value a preset holds under a key, if it has the key. *)
Definition preset_value (e : EmotionType) (k : ExpressionKey) : option num :=
  option_map snd
    (List.find (fun entry => ExpressionKey_eqb (fst entry) k) (EXPRESSIONS e)).

Lemma preset_keys_distinct e : NoDup (List.map fst (EXPRESSIONS (num := num) e)).
Proof.
  destruct e; cbn [EXPRESSIONS List.map fst];
    repeat (constructor; [cbn [In]; intuition discriminate|]); constructor.
Qed.

(** C8.  A field of [getExpression(emotion, intensity)] that the preset of
    the emotion names is [neutral + (preset - neutral) * intensity], a field
    it does not name keeps its neutral value, and the [emotion] and
    [intensity] fields are the arguments; this for every intensity. *)
Theorem getExpression_blend :
  forall (e : EmotionType) (i : num),
    emotion (getExpression e i) = e
    /\ intensity (getExpression e i) = i
    /\ forall k : ExpressionKey,
         param (getExpression e i) k
         = match preset_value e k with
           | Some preset =>
               param NEUTRAL_EXPRESSION k
               + (preset - param NEUTRAL_EXPRESSION k) * i
           | None => param NEUTRAL_EXPRESSION k
           end.
Proof.
  intros e i. split; [|split].
  - destruct e; reflexivity.
  - destruct e; reflexivity.
  - intros k. destruct e, k; reflexivity.
Qed.

End Expressions.

Section Scores.
Import EmotionEngine.
Context {num : Type} `{JsNumber num}.
Local Open Scope js_scope.

Lemma bump_other (scores : Scores num) e x e' :
  EmotionType_eqb e' e = false -> bump scores e x e' = scores e'.
Proof. intros E. unfold bump. now rewrite E. Qed.

(** No keyword list and no punctuation boost touches [neutral]. *)
Lemma count_entries_neutral w : forall entries (scores : Scores num),
  Forall (fun entry => fst entry = neutral -> snd entry = []) entries ->
  fold_left
    (fun sc entry =>
       if includes (snd entry) w then bump sc (fst entry) #1 else sc)
    entries scores neutral
  = scores neutral.
Proof.
  induction entries as [|[e kws] es IH]; intros scores F; [reflexivity|].
  inversion F as [|? ? F1 F2]; subst. cbn [fold_left fst snd].
  rewrite (IH _ F2). cbn [fst snd] in F1.
  destruct e; try (destruct (includes kws w); reflexivity).
  now rewrite (F1 eq_refl).
Qed.

Lemma count_word_neutral (scores : Scores num) w :
  count_word scores w neutral = scores neutral.
Proof.
  apply count_entries_neutral. unfold EMOTION_KEYWORDS.
  repeat constructor; cbn [fst snd]; try discriminate.
Qed.

Lemma count_keywords_neutral : forall words (scores : Scores num),
  fold_left count_word words scores neutral = scores neutral.
Proof.
  induction words as [|w ws IH]; intros scores; simpl; [reflexivity|].
  now rewrite IH, count_word_neutral.
Qed.

Lemma emotion_scores_neutral text : emotion_scores text neutral = #0.1.
Proof.
  unfold emotion_scores, boost.
  repeat match goal with
         | |- context [if ?b then _ else _] => destruct b
         end;
    rewrite ?bump_other by reflexivity;
    unfold count_keywords; now rewrite count_keywords_neutral.
Qed.

(** The loop keeps [maxScore] the score of [maxEmotion] once an entry has
    won. *)
Lemma pick_keeps (scores : Scores num) : forall keys e,
  snd (fold_left (pick scores) keys (e, scores e))
  = scores (fst (fold_left (pick scores) keys (e, scores e))).
Proof.
  induction keys as [|k ks IH]; intros e; simpl; [reflexivity|].
  destruct (scores e <? scores k); apply IH.
Qed.

Lemma pick_first (scores : Scores num) rest :
  (#0 <? scores neutral) = true ->
  fold_left (pick scores) (neutral :: rest) (neutral, #0)
  = fold_left (pick scores) rest (neutral, scores neutral).
Proof.
  intros B.
  assert (E : pick scores (neutral, #0) neutral = (neutral, scores neutral))
    by (unfold pick; now rewrite B).
  cbn [fold_left]. now rewrite E.
Qed.

(** After the loop [maxScore] is the score of [maxEmotion], as soon as
    [0 < 0.1] holds of the numbers. *)
Lemma winner_score text :
  (#0 <? #0.1) = true ->
  snd (fold_left (pick (emotion_scores text)) score_keys (neutral, #0))
  = emotion_scores text
      (fst (fold_left (pick (emotion_scores text)) score_keys (neutral, #0))).
Proof.
  intros Base. unfold score_keys.
  rewrite pick_first by (now rewrite emotion_scores_neutral).
  apply pick_keeps.
Qed.

(** The intensity is [min(1, maxScore / 3)] with [maxScore] the score of the
    emotion returned. *)
Lemma analyzeEmotion_formula text :
  (#0 <? #0.1) = true ->
  snd (analyzeEmotion text)
  = num_min #1 (emotion_scores text (fst (analyzeEmotion text)) / #3).
Proof.
  intros Base. pose proof (winner_score text Base) as K.
  unfold analyzeEmotion.
  destruct (fold_left _ _ _) as [e m]. cbn [fst snd] in *. now rewrite K.
Qed.

End Scores.

Section Winner.
Import EmotionEngine.

(** Over the rationals the emotion returned has a score no other beats. *)
Lemma pick_max (scores : Scores Q) : forall keys e m,
  m <= snd (fold_left (pick scores) keys (e, m))
  /\ Forall (fun k => scores k <= snd (fold_left (pick scores) keys (e, m))) keys.
Proof.
  induction keys as [|k ks IH]; intros e m; cbn [fold_left].
  - split; [apply Qle_refl | constructor].
  - destruct (pick scores (e, m) k) as [e' m'] eqn:P.
    destruct (IH e' m') as [L F].
    unfold pick in P. cbn [num_ltb Q_number] in P.
    destruct (Qle_bool (scores k) m) eqn:E; cbn [negb] in P;
      injection P as <- <-.
    + split; [exact L|]. constructor; [|exact F].
      apply Qle_bool_iff in E. lra.
    + assert (m < scores k).
      { apply Qnot_le_lt. intros C. apply Qle_bool_iff in C. congruence. }
      split; [lra|]. constructor; [exact L | exact F].
Qed.

Lemma analyzeEmotion_winner text e :
  emotion_scores (num := Q) text e
  <= emotion_scores text (fst (analyzeEmotion (num := Q) text)).
Proof.
  pose proof (winner_score (num := Q) text eq_refl) as K.
  pose proof (pick_max (emotion_scores text) score_keys neutral 0) as [_ F].
  unfold analyzeEmotion.
  change (num_lit 0 : Q) with (0 : Q) in *.
  destruct (fold_left _ _ _) as [w m]. cbn [fst snd] in *. subst m.
  rewrite Forall_forall in F. apply F. destruct e; simpl; tauto.
Qed.

(** C4, as the program computes it.  [analyzeEmotion("")] returns
    [neutral] with intensity [0.1 / 3], the baseline score of [neutral]
    over three, and not zero; the sentence with [happy] and three
    exclamation marks returns [happy] with a positive intensity; for every
    text the intensity is [min(1, maxScore / 3)] where [maxScore] is the
    score of the emotion returned, and (over the rationals) no emotion has
    a higher score. *)
Theorem analyzeEmotion_intensity :
  analyzeEmotion (num := float) "" = (neutral, (#0.1 / #3)%js)
  /\ fst (analyzeEmotion (num := float) "I am so happy and excited!!!") = happy
  /\ num_ltb (num_lit 0)
       (snd (analyzeEmotion (num := float) "I am so happy and excited!!!"))
     = true
  /\ (forall text,
        snd (analyzeEmotion (num := float) text)
        = num_min (num_lit 1)
            (num_div
               (emotion_scores text (fst (analyzeEmotion (num := float) text)))
               (num_lit 3)))
  /\ (forall text e,
        snd (analyzeEmotion (num := Q) text)
        = num_min (num_lit 1)
            (num_div
               (emotion_scores text (fst (analyzeEmotion (num := Q) text)))
               (num_lit 3))
        /\ emotion_scores (num := Q) text e
           <= emotion_scores text (fst (analyzeEmotion (num := Q) text))).
Proof.
  split; [vm_compute; reflexivity|].
  split; [vm_compute; reflexivity|].
  split; [vm_compute; reflexivity|].
  split.
  - intros text. apply (analyzeEmotion_formula (num := float)).
    vm_compute. reflexivity.
  - intros text e. split.
    + apply (analyzeEmotion_formula (num := Q)). reflexivity.
    + apply analyzeEmotion_winner.
Qed.

(** C4 fails on the empty text: the intensity returned is not zero. *)
Lemma analyzeEmotion_empty_not_zero :
  fst (analyzeEmotion (num := float) "") = neutral
  /\ num_eqb (snd (analyzeEmotion (num := float) "")) (num_lit 0) = false
  /\ num_ltb (num_lit 0) (snd (analyzeEmotion (num := float) "")) = true.
Proof. repeat split; vm_compute; reflexivity. Qed.

End Winner.

(** ** The playback controller *)

Section PlaybackTimers.
Import SignPoses LipSync Playback.
Context {num : Type} `{JsNumber num}.

(** Nothing is pending, or one timeout is and [timerRef] holds its handle. *)
Definition tracked (s : State num) : Prop :=
  timeouts s = []
  \/ exists t, timeouts s = [t] /\ timerRef s = Some (handle t).

(** The invariant of the rendered component: the pending timeouts are
    tracked, and none is pending while not playing. *)
Definition timer_invariant (s : State num) : Prop :=
  tracked s /\ (playing s = false -> timeouts s = []).

Lemma stopLipSync_timers (s : State num) :
  timeouts (stopLipSync s) = timeouts s
  /\ timerRef (stopLipSync s) = timerRef s
  /\ playing (stopLipSync s) = playing s.
Proof. unfold stopLipSync. now destruct (lipSyncIntervalRef s). Qed.

Lemma startLipSync_timers now (s : State num) :
  timeouts (startLipSync now s) = timeouts s
  /\ playing (startLipSync now s) = playing s.
Proof. unfold startLipSync. now destruct (lipSyncIntervalRef s). Qed.

Lemma clearTimer_tracked (s : State num) :
  tracked s -> timeouts (clearTimer s) = [] /\ playing (clearTimer s) = playing s.
Proof.
  unfold clearTimer, clearTimeout. intros [E | (t & E & R)].
  - destruct (timerRef s); cbn; now rewrite E.
  - rewrite R. cbn. rewrite E. cbn. now rewrite Nat.eqb_refl.
Qed.

Lemma stopPlaying_idle (s : State num) :
  tracked s -> timer_invariant (stopPlaying s) /\ playing (stopPlaying s) = false.
Proof.
  intros T. unfold stopPlaying.
  destruct (stopLipSync_timers (clearTimer (set_playing false s))) as (E1 & _ & E3).
  destruct (clearTimer_tracked (set_playing false s) T) as (E4 & E5).
  unfold timer_invariant, tracked. rewrite E1, E3, E4, E5. cbn. tauto.
Qed.

Lemma schedule_tracked r d (s : State num) :
  timeouts s = [] ->
  tracked (schedule r d s) /\ playing (schedule r d s) = playing s.
Proof.
  intros E. split; [|reflexivity]. right. unfold schedule. cbn. rewrite E.
  eexists. split; reflexivity.
Qed.

(** A callback that runs with nothing pending leaves nothing or its own
    timeout pending, and stops playback when it schedules nothing. *)
Lemma advancePlayback_tracked r now (s : State num) :
  timeouts s = [] -> playing s = true ->
  timer_invariant (advancePlayback r now s).
Proof.
  intros E P.
  assert (Sch : forall d s', timeouts s' = [] -> playing s' = true ->
                             timer_invariant (schedule r d s')).
  { intros d s' E' P'. destruct (schedule_tracked r d s' E') as [T Q].
    split; [exact T|]. rewrite Q, P'. discriminate. }
  assert (Stop : timer_invariant (stopPlaying s))
    by (apply stopPlaying_idle; now left).
  assert (Same : timer_invariant s)
    by (split; [now left | now intros _]).
  unfold advancePlayback, next_item.
  repeat match goal with
         | |- timer_invariant (match ?x with _ => _ end) => destruct x
         end;
    first [exact Stop | exact Same | apply Sch; assumption].
Qed.

Variable text : string.

Lemma step_invariant (s : State num) e :
  timer_invariant s -> enabled text s e = true -> timer_invariant (step text s e).
Proof.
  intros [T Idle] En. destruct e as [now| | | | |idx|mode|mode|v|h now];
    cbn [step enabled] in *.
  - (* Start: offered while not playing, when nothing is pending *)
    apply andb_true_iff in En as [En _]. apply negb_true_iff in En.
    unfold startPlaying.
    destruct (startLipSync_timers now (set_playing true s)) as [E P].
    destruct (schedule_tracked (render text s) (first_delay (render text s) / r_speed (render text s))%js
                (startLipSync now (set_playing true s))) as [T' P'].
    { rewrite E. cbn. now apply Idle. }
    split; [exact T'|]. rewrite P', P. cbn. discriminate.
  - now apply stopPlaying_idle.
  - (* Reset *)
    destruct (stopPlaying_idle s T) as [[T' I'] P'].
    unfold reset. split; [exact T' | exact I'].
  - (* Step forward *)
    unfold stepForward, next_item.
    destruct (r_signMode _); match goal with |- context [if ?b then _ else _] => destruct b end;
      (split; [exact T | exact Idle]).
  - unfold stepBackward.
    destruct (r_signMode _); match goal with |- context [if ?b then _ else _] => destruct b end;
      (split; [exact T | exact Idle]).
  - split; [exact T | exact Idle].
  - destruct (stopPlaying_idle (set_languageMode mode s) T) as [[T' I'] P'].
    unfold reset. split; [exact T' | exact I'].
  - destruct (stopPlaying_idle (set_signMode mode s) T) as [[T' I'] P'].
    unfold reset. split; [exact T' | exact I'].
  - split; [exact T | exact Idle].
  - (* A timeout fires: it was the only one pending *)
    destruct T as [E | (t & E & R)]; [now rewrite E in En|].
    rewrite E in En. cbn in En. rewrite orb_false_r in En.
    apply advancePlayback_tracked.
    + unfold clearTimeout. cbn. rewrite E. cbn. now rewrite En.
    + unfold clearTimeout. cbn. destruct (playing s); [reflexivity|].
      rewrite (Idle eq_refl) in E. discriminate E.
Qed.

Lemma initial_invariant b : timer_invariant (initial (num := num) b).
Proof. split; [now left | reflexivity]. Qed.

Lemma reachable_invariant b (s : State num) :
  reachable text b s -> timer_invariant s.
Proof.
  induction 1 as [|s e _ IH En]; [apply initial_invariant|].
  now apply step_invariant.
Qed.

(** C1.  In every state the rendered controls and the timers can lead
    to, at most one advancement timeout is pending, [timerRef] holds its
    handle, and none is pending while not playing.  Whatever begins a new
    advancement cycle schedules with nothing pending: the Start control is
    offered only while not playing, where no timeout is left, and a
    callback that fires was the only timeout pending; after either one, at
    most one is pending again.  Pausing and resetting cancel the timeout
    [timerRef] holds. *)
Theorem at_most_one_pending_timer :
  forall (externalPlaying : bool) (s : State num),
    reachable text externalPlaying s ->
    (List.length (timeouts s) <= 1)%nat
    /\ (forall t, In t (timeouts s) -> timerRef s = Some (handle t))
    /\ (playing s = false -> timeouts s = [])
    /\ timeouts (stopPlaying s) = []
    /\ timeouts (reset s) = []
    /\ (forall now,
          enabled text s (ClickStart now) = true ->
          timeouts s = []
          /\ exists t,
               timeouts (step text s (ClickStart now)) = [t]
               /\ timerRef (step text s (ClickStart now)) = Some (handle t))
    /\ (forall h now,
          enabled text s (Fire h now) = true ->
          timeouts (clearTimeout h s) = []
          /\ (List.length (timeouts (step text s (Fire h now))) <= 1)%nat).
Proof.
  intros b s R. destruct (reachable_invariant b s R) as [T Idle].
  destruct (stopPlaying_idle s T) as [[_ I] P].
  split; [|split; [|split; [exact Idle | split; [exact (I P) | split;
    [exact (I P) | split]]]]].
  - destruct T as [E | (t & E & _)]; rewrite E; cbn; lia.
  - intros t In. destruct T as [E | (t' & E & Rf)]; rewrite E in In.
    + destruct In.
    + destruct In as [<- | []]. exact Rf.
  - intros now En.
    assert (E : timeouts s = []).
    { apply Idle. cbn in En. now destruct (playing s). }
    split; [exact E|].
    cbn [step]. unfold startPlaying.
    destruct (startLipSync_timers now (set_playing true s)) as [E1 _].
    change (timeouts (set_playing true s)) with (timeouts s) in E1.
    rewrite E in E1.
    destruct (schedule_tracked (render text s)
                (num_div (first_delay (render text s))
                   (r_speed (render text s)))
                _ E1) as [[E2 | (t & E2 & E3)] _].
    + unfold schedule in E2. cbn -[startLipSync] in E2.
      rewrite E1 in E2. discriminate E2.
    + exists t. split; [exact E2 | exact E3].
  - intros h now En. split.
    + unfold clearTimeout. cbn [timeouts set_timeouts].
      cbn [enabled] in En.
      destruct T as [E | (t & E & _)]; rewrite E in En |- *; [reflexivity|].
      cbn in En. rewrite orb_false_r in En. cbn. now rewrite En.
    + destruct (reachable_invariant b (step text s (Fire h now)))
        as [[E | (t & E & _)] _];
        [now apply reach_step | rewrite E; cbn; lia | rewrite E; cbn; lia].
Qed.

End PlaybackTimers.

Section PlaybackFrame.
Import SignPoses LipSync Playback.
Context {num : Type} `{JsNumber num}.

(** The playing flag, the advancement timer and the lip-sync sampler. *)
Definition playback_part (s : State num) :=
  (playing s, timerRef s, timeouts s, lipSyncIntervalRef s, intervals s).

(** The state with its three position counters forgotten. *)
Definition forget_position (s : State num) : State num :=
  set_currentItemIndex 0%nat
    (set_currentKeyframe 0%nat (set_currentLetterIndex 0%nat s)).

(** C7, as the handlers have it.  [stepForward], [stepBackward] and a
    direct jump write the item index, the keyframe and the letter index and
    nothing else: the playing flag, the advancement timer and the lip-sync
    sampler stay as they were, playing or idle.  [reset] is no such
    operation: it stops playback (flag cleared, the timeout under
    [timerRef] cancelled, the sampler stopped) and returns the three
    counters to zero. *)
Theorem step_operations_frame :
  (forall r (s : State num),
     forget_position (stepForward r s) = forget_position s
     /\ playback_part (stepForward r s) = playback_part s)
  /\ (forall r (s : State num),
        forget_position (stepBackward r s) = forget_position s
        /\ playback_part (stepBackward r s) = playback_part s)
  /\ (forall idx (s : State num),
        forget_position (jumpTo idx s) = forget_position s
        /\ playback_part (jumpTo idx s) = playback_part s
        /\ currentItemIndex (jumpTo idx s) = idx)
  /\ (forall s : State num,
        playing (reset s) = false
        /\ timerRef (reset s) = None
        /\ lipSyncIntervalRef (reset s) = None
        /\ (forall t, In t (timeouts (reset s)) <->
                      In t (timeouts s) /\ timerRef s <> Some (handle t))
        /\ (forall i, In i (intervals (reset s)) <->
                      In i (intervals s) /\ lipSyncIntervalRef s <> Some i)
        /\ currentItemIndex (reset s) = 0%nat
        /\ currentKeyframe (reset s) = 0%nat
        /\ currentLetterIndex (reset s) = 0%nat).
Proof.
  split; [|split; [|split]].
  - intros r s. unfold stepForward, next_item.
    destruct (r_signMode r);
      match goal with |- context [if ?b then _ else _] => destruct b end;
      split; reflexivity.
  - intros r s. unfold stepBackward.
    destruct (r_signMode r);
      match goal with |- context [if ?b then _ else _] => destruct b end;
      split; reflexivity.
  - intros idx s. repeat split.
  - intros s. destruct s as [? ? ? ? ? ? ? ? ? ? ? tr lr ts ivs ?].
    unfold reset, stopPlaying, stopLipSync, clearTimer, clearTimeout,
      clearInterval.
    destruct tr as [h|], lr as [i|]; cbn;
      (split; [reflexivity|]); (split; [reflexivity|]);
      (split; [reflexivity|]);
      (split; [|split; [|repeat split]]);
      intros x; rewrite ?filter_In, ?negb_true_iff, ?Nat.eqb_neq;
      intuition congruence.
Qed.

End PlaybackFrame.

Section PlaybackExamples.
Import SignPoses LipSync Playback.

(** The controller on the text ["hello"], in doubles, after one Start. *)
Definition hello_started : State float :=
  step "hello" (initial false) (ClickStart (num_lit 0)).

Lemma hello_started_reachable : reachable "hello" false hello_started.
Proof. apply reach_step; [apply reach_initial | reflexivity]. Qed.

Lemma at_most_one_pending_timer_witness :
  (List.length (timeouts hello_started) <= 1)%nat
  /\ (forall t, In t (timeouts hello_started) ->
                timerRef hello_started = Some (handle t))
  /\ (playing hello_started = false -> timeouts hello_started = [])
  /\ timeouts (stopPlaying hello_started) = []
  /\ timeouts (reset hello_started) = []
  /\ (forall now,
        enabled "hello" hello_started (ClickStart now) = true ->
        timeouts hello_started = []
        /\ exists t,
             timeouts (step "hello" hello_started (ClickStart now)) = [t]
             /\ timerRef (step "hello" hello_started (ClickStart now))
                = Some (handle t))
  /\ (forall h now,
        enabled "hello" hello_started (Fire h now) = true ->
        timeouts (clearTimeout h hello_started) = []
        /\ (List.length
              (timeouts (step "hello" hello_started (Fire h now))) <= 1)%nat).
Proof.
  apply (at_most_one_pending_timer "hello" false hello_started).
  exact hello_started_reachable.
Defined.

(** C7 fails on [reset]: run while playing, it stops playback. *)
Lemma reset_stops_playback :
  playing hello_started = true
  /\ timerRef hello_started = Some 2%nat
  /\ List.map handle (timeouts hello_started) = [2%nat]
  /\ intervals hello_started = [1%nat]
  /\ playing (reset hello_started) = false
  /\ timerRef (reset hello_started) = None
  /\ timeouts (reset hello_started) = []
  /\ intervals (reset hello_started) = [].
Proof. repeat split; vm_compute; reflexivity. Qed.

End PlaybackExamples.

(** * Further properties

    Properties of the code beside the ones above: what the resolver
    returns, what a render shows, how the blends and the emotion analysis
    behave in doubles, and what playback does when left to its timers. *)

(** ** Words and letters *)

Section Words.

Lemma chars_inj a b : JsString.chars a = JsString.chars b -> a = b.
Proof.
  unfold JsString.chars. revert b.
  induction a as [|c a IH]; intros [|d b] E; simpl in E;
    try discriminate E; [reflexivity|].
  injection E as -> E. now rewrite (IH b E).
Qed.

(** The characters of the pieces of a split, in order, are the characters
    that are no white space. *)
Lemma split_ws_chars s : forall cur in_run,
  flat_map JsString.chars (JsString.split_ws s cur in_run)
  = (JsString.chars cur
     ++ List.filter (fun c => negb (JsString.is_space c)) (JsString.chars s))%list.
Proof.
  induction s as [|c s IH]; intros cur in_run; simpl.
  - reflexivity.
  - destruct (JsString.is_space c) eqn:Sp; simpl.
    + destruct in_run; [apply IH|]. simpl. now rewrite IH.
    + rewrite IH, chars_app, <- app_assoc. reflexivity.
Qed.

(** No piece of a split holds a white-space character. *)
Lemma split_ws_pieces s : forall cur in_run w,
  In w (JsString.split_ws s cur in_run) ->
  forall c, In c (JsString.chars w) ->
  In c (JsString.chars cur)
  \/ (In c (JsString.chars s) /\ JsString.is_space c = false).
Proof.
  induction s as [|c s IH]; intros cur in_run w I x X; simpl in I.
  - destruct I as [<- | []]. now left.
  - destruct (JsString.is_space c) eqn:Sp.
    + destruct in_run.
      * destruct (IH _ _ _ I x X) as [L | [R1 R2]]; [now left|].
        right. split; [right; exact R1 | exact R2].
      * destruct I as [<- | I]; [now left|].
        destruct (IH _ _ _ I x X) as [[] | [R1 R2]].
        right. split; [right; exact R1 | exact R2].
    + destruct (IH _ _ _ I x X) as [L | [R1 R2]].
      * rewrite chars_app in L. apply in_app_or in L as [L | [<- | []]];
          [now left|]. right. split; [now left | exact Sp].
      * right. split; [right; exact R1 | exact R2].
Qed.

Lemma flat_map_truthy l :
  flat_map JsString.chars (List.filter JsString.truthy l)
  = flat_map JsString.chars l.
Proof.
  induction l as [|w l IH]; simpl; [reflexivity|].
  destruct w as [|c w]; simpl; [exact IH | now rewrite IH].
Qed.

(** A word of the normalised text: not empty, lower-case letters only. *)
Definition word_ok (w : string) : Prop :=
  w <> "" /\ forallb JsString.is_lower (JsString.chars w) = true.

Lemma lower_not_space c :
  kept c = true -> JsString.is_space c = false -> JsString.is_lower c = true.
Proof. unfold kept. intros K S. rewrite S, orb_false_r in K. exact K. Qed.

Lemma normalize_words text : Forall word_ok (SignPoses.normalize text).
Proof.
  apply Forall_forall. intros w I. unfold SignPoses.normalize in I.
  apply filter_In in I as [I T]. split.
  - intros ->. discriminate T.
  - apply forallb_forall. intros c C.
    destruct (split_ws_pieces _ _ _ _ I c C) as [[] | [C1 C2]].
    rewrite chars_filter in C1. apply filter_In in C1 as [_ K].
    now apply lower_not_space.
Qed.

End Words.

(** ** What the gloss resolver returns *)

Section Gloss.
Import SignPoses.
Context {num : Type} `{JsNumber num}.

(** Lower-case letters and single spaces: what a phrase built from
    normalised words is made of. *)
Definition phrase_ok (p : string) : Prop :=
  forallb (fun c => JsString.is_lower c || Ascii.eqb c " ") (JsString.chars p)
  = true.

Lemma word_phrase_ok w : word_ok w -> phrase_ok w.
Proof.
  intros [_ L]. unfold phrase_ok. rewrite forallb_forall in *.
  intros c C. now rewrite (L c C).
Qed.

Lemma phrase_ok_app a b : phrase_ok a -> phrase_ok b -> phrase_ok (a ++ " " ++ b).
Proof.
  unfold phrase_ok. intros A B.
  rewrite !chars_app, !forallb_app, A, B. reflexivity.
Qed.

(** An item of a scan with the words it was made from. *)
Definition item_of (wordAnimations : JsObject.t (SignAnimation num))
    (letters : JsObject.t (HandPose num)) (it : SignGlossItem num) : Prop :=
  (exists phrase,
     phrase_ok phrase /\ matches wordAnimations phrase = true
     /\ it = table_item wordAnimations phrase)
  \/ (exists w,
        word_ok w /\ matches wordAnimations w = false
        /\ it = fingerspell_item letters w).

Lemma greedy_scan_words wordAnimations letters ws items :
  greedy_scan wordAnimations letters ws items ->
  Forall word_ok ws -> Forall (item_of wordAnimations letters) items.
Proof.
  induction 1 as [|w1 w2 w3 rest items M _ IH|w1 w2 rest items _ M _ IH
                  |w rest items _ _ M _ IH|w rest items _ _ M _ IH];
    intros W.
  - constructor.
  - inversion W as [|? ? W1 W']; subst. inversion W' as [|? ? W2 W'']; subst.
    inversion W'' as [|? ? W3 Wr]; subst.
    constructor; [|now apply IH]. left. exists (phrase3 w1 w2 w3).
    split; [|split; [exact M | reflexivity]].
    unfold phrase3. apply phrase_ok_app; [now apply word_phrase_ok|].
    apply phrase_ok_app; now apply word_phrase_ok.
  - inversion W as [|? ? W1 W']; subst. inversion W' as [|? ? W2 Wr]; subst.
    constructor; [|now apply IH]. left. exists (phrase2 w1 w2).
    split; [|split; [exact M | reflexivity]].
    unfold phrase2. apply phrase_ok_app; now apply word_phrase_ok.
  - inversion W as [|? ? W1 Wr]; subst.
    constructor; [|now apply IH]. left. exists w.
    split; [now apply word_phrase_ok | split; [exact M | reflexivity]].
  - inversion W as [|? ? W1 Wr]; subst.
    constructor; [|now apply IH]. right. exists w.
    split; [exact W1 | split; [exact M | reflexivity]].
Qed.

Lemma textToSignGloss_item_of text mode :
  exists items,
    textToSignGloss text mode = Some items
    /\ Forall (item_of (getWordAnimations mode) (getLetterPoses mode)) items.
Proof.
  destruct (gloss_words_scan (getWordAnimations mode) (getLetterPoses mode)
              (normalize text)) as (items & E & G).
  exists items. split; [exact E|].
  apply (greedy_scan_words _ _ _ _ G), normalize_words.
Qed.

(** Both alphabets hold a pose under every lower-case letter. *)
Lemma letter_known mode c :
  JsString.is_lower c = true ->
  exists p, JsObject.own (getLetterPoses mode) (String c EmptyString) = Some p.
Proof.
  destruct c as [[] [] [] [] [] [] [] []]; intros L; vm_compute in L;
    try discriminate L; destruct mode; eexists; reflexivity.
Qed.

Lemma spell_letters mode w :
  forallb JsString.is_lower (JsString.chars w) = true ->
  Forall2
    (fun c p =>
       JsObject.own (getLetterPoses mode) (String c EmptyString) = Some p)
    (JsString.chars w) (spell (getLetterPoses mode) w).
Proof.
  unfold spell. induction (JsString.chars w) as [|c cs IH]; intros L.
  - constructor.
  - cbn [forallb] in L. apply andb_true_iff in L as [Lc L].
    destruct (letter_known mode c Lc) as [p E].
    cbn [flat_map]. unfold JsObject.get at 1. rewrite E. cbn [app].
    constructor; [exact E | now apply IH].
Qed.

End Gloss.

Section GlossTheorems.
Import SignPoses.
Context {num : Type} `{JsNumber num}.

(** X1.  A fingerspelled item holds one pose for every letter of its word,
    in order, each the pose the alphabet of the mode gives that letter: the
    words are made of [a-z] only and both alphabets are complete, so the
    [filter(Boolean)] of the resolver drops nothing. *)
Theorem fingerspell_one_pose_per_letter :
  forall text mode,
    exists items,
      textToSignGloss text mode = Some items
      /\ Forall
           (fun it =>
              gloss_type it = fingerspell ->
              exists w poses,
                w <> ""
                /\ value it = JsString.toUpperCase w
                /\ animation it = None
                /\ letterPoses it = Some poses
                /\ List.length poses = String.length w
                /\ Forall2
                     (fun c p =>
                        JsObject.own (getLetterPoses mode) (String c EmptyString)
                        = Some p)
                     (JsString.chars w) poses)
           items.
Proof.
  intros text mode.
  destruct (textToSignGloss_item_of text mode) as (items & E & F).
  exists items. split; [exact E|].
  eapply Forall_impl; [|exact F].
  intros it [(p & _ & _ & ->) | (w & [Ne L] & _ & ->)] T; [discriminate T|].
  pose proof (spell_letters mode w L) as S.
  exists w, (spell (getLetterPoses mode) w).
  repeat (split; [first [exact Ne | reflexivity]|]).
  split; [|exact S].
  apply Forall2_length in S. rewrite <- S. unfold JsString.chars.
  clear. induction w as [|c w IH]; simpl; [reflexivity | now rewrite IH].
Qed.

Lemma prototype_phrase phrase :
  phrase_ok phrase -> In phrase JsObject.prototype_members ->
  phrase = "constructor".
Proof.
  unfold JsObject.prototype_members. intros K I. cbn [In] in I.
  repeat (destruct I as [<- | I];
          [first [reflexivity | vm_compute in K; discriminate K]|]).
  destruct I.
Qed.

(** X2.  A word item holds the animation the word table of the mode has
    under its phrase, with one exception: the word ["constructor"], which
    the bracket read finds on [Object.prototype].  No other inherited
    member can be reached, the phrases being made of [a-z] and spaces. *)
Theorem word_items_from_table :
  forall text mode,
    exists items,
      textToSignGloss text mode = Some items
      /\ Forall
           (fun it =>
              gloss_type it = word ->
              (exists phrase a,
                 JsObject.own (getWordAnimations mode) phrase = Some a
                 /\ it = {| gloss_type := word;
                            value := JsString.toUpperCase phrase;
                            animation := Some (TableAnimation a);
                            letterPoses := None |})
              \/ it = {| gloss_type := word;
                         value := "CONSTRUCTOR";
                         animation := Some (PrototypeMember "constructor");
                         letterPoses := None |})
           items.
Proof.
  intros text mode.
  destruct (textToSignGloss_item_of text mode) as (items & E & F).
  exists items. split; [exact E|].
  eapply Forall_impl; [|exact F].
  intros it [(p & K & M & ->) | (w & _ & _ & ->)] T; [|discriminate T].
  unfold table_item, matches in *.
  destruct (word_item_animation _ p M) as [(a & O & _) | (O & I & _)].
  - left. exists p, a. split; [exact O|].
    unfold JsObject.get. now rewrite O.
  - right. rewrite (prototype_phrase p K I) in *.
    unfold JsObject.get. rewrite O. reflexivity.
Qed.

End GlossTheorems.

Section GlossShape.
Import SignPoses.
Context {num : Type} `{JsNumber num}.

Lemma append_assoc (a b c : string) : (a ++ b) ++ c = a ++ (b ++ c).
Proof. induction a as [|x a IH]; simpl; [reflexivity | now rewrite IH]. Qed.

Lemma toUpperCase_app a b :
  JsString.toUpperCase (a ++ b)
  = JsString.toUpperCase a ++ JsString.toUpperCase b.
Proof.
  unfold JsString.toUpperCase.
  induction a as [|x a IH]; simpl; [reflexivity | now rewrite IH].
Qed.

Lemma concat_cons sep x y l :
  String.concat sep (x :: y :: l) = x ++ sep ++ String.concat sep (y :: l).
Proof. reflexivity. Qed.

Lemma greedy_scan_empty wordAnimations letters ws items :
  greedy_scan (num := num) wordAnimations letters ws items ->
  (ws = [] <-> items = []).
Proof. destruct 1; split; intros E; try discriminate E; reflexivity. Qed.

(** The values of the items, joined by spaces, are the words joined by
    spaces in upper case. *)
Lemma greedy_scan_values wordAnimations letters ws items :
  greedy_scan (num := num) wordAnimations letters ws items ->
  String.concat " " (List.map value items)
  = JsString.toUpperCase (String.concat " " ws).
Proof.
  induction 1 as [|w1 w2 w3 rest items M G IH|w1 w2 rest items _ M G IH
                  |w rest items _ _ M G IH|w rest items _ _ M G IH].
  - reflexivity.
  - pose proof (greedy_scan_empty _ _ _ _ G) as Emp.
    destruct rest as [|r rest].
    + rewrite (proj1 Emp eq_refl). reflexivity.
    + destruct items as [|it items]; [now destruct (proj2 Emp eq_refl)|].
      cbn [List.map] in *. rewrite concat_cons, IH.
      cbn [value table_item word_item]. unfold phrase3.
      rewrite !concat_cons, !toUpperCase_app, !append_assoc. reflexivity.
  - pose proof (greedy_scan_empty _ _ _ _ G) as Emp.
    destruct rest as [|r rest].
    + rewrite (proj1 Emp eq_refl). reflexivity.
    + destruct items as [|it items]; [now destruct (proj2 Emp eq_refl)|].
      cbn [List.map] in *. rewrite concat_cons, IH.
      cbn [value table_item word_item]. unfold phrase2.
      rewrite !concat_cons, !toUpperCase_app, !append_assoc. reflexivity.
  - pose proof (greedy_scan_empty _ _ _ _ G) as Emp.
    destruct rest as [|r rest].
    + rewrite (proj1 Emp eq_refl). reflexivity.
    + destruct items as [|it items]; [now destruct (proj2 Emp eq_refl)|].
      cbn [List.map] in *. rewrite concat_cons, IH.
      cbn [value table_item word_item].
      rewrite !concat_cons, !toUpperCase_app. reflexivity.
  - pose proof (greedy_scan_empty _ _ _ _ G) as Emp.
    destruct rest as [|r rest].
    + rewrite (proj1 Emp eq_refl). reflexivity.
    + destruct items as [|it items]; [now destruct (proj2 Emp eq_refl)|].
      cbn [List.map] in *. rewrite concat_cons, IH.
      cbn [value fingerspell_item].
      rewrite !concat_cons, !toUpperCase_app. reflexivity.
Qed.

(** The type and the value of an item: what the chips of the component
    show. *)
Definition shape (it : SignGlossItem num) : GlossType * string :=
  (gloss_type it, value it).

(** Two tables that know the same phrases cut a word list alike. *)
Lemma greedy_scan_shape A LA B LB :
  (forall p, matches (num := num) A p = matches B p) ->
  forall ws ia, greedy_scan A LA ws ia ->
  forall ib, greedy_scan B LB ws ib ->
  List.map shape ia = List.map shape ib.
Proof.
  intros Same ws ia GA.
  induction GA as [|w1 w2 w3 rest items M G IH|w1 w2 rest items N3 M G IH
                   |w rest items N3 N2 M G IH|w rest items N3 N2 M G IH];
    intros ib GB; inversion GB; subst;
    unfold no_three, no_two in *; rewrite ?Same in *;
    try congruence;
    cbn [List.map]; f_equal; auto.
Qed.

End GlossShape.

Section GlossModes.
Import SignPoses.
Context {num : Type} `{JsNumber num}.

(** Both word tables know the same phrases. *)
Lemma same_phrases p :
  matches (num := num) (getWordAnimations asl) p
  = matches (getWordAnimations isl) p.
Proof.
  unfold matches.
  destruct (in_dec string_dec p
              ["hello"; "thank you"; "water"; "school"; "good"]) as [I | N].
  - cbn [In] in I.
    repeat (destruct I as [<- | I]; [vm_compute; reflexivity|]). destruct I.
  - assert (E : JsObject.get (getWordAnimations (num := num) isl) p
                 = JsObject.get (getWordAnimations asl) p).
    { apply TableFacts.get_own_eq.
      unfold getWordAnimations, ISL_WORD_ANIMATIONS.
      apply TableFacts.own_spread_other.
      now replace (JsObject.keys (ISL_OVERRIDES (num := num)))
        with ["hello"; "thank you"; "water"; "school"; "good"]. }
    now rewrite E.
Qed.

(** X3.  The gloss reads back as the text: the values of the items, joined
    by single spaces, are the normalised words joined by single spaces, in
    upper case.  No word is lost, repeated or moved, whatever the phrases
    the table matched. *)
Theorem gloss_reads_back :
  forall text mode,
    exists items,
      textToSignGloss (num := num) text mode = Some items
      /\ String.concat " " (List.map value items)
         = JsString.toUpperCase (String.concat " " (normalize text))
      /\ (List.length items <= List.length (normalize text))%nat
      /\ (items = [] <-> normalize text = []).
Proof.
  intros text mode.
  destruct (gloss_words_scan (getWordAnimations mode) (getLetterPoses mode)
              (normalize text)) as (items & E & G).
  exists items. split; [exact E|].
  split; [now apply (greedy_scan_values _ _ _ _ G)|].
  split; [|symmetry; now apply (greedy_scan_empty _ _ _ _ G)].
  clear E. induction G; cbn [List.length]; lia.
Qed.

(** X4.  Switching between ASL and ISL never changes how a text is cut into
    items: both modes return items of the same types and values, in the
    same order.  Only the animations and the letter poses differ. *)
Theorem modes_cut_alike :
  forall text,
    exists items_asl items_isl,
      textToSignGloss (num := num) text asl = Some items_asl
      /\ textToSignGloss (num := num) text isl = Some items_isl
      /\ List.map shape items_asl = List.map shape items_isl
      /\ List.length items_asl = List.length items_isl.
Proof.
  intros text.
  destruct (gloss_words_scan (getWordAnimations asl) (getLetterPoses asl)
              (normalize text)) as (ia & Ea & Ga).
  destruct (gloss_words_scan (getWordAnimations isl) (getLetterPoses isl)
              (normalize text)) as (ib & Eb & Gb).
  exists ia, ib. split; [exact Ea|]. split; [exact Eb|].
  pose proof (greedy_scan_shape _ _ _ _ same_phrases _ _ Ga _ Gb) as S.
  split; [exact S|].
  now rewrite <- (length_map shape ia), S, length_map.
Qed.

End GlossModes.

(** *** The items of a render *)

Section GlossItems.
Import SignPoses.
Context {num : Type} `{JsNumber num}.

(** The three kinds of item the resolver returns. *)
Definition gloss_item_cases (mode : SignLanguageMode) (it : SignGlossItem num)
  : Prop :=
  (exists phrase a,
     phrase_ok phrase
     /\ JsObject.own (getWordAnimations mode) phrase = Some a
     /\ it = {| gloss_type := word;
                value := JsString.toUpperCase phrase;
                animation := Some (TableAnimation a);
                letterPoses := None |})
  \/ it = {| gloss_type := word;
             value := "CONSTRUCTOR";
             animation := Some (PrototypeMember "constructor");
             letterPoses := None |}
  \/ (exists w,
        word_ok w
        /\ it = {| gloss_type := fingerspell;
                   value := JsString.toUpperCase w;
                   animation := None;
                   letterPoses := Some (spell (getLetterPoses mode) w) |}).

Lemma item_of_cases mode it :
  item_of (getWordAnimations mode) (getLetterPoses mode) it ->
  gloss_item_cases mode it.
Proof.
  intros [(p & K & M & ->) | (w & W & _ & ->)].
  - unfold table_item, matches in *.
    destruct (word_item_animation _ p M) as [(a & O & _) | (O & I & _)].
    + left. exists p, a. split; [exact K|]. split; [exact O|].
      unfold JsObject.get. now rewrite O.
    + right. left. rewrite (prototype_phrase p K I) in *.
      unfold JsObject.get. rewrite O. reflexivity.
  - right. right. exists w. split; [exact W | reflexivity].
Qed.

Lemma glossItems_cases text mode :
  Forall (gloss_item_cases mode) (Playback.glossItems_of text mode).
Proof.
  unfold Playback.glossItems_of.
  destruct (textToSignGloss_item_of text mode) as (items & E & F).
  rewrite E. eapply Forall_impl; [|exact F]. apply item_of_cases.
Qed.

End GlossItems.

(** ** Letter case *)

Section LetterCase.

Lemma lower_char_kept c :
  kept (JsString.lower_char c)
  = JsString.is_lower c || JsString.is_upper c || JsString.is_space c.
Proof. destruct c as [[] [] [] [] [] [] [] []]; reflexivity. Qed.

Lemma lower_char_idem c :
  JsString.lower_char (JsString.lower_char c) = JsString.lower_char c.
Proof. destruct c as [[] [] [] [] [] [] [] []]; reflexivity. Qed.

Lemma lower_char_fixed c :
  JsString.is_lower c || JsString.is_space c = true ->
  JsString.lower_char c = c.
Proof.
  destruct c as [[] [] [] [] [] [] [] []]; intros L; vm_compute in L;
    try discriminate L; reflexivity.
Qed.

Lemma lower_upper_char c :
  JsString.is_lower c || Ascii.eqb c " " = true ->
  JsString.lower_char (JsString.upper_char c) = c.
Proof.
  destruct c as [[] [] [] [] [] [] [] []]; intros L; vm_compute in L;
    try discriminate L; reflexivity.
Qed.

Lemma lower_char_mark m c :
  JsString.is_lower m = false -> JsString.is_upper m = false ->
  JsString.is_upper_latin1 m = false ->
  (N_of_ascii m <? 224)%N = true ->
  Ascii.eqb m (JsString.lower_char c) = Ascii.eqb m c.
Proof.
  intros L U U1 B.
  destruct (Ascii.eqb_spec m (JsString.lower_char c)) as [E | NE];
    destruct (Ascii.eqb_spec m c) as [E' | NE']; trivial.
  - exfalso. subst m. apply NE'. clear NE'.
    revert L U U1 B.
    destruct c as [[] [] [] [] [] [] [] []]; vm_compute; congruence.
  - exfalso. subst m. apply NE. unfold JsString.lower_char.
    now rewrite U, U1.
Qed.

Lemma toLowerCase_idem s :
  JsString.toLowerCase (JsString.toLowerCase s) = JsString.toLowerCase s.
Proof.
  unfold JsString.toLowerCase.
  induction s as [|c s IH]; simpl; [reflexivity|].
  now rewrite lower_char_idem, IH.
Qed.

Lemma toLowerCase_toUpperCase p :
  phrase_ok p -> JsString.toLowerCase (JsString.toUpperCase p) = p.
Proof.
  unfold phrase_ok, JsString.toLowerCase, JsString.toUpperCase,
    JsString.chars.
  induction p as [|c p IH]; simpl; [reflexivity|].
  intros K. apply andb_true_iff in K as [Kc K].
  now rewrite (lower_upper_char c Kc), IH.
Qed.

(** Lower-casing commutes with the removal of what is no letter and no
    white space. *)
Lemma lower_filter s :
  JsString.toLowerCase
    (JsString.filter
       (fun c => JsString.is_lower c || JsString.is_upper c
                 || JsString.is_space c) s)
  = JsString.filter kept (JsString.toLowerCase s).
Proof.
  unfold JsString.toLowerCase.
  induction s as [|c s IH]; simpl; [reflexivity|].
  rewrite lower_char_kept.
  destruct (JsString.is_lower c || JsString.is_upper c || JsString.is_space c);
    simpl; now rewrite IH.
Qed.

End LetterCase.

(** ** Spell mode *)

Section SpellMode.
Import SignPoses Playback.

Lemma filter_filter {A : Type} (p q : A -> bool) l :
  (forall x, q x = true -> p x = true) ->
  List.filter q (List.filter p l) = List.filter q l.
Proof.
  intros Q. induction l as [|x l IH]; simpl; [reflexivity|].
  destruct (p x) eqn:P; simpl.
  - destruct (q x); now rewrite IH.
  - destruct (q x) eqn:E; [now rewrite (Q x E) in P | exact IH].
Qed.

Lemma normalize_letters text :
  flat_map JsString.chars (normalize text)
  = List.filter JsString.is_lower (JsString.chars (JsString.toLowerCase text)).
Proof.
  unfold normalize, JsString.split_spaces.
  rewrite flat_map_truthy, split_ws_chars.
  change (JsString.chars EmptyString) with (@nil ascii). cbn [app].
  fold kept. rewrite chars_filter.
  induction (JsString.chars (JsString.toLowerCase text)) as [|c l IH];
    simpl; [reflexivity|].
  unfold kept at 1.
  destruct (JsString.is_lower c) eqn:L; simpl.
  - assert (S : JsString.is_space c = false).
    { revert L. destruct c as [[] [] [] [] [] [] [] []]; vm_compute; congruence. }
    rewrite S. simpl. now rewrite IH.
  - destruct (JsString.is_space c) eqn:S; simpl; rewrite ?S; simpl; exact IH.
Qed.

End SpellMode.

Section SpellModeLetters.
Import SignPoses Utf16.

(** X5.  Spell mode and sign mode on any text, with the lower-casing of
    Unicode.  The characters of spell mode are the letters of [A-Z] and
    [a-z] and the white space of the text, in order, the capitals made
    small; white space stays, as an item of its own.  Its letters are the
    letters of the words the gloss resolver works on, unless the text
    holds the Kelvin sign U+212A or the dotted capital I U+0130: spell
    mode strips before it lower-cases and drops them, the resolver
    lower-cases first and reads [k] and [i].  On U+0000..U+00FF the
    characters are those of [Playback.spellChars_of]. *)
Theorem spell_mode_letters :
  forall toLowerCase,
    Lowercasing toLowerCase ->
    forall text,
      spellChars toLowerCase text
      = List.map lower_ascii
          (List.filter (fun u => is_lower u || is_upper u || is_space u) text)
      /\ Forall (fun u => is_lower u = true \/ is_space u = true)
           (spellChars toLowerCase text)
      /\ (Forall (fun u => (u =? 0x212A)%N || (u =? 0x130)%N = false) text ->
          List.filter is_lower (spellChars toLowerCase text)
          = flat_map of_string (normalize toLowerCase text))
      /\ (forall s : string,
            text = of_string s ->
            spellChars toLowerCase text
            = List.map JsString.code (Playback.spellChars_of s))
      /\ spellChars toLowerCase [0x212A%N] = []
      /\ normalize toLowerCase [0x212A%N] = ["k"].
Proof.
  intros toLowerCase L text.
  split; [apply (wide_spellChars_letters toLowerCase L)|].
  split; [apply (wide_spellChars_units toLowerCase L)|].
  split; [apply (spell_and_gloss_letters toLowerCase L)|].
  split; [intros s ->; apply (spellChars_of_string toLowerCase L)|].
  split; [apply (wide_spellChars_kelvin toLowerCase L)
         | apply (wide_normalize_kelvin toLowerCase L)].
Qed.

(** ["Hi 5!"] between curly quotes. *)
Lemma spell_mode_letters_witness :
  spellChars toLowerCase_basic [0x201C; 72; 105; 32; 53; 33; 0x201D]%N
  = [104; 105; 32]%N
  /\ flat_map of_string
       (normalize toLowerCase_basic [0x201C; 72; 105; 32; 53; 33; 0x201D]%N)
     = [104; 105]%N.
Proof.
  destruct (spell_mode_letters toLowerCase_basic basic_lowercasing
              [0x201C; 72; 105; 32; 53; 33; 0x201D]%N) as (A & _ & B & _).
  split; [exact A|].
  rewrite <- B by (repeat constructor). rewrite A. reflexivity.
Defined.

End SpellModeLetters.

(** ** The effects of a render *)

Section DisplayEffects.
Import SignPoses LipSync Display.
Context {num : Type} `{JsNumber num}.

Lemma own_In {V : Type} (o : JsObject.t V) k v :
  JsObject.own o k = Some v -> In (k, v) o.
Proof.
  induction o as [|[k' v'] o IH]; simpl; [discriminate|].
  destruct (String.eqb k k') eqn:E.
  - apply String.eqb_eq in E. intros [= ->]. left. now subst.
  - intros O. right. now apply IH.
Qed.

(** Every animation of the two word tables has a first pose. *)
Lemma table_poses mode phrase (a : SignAnimation num) :
  JsObject.own (getWordAnimations mode) phrase = Some a -> poses a <> [].
Proof.
  intros O. apply own_In in O.
  assert (F : forallb (fun kv : string * SignAnimation num =>
                         negb (List.length (poses (snd kv)) =? 0)%nat)
                (getWordAnimations mode) = true)
    by (destruct mode; vm_compute; reflexivity).
  rewrite forallb_forall in F. specialize (F _ O). cbn [snd] in F.
  intros E. rewrite E in F. discriminate F.
Qed.

Lemma space_unknown mode c :
  JsString.is_lower c = false ->
  JsObject.get (getLetterPoses (num := num) mode) (String c EmptyString)
  = JsObject.Undefined.
Proof.
  destruct c as [[] [] [] [] [] [] [] []]; intros L; vm_compute in L;
    try discriminate L; destruct mode; reflexivity.
Qed.

Lemma spellChars_kept text c :
  In c (Playback.spellChars_of text) ->
  JsString.is_lower c = true \/ JsString.is_space c = true.
Proof.
  unfold Playback.spellChars_of. rewrite lower_filter, chars_filter.
  intros I. apply filter_In in I as [_ K]. unfold kept in K.
  now apply orb_true_iff in K.
Qed.

Lemma spell_length mode w :
  forallb JsString.is_lower (JsString.chars w) = true ->
  List.length (spell (getLetterPoses (num := num) mode) w) = String.length w.
Proof.
  intros L. pose proof (spell_letters mode w L) as S.
  apply Forall2_length in S. rewrite <- S. unfold JsString.chars.
  clear. induction w as [|c w IH]; simpl; [reflexivity | now rewrite IH].
Qed.

Variable text : string.
Variable Math_sin : num -> num.

(** X6.  The pose a render shows.  For a word sign it is the pose of the
    current keyframe, or the first pose once the keyframe counter has run
    past the last one: never [undefined], every animation of the tables
    having a pose.  For a fingerspelled word it is the pose of the letter
    at the letter counter, held at the last letter once the counter has run
    past it; the [REST_POSE] fallback is never used, a word having a
    letter.  In spell mode a letter shows its pose and white space shows
    [REST_POSE].  The effect throws on the word item of ["constructor"]
    and only there. *)
Theorem pose_effect_shows :
  forall s : Playback.State num,
    match pose_effect text Math_sin s with
    | Sets u =>
        exists p,
          shown u = Some p
          /\ ((exists item a,
                 currentItem text s = Some item
                 /\ animation item = Some (TableAnimation a)
                 /\ nth_error (poses a)
                      (if (Playback.currentKeyframe s <? List.length (poses a))%nat
                       then Playback.currentKeyframe s else 0%nat)
                    = Some p)
              \/ (exists item letters,
                    currentItem text s = Some item
                    /\ gloss_type item = fingerspell
                    /\ letterPoses item = Some letters
                    /\ nth_error letters
                         (Nat.min (Playback.currentLetterIndex s)
                            (List.length letters - 1))
                       = Some p)
              \/ (exists c,
                    currentChar text s = Some c
                    /\ (JsObject.own (getLetterPoses (Playback.languageMode s))
                          (String c EmptyString) = Some p
                        \/ (JsString.is_space c = true /\ p = REST_POSE))))
    | Skips => currentItem text s = None /\ currentChar text s = None
    | Throws =>
        exists item,
          currentItem text s = Some item /\ value item = "CONSTRUCTOR"
    end.
Proof.
  intros s. unfold pose_effect.
  destruct (Playback.signMode s) eqn:Mode.
  - (* signs *)
    assert (NoChar : currentChar text s = None)
      by (unfold currentChar; now rewrite Mode).
    destruct (currentItem text s) as [item|] eqn:Item; [|now split].
    assert (I : In item (Playback.glossItems_of text (Playback.languageMode s))).
    { unfold currentItem in Item. rewrite Mode in Item.
      now apply nth_error_In in Item. }
    pose proof (glossItems_cases text (Playback.languageMode s)) as F.
    rewrite Forall_forall in F.
    destruct (F _ I) as [(ph & a & _ & O & ->) | [-> | (w & [Ne L] & ->)]];
      cbn [gloss_type animation letterPoses value].
    + pose proof (table_poses _ _ _ O) as P.
      destruct (nth_error (poses a) (Playback.currentKeyframe s)) as [p|] eqn:K.
      * exists p. split; [reflexivity|]. left. eexists. exists a.
        split; [reflexivity|]. split; [reflexivity|].
        assert (Lt : (Playback.currentKeyframe s < List.length (poses a))%nat)
          by (apply nth_error_Some; congruence).
        apply Nat.ltb_lt in Lt. now rewrite Lt.
      * destruct (poses a) as [|p0 ps] eqn:Ps; [now destruct P|].
        exists p0. split; [reflexivity|]. left. eexists. exists a.
        split; [reflexivity|]. split; [reflexivity|]. rewrite Ps.
        apply nth_error_None in K. apply Nat.ltb_ge in K. now rewrite K.
    + eexists. split; reflexivity.
    + pose proof (spell_length (Playback.languageMode s) w L) as Len.
      assert (Pos : (0 < String.length w)%nat)
        by (destruct w; [now destruct Ne | simpl; lia]).
      destruct (spell (getLetterPoses (Playback.languageMode s)) w)
        as [|p0 ps] eqn:Sp; [simpl in Len; lia|].
      eexists. split; [reflexivity|]. right. left. eexists. eexists.
      split; [reflexivity|]. split; [reflexivity|]. split; [reflexivity|].
      apply nth_error_nth'. simpl. lia.
  - (* spell *)
    assert (NoItem : currentItem text s = None)
      by (unfold currentItem; now rewrite Mode).
    destruct (currentChar text s) as [c|] eqn:Char; [|now split].
    assert (I : In c (Playback.spellChars_of text)).
    { unfold currentChar in Char. rewrite Mode in Char.
      now apply nth_error_In in Char. }
    destruct (JsString.is_lower c) eqn:L.
    + destruct (letter_known (Playback.languageMode s) c L) as [p O].
      unfold JsObject.get. rewrite O. exists p. split; [reflexivity|].
      right. right. exists c. split; [reflexivity|]. now left.
    + rewrite (space_unknown _ c L). exists REST_POSE. split; [reflexivity|].
      right. right. exists c. split; [reflexivity|]. right.
      destruct (spellChars_kept _ _ I) as [L' | S]; [congruence|].
      now split.
Qed.

End DisplayEffects.

Section LipSyncEffect.
Import SignPoses LipSync Display.
Context {num : Type} `{JsNumber num}.
Local Open Scope js_scope.

Lemma frames_from_characters (ms : num) : forall cs t,
  List.map character (frames_from ms t cs) = cs.
Proof.
  induction cs as [|c cs IH]; intros t; simpl; [reflexivity|].
  now rewrite IH.
Qed.

Lemma generateLipSync_characters text (wpm : num) :
  List.map character (generateLipSync text wpm)
  = JsString.chars (JsString.toLowerCase text).
Proof. rewrite generateLipSync_frames. apply frames_from_characters. Qed.

Variable text : string.

(** X7.  The lip-sync frames a render prepares.  For a word sign they spell
    its phrase, one frame per character of the phrase (the upper-cased
    value read back in lower case), at [120 * speed] words per minute.  A
    fingerspelled word prepares none: the frames of the item before stay.
    In spell mode the frames are the single frame of the current
    character, from offset zero, at 60 words per minute. *)
Theorem lipSync_effect_frames :
  forall s : Playback.State num,
    (forall item,
       currentItem text s = Some item -> gloss_type item = word ->
       exists phrase,
         value item = JsString.toUpperCase phrase
         /\ lipSync_effect text s
            = Some (generateLipSync (value item) (#120 * Playback.speed s))
         /\ List.map character
              (generateLipSync (value item) (#120 * Playback.speed s))
            = JsString.chars phrase)
    /\ (forall item,
          currentItem text s = Some item -> gloss_type item = fingerspell ->
          lipSync_effect text s = None)
    /\ (forall c,
          currentChar text s = Some c ->
          lipSync_effect text s
          = Some [ {| viseme := viseme_of c;
                      character := c;
                      time := #0;
                      duration :=
                        if isVowel c then (#60000 / #60) / #5 * #1.3
                        else (#60000 / #60) / #5 * #0.8 |} ])
    /\ (currentItem text s = None -> currentChar text s = None ->
        lipSync_effect text s = None).
Proof.
  intros s. split; [|split; [|split]].
  - intros item Item W.
    assert (I : In item (Playback.glossItems_of text (Playback.languageMode s))).
    { unfold currentItem in Item. destruct (Playback.signMode s);
        [now apply nth_error_In in Item | discriminate Item]. }
    pose proof (glossItems_cases text (Playback.languageMode s)) as F.
    rewrite Forall_forall in F. unfold lipSync_effect. rewrite Item.
    destruct (F _ I) as [(ph & a & K & _ & ->) | [-> | (w & _ & ->)]];
      [| |discriminate W]; cbn [gloss_type animation value].
    + exists ph. split; [reflexivity|]. split; [reflexivity|].
      now rewrite generateLipSync_characters, toLowerCase_toUpperCase.
    + exists "constructor"%string. split; [reflexivity|].
      split; [reflexivity|]. rewrite generateLipSync_characters. reflexivity.
  - intros item Item W. unfold lipSync_effect. rewrite Item.
    assert (Mode : Playback.signMode s = Playback.signs).
    { unfold currentItem in Item. destruct (Playback.signMode s);
        [reflexivity | discriminate Item]. }
    rewrite Mode. destruct item as [[] v [a|] l]; try discriminate W;
      reflexivity.
  - intros c Char.
    assert (Mode : Playback.signMode s = Playback.spell).
    { unfold currentChar in Char. destruct (Playback.signMode s);
        [discriminate Char | reflexivity]. }
    assert (I : In c (Playback.spellChars_of text)).
    { unfold currentChar in Char. rewrite Mode in Char.
      now apply nth_error_In in Char. }
    unfold lipSync_effect, currentItem. rewrite Mode, Char.
    rewrite generateLipSync_frames.
    assert (Low : JsString.toLowerCase (String c EmptyString)
                  = String c EmptyString).
    { cbn. rewrite lower_char_fixed; [reflexivity|].
      apply orb_true_iff. now apply (spellChars_kept text). }
    rewrite Low. reflexivity.
  - intros Item Char. unfold lipSync_effect. rewrite Item, Char.
    now destruct (Playback.signMode s).
Qed.

End LipSyncEffect.

(** ** Letters and silence *)

Section Visemes.
Import LipSync.
Context {num : Type} `{JsNumber num}.

(** The viseme of a character: a letter has an entry in both tables, and
    anything else is the rest viseme. *)
Definition viseme_case (c : ascii) (v : Viseme num) : Prop :=
  (JsString.is_lower c = true
   /\ name v <> "Rest"
   /\ ~ In (name v) ["TH"; "AA (father)"; "OO (food)"]
   /\ exists key,
        JsObject.own CHAR_TO_VISEME (String c EmptyString) = Some key
        /\ JsObject.own VISEMES key = Some v)
  \/ (JsString.is_lower c = false /\ v = VISEMES_rest).

Lemma viseme_of_case c : viseme_case c (viseme_of c).
Proof.
  destruct c as [[] [] [] [] [] [] [] []];
    first
      [ right; split; reflexivity
      | left; split; [reflexivity|];
        split; [vm_compute; discriminate|];
        split; [vm_compute; intuition discriminate|];
        eexists; split; vm_compute; reflexivity ].
Qed.

Lemma frames_from_visemes (ms : num) : forall cs t,
  Forall (fun f => viseme f = viseme_of (character f)) (frames_from ms t cs).
Proof.
  induction cs as [|c cs IH]; intros t; simpl; constructor;
    [reflexivity | apply IH].
Qed.

Lemma lower_char_not_upper c :
  JsString.is_upper (JsString.lower_char c) = false.
Proof. destruct c as [[] [] [] [] [] [] [] []]; reflexivity. Qed.

(** X8.  A frame of [generateLipSync] shows a mouth shape of its own for a
    letter, [A-Z] read as [a-z], and the rest viseme for every other
    character: digits, punctuation and white space are silence.  Each of
    the 26 letters has an entry in [CHAR_TO_VISEME] whose key [VISEMES]
    holds, so neither fallback to ['rest'] is taken for a letter; the
    visemes [th], [aa] and [oo] are never shown. *)
Theorem letters_and_silence :
  forall text (wpm : num),
    Forall
      (fun f =>
         JsString.is_upper (character f) = false
         /\ viseme_case (character f) (viseme f))
      (generateLipSync text wpm).
Proof.
  intros text wpm. rewrite generateLipSync_frames.
  apply Forall_forall. intros f I.
  match type of I with In f (frames_from ?ms ?t ?cs) =>
    pose proof (frames_from_visemes ms cs t) as V;
    pose proof (frames_from_characters ms cs t) as C
  end.
  rewrite Forall_forall in V. rewrite (V f I). split.
  - assert (Ic : In (character f) (JsString.chars (JsString.toLowerCase text)))
      by (rewrite <- C; now apply in_map).
    unfold JsString.toLowerCase in Ic. rewrite chars_map in Ic.
    apply in_map_iff in Ic as (c & <- & _). apply lower_char_not_upper.
  - apply viseme_of_case.
Qed.

End Visemes.

(** ** The order of doubles that are not negative *)

Module FloatCompare.
Import FloatSign.
Open Scope Z_scope.

Lemma ltb_finite m1 e1 m2 e2 :
  SFltb (S754_finite false m1 e1) (S754_finite false m2 e2) = true
  <-> e1 < e2 \/ (e1 = e2 /\ (m1 < m2)%positive).
Proof.
  unfold SFltb, SFcompare.
  change (Pos.compare_cont Eq m1 m2) with (m1 ?= m2)%positive.
  destruct (Z.compare_spec e1 e2) as [E|L|G];
    [destruct (Pos.compare_spec m1 m2) as [E'|L'|G']| |];
    split; intros T; try reflexivity; try discriminate T; lia.
Qed.

(** [<=] is transitive from two doubles that are not negative on, whatever
    the third. *)
Lemma leb_trans_any x y z :
  nonneg x -> nonneg y ->
  SFleb x y = true -> SFleb y z = true -> SFleb x z = true.
Proof.
  destruct x as [[|]|[|]| |[|] m1 e1]; try contradiction;
    destruct y as [[|]|[|]| |[|] m2 e2]; try contradiction;
    destruct z as [[|]|[|]| |[|] m3 e3];
    intros _ _; try reflexivity; try discriminate;
    try (intros T; discriminate T).
  rewrite !FloatOrder.leb_finite. lia.
Qed.

(** What is below a double that is not negative is not at or above it. *)
Lemma ltb_not_leb x t : nonneg x -> SFltb t x = true -> SFleb x t = false.
Proof.
  destruct x as [[|]|[|]| |[|] m1 e1]; try contradiction;
    destruct t as [[|]|[|]| |[|] m2 e2];
    intros _; try reflexivity; try discriminate.
  rewrite ltb_finite. intros L.
  destruct (SFleb (S754_finite false m1 e1) (S754_finite false m2 e2)) eqn:E;
    [|reflexivity].
  apply FloatOrder.leb_finite in E. lia.
Qed.

(** Two doubles that are not negative compare one way or the other. *)
Lemma ltb_or_leb x y :
  nonneg x -> nonneg y -> SFltb x y = false -> SFleb y x = true.
Proof.
  destruct x as [[|]|[|]| |[|] m1 e1]; try contradiction;
    destruct y as [[|]|[|]| |[|] m2 e2]; try contradiction;
    intros _ _; try reflexivity; try discriminate.
  intros L. apply FloatOrder.leb_finite.
  destruct (SFltb (S754_finite false m1 e1) (S754_finite false m2 e2)) eqn:T;
    [discriminate L|].
  assert (N : ~ (e1 < e2 \/ (e1 = e2 /\ (m1 < m2)%positive))).
  { intros C. apply ltb_finite in C. congruence. }
  lia.
Qed.

Lemma ltb_leb x y : SFltb x y = true -> SFleb x y = true.
Proof. unfold SFltb, SFleb. now destruct (SFcompare x y) as [[| |]|]. Qed.

End FloatCompare.

(** ** The frame in force *)

Section FrameInForce.
Import LipSync.

Lemma scan_down_skip {num : Type} `{JsNumber num} (t : num) :
  forall (later : list (LipSyncFrame num)) rest,
  Forall (fun g => num_leb (time g) t = false) later ->
  scan_down (rev later ++ rest) t = scan_down rest t.
Proof.
  induction later as [|g later IH] using rev_ind; intros rest F.
  - reflexivity.
  - apply Forall_app in F as [F1 F2]. inversion F2 as [|? ? G _]; subst.
    rewrite rev_app_distr. cbn [rev app scan_down]. rewrite G. now apply IH.
Qed.

(** A frame at or before [t] with every later frame after [t] is the one
    [getVisemeAtTime] returns. *)
Lemma getVisemeAtTime_at {num : Type} `{JsNumber num}
    (before : list (LipSyncFrame num)) f after t :
  num_leb (time f) t = true ->
  Forall (fun g => num_leb (time g) t = false) after ->
  getVisemeAtTime (before ++ f :: after) t = viseme f.
Proof.
  intros Le F. unfold getVisemeAtTime.
  destruct (before ++ f :: after)%list as [|x l] eqn:E;
    [now destruct before|].
  rewrite <- E, rev_app_distr. cbn [rev]. rewrite <- app_assoc.
  rewrite scan_down_skip by exact F. cbn [app scan_down]. now rewrite Le.
Qed.

Lemma sorted_suffix {A : Type} (R : A -> A -> Prop) l1 l2 :
  StronglySorted R (l1 ++ l2) -> StronglySorted R l2.
Proof.
  induction l1 as [|x l1 IH]; [trivial|].
  cbn [app]. intros S. inversion S; subst. now apply IH.
Qed.

Lemma generateLipSync_nonneg text (wpm : float) :
  PrimFloat.ltb 0 wpm = true ->
  Forall (fun f => nonneg_double (time f)) (generateLipSync text wpm).
Proof.
  intros P. rewrite generateLipSync_frames.
  apply frames_from_nonneg; [now apply msPerChar_nonneg|].
  unfold nonneg_double. vm_compute. exact I.
Qed.

(** X9.  In doubles, for a positive rate: while [t] is at or after the
    start of a frame of [generateLipSync] and before the start of the next
    one, [getVisemeAtTime] returns the viseme of that frame; from the start
    of the last frame on it returns the viseme of the last frame, however
    large [t] is. *)
Theorem frame_in_force :
  forall text (wpm t : float) before f after,
    num_ltb (num_lit 0) wpm = true ->
    generateLipSync text wpm = (before ++ f :: after)%list ->
    num_leb (time f) t = true ->
    match after with
    | [] => True
    | g :: _ => num_ltb t (time g) = true
    end ->
    getVisemeAtTime (generateLipSync text wpm) t = viseme f.
Proof.
  intros text wpm t before f after P E Le Next.
  pose proof (generateLipSync_sorted text wpm P) as Srt.
  pose proof (generateLipSync_nonneg text wpm P) as NN.
  rewrite E in *. apply getVisemeAtTime_at; [exact Le|].
  destruct after as [|g rest]; [constructor|].
  replace (before ++ f :: g :: rest)%list
    with ((before ++ [f]) ++ g :: rest)%list in Srt
    by (now rewrite <- app_assoc).
  apply sorted_suffix in Srt.
  apply Forall_app in NN as [_ NN]. apply Forall_inv_tail in NN.
  pose proof (Forall_inv NN) as Ng.
  cbn [num_leb num_ltb float_number] in *.
  assert (Gt : PrimFloat.leb (time g) t = false).
  { rewrite FloatAxioms.leb_spec. apply FloatCompare.ltb_not_leb; [exact Ng|].
    now rewrite <- FloatAxioms.ltb_spec. }
  constructor; [exact Gt|].
  inversion Srt as [|? ? _ After]; subst.
  rewrite Forall_forall in *. intros h I.
  destruct (PrimFloat.leb (time h) t) eqn:Lh; [|reflexivity].
  exfalso. rewrite FloatAxioms.leb_spec in Gt, Lh.
  specialize (After h I). cbv beta in After.
  rewrite FloatAxioms.leb_spec in After.
  rewrite (FloatCompare.leb_trans_any _ _ _ Ng (NN h (or_intror I)) After Lh)
    in Gt.
  discriminate Gt.
Qed.

Lemma frame_in_force_witness :
  exists f,
    nth_error (generateLipSync (num := float) "Hi you" (num_lit 120)) 1 = Some f
    /\ getVisemeAtTime (generateLipSync (num := float) "Hi you" (num_lit 120))
         (num_lit 100)
       = viseme f.
Proof.
  eexists. split; [vm_compute; reflexivity|].
  apply (frame_in_force "Hi you" (num_lit 120) (num_lit 100)
           (firstn 1 (generateLipSync "Hi you" (num_lit 120))) _
           (skipn 2 (generateLipSync "Hi you" (num_lit 120))));
    vm_compute; reflexivity.
Defined.

End FrameInForce.

(** ** Blending towards a value already reached *)

Module FloatBlend.
Import FloatFacts.
Open Scope float_scope.

(** Two doubles that [===] holds of are two zeros or the same finite
    double. *)
Lemma eqb_cases x y :
  SFeqb x y = true -> is_real x ->
  (exists sx sy, x = S754_zero sx /\ y = S754_zero sy)
  \/ (exists s m e, x = S754_finite s m e /\ y = S754_finite s m e).
Proof.
  destruct x as [sx|sx| |[|] mx ex]; try contradiction; intros E _;
    destruct y as [sy|[|]| |[|] my ey]; try discriminate E.
  - left. now exists sx, sy.
  - right. exists true, mx, ex. split; [reflexivity|].
    unfold SFeqb, SFcompare in E.
    destruct (Z.compare_spec ex ey) as [Ee | |]; try discriminate E.
    subst ey.
    destruct (Pos.compare_cont Eq mx my) eqn:C; try discriminate E.
    apply Pos.compare_eq in C. now subst my.
  - right. exists false, mx, ex. split; [reflexivity|].
    unfold SFeqb, SFcompare in E.
    destruct (Z.compare_spec ex ey) as [Ee | |]; try discriminate E.
    subst ey.
    destruct (Pos.compare_cont Eq mx my) eqn:C; try discriminate E.
    apply Pos.compare_eq in C. now subst my.
Qed.

Lemma sub_reached x y :
  SFeqb x y = true -> is_real x -> exists s, SF64sub y x = S754_zero s.
Proof.
  intros E R.
  destruct (eqb_cases x y E R) as [(sx & sy & -> & ->) | (s & m & e & -> & ->)].
  - destruct sx, sy; eexists; reflexivity.
  - exists false. unfold SF64sub, SFsub.
    rewrite Z.min_id, Z.sub_diag. reflexivity.
Qed.

Lemma mul_zero s t :
  is_real t -> exists s', SF64mul (S754_zero s) t = S754_zero s'.
Proof.
  destruct t as [st|st| |st mt et]; try contradiction; intros _;
    eexists; reflexivity.
Qed.

Lemma add_zero x s : is_real x -> SFeqb (SF64add x (S754_zero s)) x = true.
Proof.
  destruct x as [sx|sx| |sx mx ex]; try contradiction; intros _.
  - now destruct sx, s.
  - apply (SFeqb_refl (S754_finite sx mx ex)). exact I.
Qed.

(** Blending from [a] towards a [b] that [a] already equals gives [a], at
    every finite [t]. *)
Lemma lerp_reached (a b t : float) :
  is_finite a = true -> is_finite t = true -> (a =? b) = true ->
  (a + (b - a) * t =? a) = true.
Proof.
  intros Fa Ft E. apply finite_is_real in Fa, Ft.
  rewrite FloatAxioms.eqb_spec in E.
  rewrite FloatAxioms.eqb_spec, FloatAxioms.add_spec, FloatAxioms.mul_spec,
    FloatAxioms.sub_spec.
  destruct (sub_reached _ _ E Fa) as [s ->].
  destruct (mul_zero s _ Ft) as [s' ->].
  now apply add_zero.
Qed.

Lemma eqb_refl_finite a : is_finite a = true -> (a =? a) = true.
Proof.
  intros F. rewrite FloatAxioms.eqb_spec. apply SFeqb_refl.
  now apply finite_is_real.
Qed.

(** [Math.min(1, x)] of a finite [x] is finite. *)
Lemma min_one_finite x :
  is_finite x = true -> is_finite (Float64.min 1 x) = true.
Proof.
  intros F. unfold Float64.min.
  assert (N : is_nan x = false).
  { unfold is_finite in F. apply negb_true_iff, orb_false_iff in F. tauto. }
  rewrite N. change (is_nan 1) with false. cbn [orb].
  destruct (1 <? x); [reflexivity|].
  destruct (x <? 1); [exact F|].
  destruct (get_sign 1); [reflexivity | exact F].
Qed.

End FloatBlend.

Section BlendFields.
Import SignPoses.

(** Field by field: blending from values towards values they equal. *)
Lemma lerp_reached_fields (t : float) : forall xs ys : list float,
  PrimFloat.is_finite t = true ->
  Forall (fun x => PrimFloat.is_finite x = true) xs ->
  fields_eqb xs ys = true ->
  fields_eqb (List.map (fun ab => lerp t (fst ab) (snd ab)) (combine xs ys)) xs
  = true.
Proof.
  intros xs ys Ft Fx E. unfold fields_eqb in *.
  apply andb_true_iff in E as [L E]. apply Nat.eqb_eq in L.
  apply andb_true_iff. split.
  - rewrite length_map, length_combine, <- L, Nat.min_id. apply Nat.eqb_refl.
  - clear L. revert ys Fx E.
    induction xs as [|x xs IH]; intros [|y ys] Fx E; try reflexivity.
    inversion Fx as [|? ? Fx1 Fx2]; subst.
    cbn [combine List.map forallb fst snd] in *.
    apply andb_true_iff in E as [E1 E2]. apply andb_true_iff. split.
    + unfold lerp. cbn [num_add num_sub num_mul num_eqb float_number] in *.
      now apply FloatBlend.lerp_reached.
    + now apply IH.
Qed.

Lemma fields_eqb_refl (xs : list float) :
  Forall (fun x => PrimFloat.is_finite x = true) xs -> fields_eqb xs xs = true.
Proof.
  intros F. unfold fields_eqb. rewrite Nat.eqb_refl. cbn [andb].
  induction F as [|x xs Fx _ IH]; [reflexivity|].
  cbn [combine forallb fst snd]. rewrite IH, andb_true_r.
  now apply FloatBlend.eqb_refl_finite.
Qed.

(** X10.  In doubles, interpolating from a pose to a pose it already equals
    gives that pose at every finite [t]: every finger field and the wrist
    of [interpolatePose(A, B, t)] equal those of [A] whenever [A] is finite
    and [B] equals [A] field by field.  A hand held on a sign does not
    drift. *)
Theorem interpolatePose_held :
  forall (A B : HandPose float) (t : float),
    finite_pose A -> PrimFloat.is_finite t = true ->
    pose_eqb A B = true ->
    pose_eqb (interpolatePose A B t) A = true.
Proof.
  intros A B t FA Ft E. unfold pose_eqb in *.
  rewrite interpolatePose_fields. now apply lerp_reached_fields.
Qed.

Lemma interpolatePose_held_witness :
  pose_eqb
    (interpolatePose (letter_pose asl "o") (letter_pose asl "o")
       (num_lit 0.3))
    (letter_pose asl "o") = true.
Proof.
  apply interpolatePose_held;
    [unfold finite_pose; vm_compute; repeat constructor
    | vm_compute; reflexivity | vm_compute; reflexivity].
Defined.

End BlendFields.

(** ** Blending visemes and expressions *)

Section VisemeBlend.
Import LipSync Blending.

Definition viseme_fields {num : Type} (v : Viseme num) : list num :=
  [mouthOpen v; mouthWidth v; lipRound v; tongueOut v; jawOpen v;
   upperLipRaise v].

Lemma lerpViseme_fields {num : Type} `{JsNumber num} (a b : Viseme num) t :
  viseme_fields (lerpViseme a b t)
  = List.map (fun xy => SignPoses.lerp t (fst xy) (snd xy))
      (combine (viseme_fields a) (viseme_fields b)).
Proof. reflexivity. Qed.

(** X11.  [lerpViseme] in doubles.  At [t = 0] it returns [a]: its name,
    and fields equal to those of [a] when these are finite and no
    difference overflows.  At [t = 1] it returns the name of [b] and, on
    every field, the double [a + (b - a)].  The name is that of [b] when
    [t > 0.5] holds and that of [a] whenever it does not: up to and at
    [0.5], below [0], and at NaN.  Blending towards a viseme
    whose fields are already reached leaves the fields where they are, at
    every finite [t]. *)
Theorem lerpViseme_ends :
  forall a b : Viseme float,
    (Forall (fun x => PrimFloat.is_finite x = true) (viseme_fields a) ->
     Forall (fun xy => PrimFloat.is_finite (PrimFloat.sub (snd xy) (fst xy)) = true)
       (combine (viseme_fields a) (viseme_fields b)) ->
     name (lerpViseme a b (num_lit 0)) = name a
     /\ fields_eqb (viseme_fields (lerpViseme a b (num_lit 0))) (viseme_fields a)
        = true)
    /\ name (lerpViseme a b (num_lit 1)) = name b
    /\ viseme_fields (lerpViseme a b (num_lit 1))
       = List.map (fun xy => PrimFloat.add (fst xy) (PrimFloat.sub (snd xy) (fst xy)))
           (combine (viseme_fields a) (viseme_fields b))
    /\ name (lerpViseme a b (num_lit 0.5)) = name a
    /\ (forall t, num_ltb (num_lit 0.5) t = true ->
                  name (lerpViseme a b t) = name b)
    /\ (forall t, num_ltb (num_lit 0.5) t = false ->
                  name (lerpViseme a b t) = name a)
    /\ (forall t,
          Forall (fun x => PrimFloat.is_finite x = true) (viseme_fields a) ->
          PrimFloat.is_finite t = true ->
          fields_eqb (viseme_fields a) (viseme_fields b) = true ->
          fields_eqb (viseme_fields (lerpViseme a b t)) (viseme_fields a) = true).
Proof.
  intros a b. split; [|split; [|split; [|split; [|split; [|split]]]]].
  - intros Fa Fd. split; [reflexivity|].
    rewrite lerpViseme_fields. now apply lerp_zero_fields.
  - reflexivity.
  - rewrite lerpViseme_fields. apply map_ext. intros [x y].
    unfold SignPoses.lerp.
    cbn [num_add num_sub num_mul num_lit float_number fst snd].
    change (Float64.lit 1) with 1%float. now rewrite FloatFacts.mul_one.
  - reflexivity.
  - intros t T. unfold lerpViseme. cbn [name]. now rewrite T.
  - intros t T. unfold lerpViseme. cbn [name]. now rewrite T.
  - intros t Fa Ft E. rewrite lerpViseme_fields.
    now apply lerp_reached_fields.
Qed.

Lemma lerpViseme_ends_witness :
  name (lerpViseme (num := float) VISEMES_rest
          (viseme_of (num := float) "a"%char) (num_lit 0)) = "Rest"
  /\ fields_eqb
       (viseme_fields
          (lerpViseme (num := float) VISEMES_rest
             (viseme_of (num := float) "a"%char) (num_lit 0)))
       (viseme_fields (VISEMES_rest (num := float))) = true.
Proof.
  apply (proj1 (lerpViseme_ends VISEMES_rest (viseme_of "a"%char)));
    vm_compute; repeat constructor.
Defined.

End VisemeBlend.

Section ExpressionBlend.
Import EmotionEngine Blending.

Definition expression_keys : list ExpressionKey :=
  [eyeOpenLeft; eyeOpenRight; eyeLookX; eyeLookY; pupilDilation;
   browLeftHeight; browRightHeight; browLeftAngle; browRightAngle;
   mouthSmile; mouthOpen; mouthWidth; jawOpen;
   cheekPuff; noseWrinkle; blushIntensity].

(** The numeric fields of an expression: its intensity and its sixteen
    parameters. *)
Definition expression_fields {num : Type} (e : FacialExpression num)
  : list num :=
  intensity e :: List.map (param e) expression_keys.

Lemma lerpExpression_fields {num : Type} `{JsNumber num}
    (a b : FacialExpression num) t :
  expression_fields (lerpExpression a b t)
  = List.map (fun xy => SignPoses.lerp t (fst xy) (snd xy))
      (combine (expression_fields a) (expression_fields b)).
Proof. reflexivity. Qed.

(** X12.  [lerpExpression] in doubles, as [lerpViseme]: at [t = 0] the
    emotion and the seventeen numeric fields of [a] (finite, no difference
    overflowing); at [t = 1] the emotion of [b] and the double
    [a + (b - a)] on every field; the emotion of [b] when [t > 0.5]
    holds and that of [a] whenever it does not (up to and at [0.5], below
    [0], at NaN); and a blend towards an expression
    already reached stays put at every finite [t]. *)
Theorem lerpExpression_ends :
  forall a b : FacialExpression float,
    (Forall (fun x => PrimFloat.is_finite x = true) (expression_fields a) ->
     Forall (fun xy => PrimFloat.is_finite (PrimFloat.sub (snd xy) (fst xy)) = true)
       (combine (expression_fields a) (expression_fields b)) ->
     emotion (lerpExpression a b (num_lit 0)) = emotion a
     /\ fields_eqb (expression_fields (lerpExpression a b (num_lit 0)))
          (expression_fields a) = true)
    /\ emotion (lerpExpression a b (num_lit 1)) = emotion b
    /\ expression_fields (lerpExpression a b (num_lit 1))
       = List.map (fun xy => PrimFloat.add (fst xy) (PrimFloat.sub (snd xy) (fst xy)))
           (combine (expression_fields a) (expression_fields b))
    /\ emotion (lerpExpression a b (num_lit 0.5)) = emotion a
    /\ (forall t, num_ltb (num_lit 0.5) t = true ->
                  emotion (lerpExpression a b t) = emotion b)
    /\ (forall t, num_ltb (num_lit 0.5) t = false ->
                  emotion (lerpExpression a b t) = emotion a)
    /\ (forall t,
          Forall (fun x => PrimFloat.is_finite x = true) (expression_fields a) ->
          PrimFloat.is_finite t = true ->
          fields_eqb (expression_fields a) (expression_fields b) = true ->
          fields_eqb (expression_fields (lerpExpression a b t))
            (expression_fields a) = true).
Proof.
  intros a b. split; [|split; [|split; [|split; [|split; [|split]]]]].
  - intros Fa Fd. split; [reflexivity|].
    rewrite lerpExpression_fields. now apply lerp_zero_fields.
  - reflexivity.
  - rewrite lerpExpression_fields. apply map_ext. intros [x y].
    unfold SignPoses.lerp.
    cbn [num_add num_sub num_mul num_lit float_number fst snd].
    change (Float64.lit 1) with 1%float. now rewrite FloatFacts.mul_one.
  - reflexivity.
  - intros t T. unfold lerpExpression. cbn [emotion]. now rewrite T.
  - intros t T. unfold lerpExpression. cbn [emotion]. now rewrite T.
  - intros t Fa Ft E. rewrite lerpExpression_fields.
    now apply lerp_reached_fields.
Qed.

Lemma lerpExpression_ends_witness :
  emotion
    (lerpExpression (num := float) NEUTRAL_EXPRESSION
       (getExpression happy (num_lit 1)) (num_lit 0)) = neutral
  /\ fields_eqb
       (expression_fields
          (lerpExpression (num := float) NEUTRAL_EXPRESSION
             (getExpression happy (num_lit 1)) (num_lit 0)))
       (expression_fields (NEUTRAL_EXPRESSION (num := float))) = true.
Proof.
  apply (proj1 (lerpExpression_ends NEUTRAL_EXPRESSION
                  (getExpression happy (num_lit 1))));
    vm_compute; repeat constructor.
Defined.

End ExpressionBlend.

(** ** The hand model's smoothing *)

Section HandSmoothing.
Import SignPoses Hand3D.

Lemma frame_interpolates {num : Type} `{JsNumber num}
    (transitionSpeed delta : num) (r : Refs num) :
  currentPoseRef (frame transitionSpeed delta r)
  = interpolatePose (currentPoseRef r) (targetPoseRef r)
      (num_min (num_lit 1) (num_mul transitionSpeed delta)).
Proof. reflexivity. Qed.

(** X13.  Each frame [Hand3DModel] moves the pose it shows towards its
    target by [interpolatePose] at [t = Math.min(1, transitionSpeed *
    delta)], and leaves the target alone.  In doubles, a hand that has
    reached its target stays on it: when the pose shown is finite and
    equals the target field by field, it is the same after any frame whose
    [transitionSpeed * delta] is finite. *)
Theorem frame_follows_target :
  (forall (num : Type) (N : JsNumber num) (transitionSpeed delta : num)
          (r : Refs num),
     currentPoseRef (frame transitionSpeed delta r)
     = interpolatePose (currentPoseRef r) (targetPoseRef r)
         (num_min (num_lit 1) (num_mul transitionSpeed delta))
     /\ targetPoseRef (frame transitionSpeed delta r) = targetPoseRef r)
  /\ (forall (transitionSpeed delta : float) (r : Refs float),
        finite_pose (currentPoseRef r) ->
        PrimFloat.is_finite (PrimFloat.mul transitionSpeed delta) = true ->
        pose_eqb (currentPoseRef r) (targetPoseRef r) = true ->
        pose_eqb (currentPoseRef (frame transitionSpeed delta r))
          (currentPoseRef r) = true).
Proof.
  split.
  - intros num N ts delta r. split; reflexivity.
  - intros ts delta r Fc Ft E. rewrite frame_interpolates.
    unfold pose_eqb in *. rewrite interpolatePose_fields.
    apply lerp_reached_fields; [|exact Fc | exact E].
    cbn [num_min num_mul num_lit float_number].
    change (Float64.lit 1) with 1%float.
    now apply FloatBlend.min_one_finite.
Qed.

Lemma frame_follows_target_witness :
  pose_eqb
    (currentPoseRef
       (frame (num_lit 6) (num_lit 0.016)
          (mount (num := float) None (Some (letter_pose asl "a")))))
    (interpolatePose REST_POSE (letter_pose asl "a")
       (num_min (num_lit 1) (num_mul (num_lit 6) (num_lit 0.016))))
  = true
  /\ pose_eqb
       (currentPoseRef
          (frame (num_lit 6) (num_lit 0.016)
             (mount (num := float) (Some (letter_pose asl "a")) None)))
       (letter_pose asl "a")
     = true.
Proof.
  destruct frame_follows_target as [A B]. split.
  - rewrite (proj1 (A float _ (num_lit 6) (num_lit 0.016)
                      (mount None (Some (letter_pose asl "a"))))).
    vm_compute. reflexivity.
  - apply (B (num_lit 6) (num_lit 0.016)
             (mount (Some (letter_pose asl "a")) None));
      [unfold finite_pose; vm_compute; repeat constructor
      | vm_compute; reflexivity | vm_compute; reflexivity].
Defined.

End HandSmoothing.

(** ** Keywords *)

Section Keywords.
Import EmotionEngine.
Context {num : Type} `{JsNumber num}.

Definition has_space (kw : string) : bool :=
  existsb JsString.is_space (JsString.chars kw).

(** The words the keyword loop visits hold no white space. *)
Lemma split_spaces_no_space s w :
  In w (JsString.split_spaces s) -> has_space w = false.
Proof.
  intros I. unfold has_space.
  destruct (existsb JsString.is_space (JsString.chars w)) eqn:E;
    [|reflexivity].
  apply existsb_exists in E as (c & C & Sp).
  destruct (split_ws_pieces _ _ _ _ I c C) as [[] | [_ N]]. congruence.
Qed.

(** X15.  Two keywords can never be found: ["can't wait"] (excited) and
    ["don't understand"] (confused) hold a space, and the words
    [analyzeEmotion] looks up are the pieces of a split on white space.
    For every word the loop visits, every keyword list answers as it would
    with its keywords that hold a space removed, and these two are the only
    such keywords. *)
Theorem spaced_keywords_never_match :
  (forall text w,
     In w (JsString.split_spaces (JsString.toLowerCase text)) ->
     forall e kws,
       In (e, kws) EMOTION_KEYWORDS ->
       includes kws w
       = includes (List.filter (fun kw => negb (has_space kw)) kws) w)
  /\ List.map
       (fun entry => (fst entry, List.filter has_space (snd entry)))
       EMOTION_KEYWORDS
     = [ (happy, []); (sad, []); (surprised, []); (angry, []);
         (thinking, []); (excited, ["can't wait"]);
         (confused, ["don't understand"]); (neutral, []) ].
Proof.
  split; [|reflexivity].
  intros text w I e kws _.
  pose proof (split_spaces_no_space _ _ I) as N.
  unfold includes. induction kws as [|kw kws IH]; [reflexivity|].
  cbn [existsb List.filter].
  destruct (has_space kw) eqn:K; cbn [negb existsb]; rewrite IH;
    [|reflexivity].
  destruct (String.eqb_spec w kw) as [-> | _]; [congruence | reflexivity].
Qed.

End Keywords.

(** ** A text without signal *)

Section Baseline.
Import EmotionEngine.

(** No word of the text is a keyword. *)
Definition no_keyword {num : Type} `{JsNumber num} (text : string) : bool :=
  forallb
    (fun w =>
       forallb (fun entry : EmotionType * list string => negb (includes (snd entry) w))
         (EMOTION_KEYWORDS))
    (JsString.split_spaces (JsString.toLowerCase text)).

Lemma count_word_none {num : Type} `{JsNumber num} w :
  forall entries (scores : Scores num),
  forallb (fun entry : EmotionType * list string => negb (includes (snd entry) w))
    entries = true ->
  fold_left
    (fun sc entry =>
       if includes (snd entry) w then bump sc (fst entry) (num_lit 1) else sc)
    entries scores
  = scores.
Proof.
  induction entries as [|[e kws] es IH]; intros scores F; [reflexivity|].
  cbn [forallb fold_left fst snd] in *.
  apply andb_true_iff in F as [F1 F2]. apply negb_true_iff in F1.
  rewrite F1. now apply IH.
Qed.

Lemma emotion_scores_none {num : Type} `{JsNumber num} text :
  no_keyword text = true ->
  JsString.count "!"%char text = 0%nat ->
  JsString.count "?"%char text = 0%nat ->
  emotion_scores text = initial_scores.
Proof.
  intros K E Q. unfold emotion_scores, boost. rewrite E, Q. cbn [Nat.ltb Nat.leb].
  unfold count_keywords, no_keyword in *.
  induction (JsString.split_spaces (JsString.toLowerCase text)) as [|w ws IH];
    [reflexivity|].
  cbn [forallb fold_left] in *. apply andb_true_iff in K as [K1 K2].
  unfold count_word at 2. rewrite (count_word_none w _ _ K1). now apply IH.
Qed.

(** X16.  A text with no keyword, no exclamation mark and no question mark
    is [neutral] with intensity [0.1 / 3], the baseline of [neutral] over
    three: about [0.033], in doubles, and never [0]. *)
Theorem no_signal_is_neutral :
  forall text,
    no_keyword (num := float) text = true ->
    JsString.count "!"%char text = 0%nat ->
    JsString.count "?"%char text = 0%nat ->
    analyzeEmotion (num := float) text
    = (neutral, num_div (num_lit 0.1) (num_lit 3))
    /\ num_ltb (num_lit 0) (snd (analyzeEmotion (num := float) text)) = true
    /\ num_ltb (snd (analyzeEmotion (num := float) text)) (num_lit 0.034) = true.
Proof.
  intros text K E Q.
  assert (A : analyzeEmotion (num := float) text
              = (neutral, num_div (num_lit 0.1) (num_lit 3))).
  { unfold analyzeEmotion. rewrite (emotion_scores_none text K E Q).
    vm_compute. reflexivity. }
  rewrite A. repeat split; vm_compute; reflexivity.
Qed.

Lemma no_signal_is_neutral_witness :
  analyzeEmotion (num := float) "The cat sat on the mat."
  = (neutral, num_div (num_lit 0.1) (num_lit 3)).
Proof.
  apply (no_signal_is_neutral "The cat sat on the mat."); reflexivity.
Defined.

End Baseline.

(** ** Expressions at the ends of the intensity range *)

Section ExpressionEnds.
Import EmotionEngine.

(** X17.  In doubles, at full intensity (the default) [getExpression]
    returns the preset values exactly, rounding included, on every
    parameter of every emotion, and the neutral value where the preset is
    silent; at intensity [0] every parameter equals its neutral value,
    whatever the emotion. *)
Theorem getExpression_ends :
  forall (e : EmotionType) (k : ExpressionKey),
    param (getExpression (num := float) e (num_lit 1)) k
    = match preset_value e k with
      | Some preset => preset
      | None => param NEUTRAL_EXPRESSION k
      end
    /\ num_eqb (param (getExpression (num := float) e (num_lit 0)) k)
         (param NEUTRAL_EXPRESSION k) = true
    /\ param (getExpression (num := float) neutral (num_lit 1)) k
       = param NEUTRAL_EXPRESSION k.
Proof.
  intros e k. split; [|split].
  - destruct e, k; vm_compute; reflexivity.
  - destruct e, k; vm_compute; reflexivity.
  - destruct k; reflexivity.
Qed.

End ExpressionEnds.

Module FloatChain.
Import FloatSign.
Open Scope Z_scope.

Lemma ltb_trans x y z :
  nonneg x -> nonneg y -> nonneg z ->
  SFltb x y = true -> SFltb y z = true -> SFltb x z = true.
Proof.
  destruct x as [[|]|[|]| |[|] m1 e1]; try contradiction;
    destruct y as [[|]|[|]| |[|] m2 e2]; try contradiction;
    destruct z as [[|]|[|]| |[|] m3 e3]; try contradiction;
    intros _ _ _; try reflexivity; try discriminate;
    try (intros T; discriminate T).
  rewrite !FloatCompare.ltb_finite. lia.
Qed.

Lemma leb_ltb_trans x y z :
  nonneg x -> nonneg y -> nonneg z ->
  SFleb x y = true -> SFltb y z = true -> SFltb x z = true.
Proof.
  destruct x as [[|]|[|]| |[|] m1 e1]; try contradiction;
    destruct y as [[|]|[|]| |[|] m2 e2]; try contradiction;
    destruct z as [[|]|[|]| |[|] m3 e3]; try contradiction;
    intros _ _ _; try reflexivity; try discriminate;
    try (intros T; discriminate T).
  rewrite !FloatCompare.ltb_finite, FloatOrder.leb_finite. lia.
Qed.

(** A count as a double is not negative. *)
Lemma of_uint63_nonneg u : nonneg (Prim2SF (PrimFloat.of_uint63 u)).
Proof.
  rewrite FloatAxioms.of_uint63_spec.
  pose proof (Uint63.to_Z_bounded u) as [B _].
  destruct (Uint63.to_Z u) as [|p|p]; [exact I | | lia].
  unfold binary_normalize, binary_round.
  destruct (shl_align _ _ _) as [mz ez]. apply round_nonneg_value. lia.
Qed.

Lemma of_Z_nonneg z : 0 <= z -> nonneg (Prim2SF (Float64.of_Z z)).
Proof.
  destruct z as [|p|p]; intros P; [exact I | | lia].
  apply of_uint63_nonneg.
Qed.

End FloatChain.

(** ** The winning emotion, in doubles *)

Section FloatWinner.
Import EmotionEngine.

Definition nonneg_scores (sc : Scores float) : Prop :=
  forall e, nonneg_double (sc e).

Lemma of_count_nonneg n : nonneg_double (of_count (num := float) n).
Proof.
  unfold nonneg_double, of_count. cbn [num_lit float_number].
  unfold Float64.lit. cbn [Qnum Qden inject_Z].
  rewrite FloatAxioms.div_spec.
  apply FloatSign.div_nonneg.
  - apply FloatChain.of_Z_nonneg. lia.
  - vm_compute. exact I.
  - right. vm_compute. eexists. eexists. reflexivity.
Qed.

Lemma bump_nonneg sc e x :
  nonneg_scores sc -> nonneg_double x -> nonneg_scores (bump sc e x).
Proof.
  intros S X e'. unfold bump. destruct (EmotionType_eqb e' e); [|apply S].
  unfold nonneg_double. cbn [num_add float_number].
  rewrite FloatAxioms.add_spec. apply FloatSign.add_nonneg; [apply S | exact X].
Qed.

Lemma one_nonneg : nonneg_double (num_lit 1).
Proof. vm_compute. exact I. Qed.

Lemma count_word_nonneg w sc :
  nonneg_scores sc -> nonneg_scores (count_word sc w).
Proof.
  unfold count_word. generalize (EMOTION_KEYWORDS). intros entries.
  revert sc. induction entries as [|[e kws] es IH]; intros sc S; [exact S|].
  cbn [fold_left fst snd]. apply IH.
  destruct (includes kws w); [|exact S].
  apply bump_nonneg; [exact S | exact one_nonneg].
Qed.

Lemma boost_nonneg sc n strong weak :
  nonneg_scores sc -> nonneg_scores (boost sc n strong weak).
Proof.
  intros S. unfold boost. destruct (0 <? n)%nat; [|exact S].
  assert (M : forall q : Q,
            (exists m e, Prim2SF (num_lit q) = S754_finite false m e) ->
            nonneg_double (num_mul (of_count n) (num_lit q))).
  { intros q Fq. unfold nonneg_double. cbn [num_mul float_number].
    rewrite FloatAxioms.mul_spec. apply FloatSign.mul_nonneg; [|exact Fq].
    apply of_count_nonneg. }
  apply bump_nonneg; [apply bump_nonneg; [exact S|]|]; apply M;
    vm_compute; eexists; eexists; reflexivity.
Qed.

Lemma emotion_scores_nonneg text : nonneg_scores (emotion_scores text).
Proof.
  unfold emotion_scores. apply boost_nonneg, boost_nonneg.
  unfold count_keywords.
  assert (I : nonneg_scores (initial_scores (num := float)))
    by (intros []; vm_compute; exact I).
  revert I. generalize (initial_scores (num := float)).
  induction (JsString.split_spaces (JsString.toLowerCase text)) as [|w ws IH];
    intros sc S; [exact S|].
  cbn [fold_left]. apply IH. now apply count_word_nonneg.
Qed.

(** The loop over the scores returns the first key of the highest score
    that beats the initial [maxScore], if one does. *)
Lemma pick_first_max (sc : Scores float) : nonneg_scores sc ->
  forall keys e m, nonneg_double m ->
  (fold_left (pick sc) keys (e, m) = (e, m)
   /\ Forall (fun k => PrimFloat.leb (sc k) m = true) keys)
  \/ (exists l1 w l2,
        keys = (l1 ++ w :: l2)%list
        /\ fold_left (pick sc) keys (e, m) = (w, sc w)
        /\ PrimFloat.ltb m (sc w) = true
        /\ Forall (fun k => PrimFloat.ltb (sc k) (sc w) = true) l1
        /\ Forall (fun k => PrimFloat.leb (sc k) (sc w) = true) l2).
Proof.
  intros S. induction keys as [|k ks IH]; intros e m M.
  - left. split; [reflexivity | constructor].
  - cbn [fold_left].
    assert (P : pick sc (e, m) k
                = if PrimFloat.ltb m (sc k) then (k, sc k) else (e, m))
      by reflexivity.
    rewrite P. clear P.
    destruct (PrimFloat.ltb m (sc k)) eqn:B.
    + right. destruct (IH k (sc k) (S k)) as [[E F] | (l1 & w & l2 & -> & E & Lt & F1 & F2)].
      * exists [], k, ks. repeat split; trivial; constructor.
      * exists (k :: l1), w, l2. split; [reflexivity|]. split; [exact E|].
        split; [|split; [constructor; assumption | exact F2]].
        rewrite FloatAxioms.ltb_spec in B. rewrite FloatAxioms.ltb_spec in Lt.
        rewrite FloatAxioms.ltb_spec.
        exact (FloatChain.ltb_trans _ _ _ M (S k) (S w) B Lt).
    + assert (Le : PrimFloat.leb (sc k) m = true).
      { rewrite FloatAxioms.leb_spec. rewrite FloatAxioms.ltb_spec in B.
        apply FloatCompare.ltb_or_leb; [exact M | exact (S k) | exact B]. }
      destruct (IH e m M) as [[E F] | (l1 & w & l2 & -> & E & Lt & F1 & F2)].
      * left. split; [exact E | now constructor].
      * right. exists (k :: l1), w, l2. split; [reflexivity|].
        split; [exact E|]. split; [exact Lt|]. split; [|exact F2].
        constructor; [|exact F1].
        rewrite FloatAxioms.leb_spec in Le. rewrite FloatAxioms.ltb_spec in Lt.
        rewrite FloatAxioms.ltb_spec.
        exact (FloatChain.leb_ltb_trans _ _ _ (S k) M (S w) Le Lt).
Qed.

(** [Math.min(1, x)] of a double that is not negative lies in [0, 1]. *)
Lemma min_one_range x :
  nonneg_double x ->
  nonneg_double (Float64.min 1 x)
  /\ PrimFloat.leb (Float64.min 1 x) 1 = true.
Proof.
  intros X. unfold Float64.min.
  assert (N : PrimFloat.is_nan x = false).
  { unfold PrimFloat.is_nan, nonneg_double in *.
    rewrite FloatAxioms.eqb_spec.
    destruct (Prim2SF x) as [[|]|[|]| |[|] m e]; try contradiction;
      try reflexivity.
    unfold SFeqb, SFcompare.
    now rewrite Z.compare_refl, Pos.compare_cont_refl. }
  rewrite N. change (PrimFloat.is_nan 1) with false. cbn [orb].
  assert (One : nonneg_double 1) by (vm_compute; exact I).
  destruct (PrimFloat.ltb 1 x) eqn:A; [split; [exact One | reflexivity]|].
  destruct (PrimFloat.ltb x 1) eqn:B.
  - split; [exact X|]. rewrite FloatAxioms.leb_spec.
    rewrite FloatAxioms.ltb_spec in B. now apply FloatCompare.ltb_leb.
  - change (PrimFloat.get_sign 1) with false. cbn iota. split; [exact X|].
    rewrite FloatAxioms.leb_spec. rewrite FloatAxioms.ltb_spec in A.
    apply FloatCompare.ltb_or_leb; [exact One | exact X | exact A].
Qed.

(** X18.  In doubles, rounding included: the emotion [analyzeEmotion]
    returns is the first, in the order of the keys of [scores] ([neutral],
    [happy], [sad], [surprised], [angry], [thinking], [excited],
    [confused]), among those of the highest score.  Every key before it
    has a strictly lower score and no key after it a higher one, so a tie
    goes to the earlier key.  The intensity returned is a double from [0]
    to [1], never NaN. *)
Theorem first_highest_score_wins :
  forall text,
    (exists before after,
       score_keys = (before ++ fst (analyzeEmotion (num := float) text) :: after)%list
       /\ Forall
            (fun e =>
               PrimFloat.ltb (emotion_scores text e)
                 (emotion_scores text (fst (analyzeEmotion (num := float) text)))
               = true)
            before
       /\ Forall
            (fun e =>
               PrimFloat.leb (emotion_scores text e)
                 (emotion_scores text (fst (analyzeEmotion (num := float) text)))
               = true)
            after)
    /\ num_leb (num_lit 0) (snd (analyzeEmotion (num := float) text)) = true
    /\ num_leb (snd (analyzeEmotion (num := float) text)) (num_lit 1) = true.
Proof.
  intros text.
  pose proof (emotion_scores_nonneg text) as S.
  assert (Z : nonneg_double (num_lit 0)) by (vm_compute; exact I).
  pose proof (pick_first_max _ S score_keys neutral (num_lit 0) Z) as P.
  unfold analyzeEmotion.
  destruct P as [[E F] | (l1 & w & l2 & K & E & Lt & F1 & F2)].
  - exfalso. apply Forall_inv in F.
    rewrite (emotion_scores_neutral (num := float) text) in F.
    vm_compute in F. discriminate F.
  - rewrite E. cbn [fst snd]. split.
    + exists l1, l2. split; [exact K|]. split; [exact F1 | exact F2].
    + assert (X : nonneg_double (num_div (emotion_scores text w) (num_lit 3))).
      { unfold nonneg_double. cbn [num_div float_number].
        rewrite FloatAxioms.div_spec. apply FloatSign.div_nonneg;
          [apply S | vm_compute; exact I
          | right; vm_compute; eexists; eexists; reflexivity]. }
      destruct (min_one_range _ X) as [R1 R2].
      cbn [num_min num_leb num_lit float_number].
      change (Float64.lit 1) with 1%float. split; [|exact R2].
      rewrite FloatAxioms.leb_spec. change (Float64.lit 0) with 0%float.
      change (Prim2SF 0) with (S754_zero false).
      unfold nonneg_double in R1.
      destruct (Prim2SF (Float64.min 1 _)) as [[|]|[|]| |[|] m e];
        try contradiction; reflexivity.
Qed.

End FloatWinner.

(** ** Playback left to its timers *)

Section PlaybackRuns.
Import SignPoses LipSync Playback.
Context {num : Type} `{JsNumber num}.
Variable text : string.







(** What the callback of render [r] does is settled by [r]: it stops
    playback, or it writes counters and re-arms itself, or it does nothing
    (on an item it cannot play), the same in every state. *)
Definition rearms (r : Render num) (d : num) : Prop :=
  forall now s,
    exists s1,
      advancePlayback r now s = schedule r d s1
      /\ timeouts s1 = timeouts s /\ playing s1 = playing s.

Lemma advancePlayback_shape (r : Render num) :
  (forall now s, advancePlayback r now s = stopPlaying s)
  \/ (exists d, rearms r d)
  \/ (forall now s, advancePlayback r now s = s).
Proof.
  unfold rearms, advancePlayback.
  destruct (r_signMode r).
  - destruct (nth_error (r_glossItems r) (r_currentItemIndex r)) as [item|];
      [|now left].
    destruct (gloss_type item), (animation item) as [[a|m]|],
      (letterPoses item) as [letters|];
      try (right; right; reflexivity);
      repeat match goal with
             | |- context [if ?b then _ else _] => destruct b
             end;
      try (now left);
      right; left; eexists; intros now s; eexists;
      (split; [reflexivity | split; reflexivity]).
  - destruct (r_currentLetterIndex r + 1 <? List.length (r_spellChars r))%nat;
      [|now left].
    right. left. eexists. intros now s. eexists.
    split; [reflexivity | split; reflexivity].
Qed.





End PlaybackRuns.

Section PlaybackRunExamples.
Import SignPoses LipSync Playback.


End PlaybackRunExamples.

Section PlaybackOverrun.
Import SignPoses LipSync Playback.
Context {num : Type} `{JsNumber num}.
Variable text : string.




End PlaybackOverrun.

Section PlaybackOverrunExamples.
Import SignPoses LipSync Playback.


End PlaybackOverrunExamples.

(** ** The lip-sync sampler *)

Section Sampler.
Import SignPoses LipSync Playback.
Context {num : Type} `{JsNumber num}.
Variable text : string.

(** No sampler runs, or one does and [lipSyncIntervalRef] holds its
    handle; none runs while not playing. *)
Definition sampler_invariant (s : State num) : Prop :=
  ((intervals s = [] /\ lipSyncIntervalRef s = None)
   \/ (exists h, intervals s = [h] /\ lipSyncIntervalRef s = Some h))
  /\ (playing s = false -> intervals s = []).

Lemma stopPlaying_sampler (s : State num) :
  sampler_invariant s ->
  sampler_invariant (stopPlaying s)
  /\ intervals (stopPlaying s) = []
  /\ lipSyncIntervalRef (stopPlaying s) = None.
Proof.
  intros [T _]. unfold sampler_invariant, stopPlaying, stopLipSync,
    clearTimer, clearInterval.
  destruct s as [? ? ? ? ? ? ? ? ? ? ? tr lr ts ivs ?]. cbn in *.
  destruct T as [[-> ->] | (h & -> & ->)]; destruct tr; cbn;
    rewrite ?Nat.eqb_refl; cbn; tauto.
Qed.

Lemma startPlaying_sampler r now (s : State num) :
  sampler_invariant s -> sampler_invariant (startPlaying r now s).
Proof.
  intros [T _]. unfold sampler_invariant, startPlaying, startLipSync,
    schedule, clearInterval.
  destruct s as [? ? ? ? ? ? ? ? ? ? ? tr lr ts ivs ?]. cbn in *.
  destruct T as [[-> ->] | (h & -> & ->)]; cbn; rewrite ?Nat.eqb_refl; cbn;
    (split; [right; eexists; split; reflexivity | discriminate]).
Qed.

Lemma keep_sampler (s s' : State num) :
  intervals s' = intervals s -> lipSyncIntervalRef s' = lipSyncIntervalRef s ->
  playing s' = playing s ->
  sampler_invariant s -> sampler_invariant s'.
Proof. unfold sampler_invariant. intros -> -> ->. trivial. Qed.

Lemma advancePlayback_sampler r now (s : State num) :
  sampler_invariant s -> sampler_invariant (advancePlayback r now s).
Proof.
  intros I.
  destruct (advancePlayback_shape r) as [A | [(d & A) | A]].
  - rewrite A. now apply stopPlaying_sampler.
  - (* a re-arming callback writes counters and the start time only *)
    clear A. unfold advancePlayback, next_item.
    repeat match goal with
           | |- sampler_invariant (match ?x with _ => _ end) => destruct x
           end;
      first [ now apply stopPlaying_sampler
            | exact I
            | eapply keep_sampler; [| | |exact I]; reflexivity ].
  - now rewrite A.
Qed.

Lemma step_sampler (s : State num) e :
  sampler_invariant s -> sampler_invariant (step text s e).
Proof.
  intros I. destruct e as [now| | | | |idx|mode|mode|v|h now]; cbn [step].
  - now apply startPlaying_sampler.
  - now apply stopPlaying_sampler.
  - eapply keep_sampler; [| | |apply (stopPlaying_sampler s I)]; reflexivity.
  - unfold stepForward, next_item.
    destruct (r_signMode _);
      match goal with |- context [if ?b then _ else _] => destruct b end;
      first [exact I | eapply keep_sampler; [| | |exact I]; reflexivity].
  - unfold stepBackward.
    destruct (r_signMode _);
      match goal with |- context [if ?b then _ else _] => destruct b end;
      first [exact I | eapply keep_sampler; [| | |exact I]; reflexivity].
  - eapply keep_sampler; [| | |exact I]; reflexivity.
  - eapply keep_sampler;
      [| | |apply (stopPlaying_sampler (set_languageMode mode s))];
      try reflexivity.
    eapply keep_sampler; [| | |exact I]; reflexivity.
  - eapply keep_sampler;
      [| | |apply (stopPlaying_sampler (set_signMode mode s))];
      try reflexivity.
    eapply keep_sampler; [| | |exact I]; reflexivity.
  - eapply keep_sampler; [| | |exact I]; reflexivity.
  - apply advancePlayback_sampler.
    eapply keep_sampler; [| | |exact I]; reflexivity.
Qed.

(** X21.  In every state the controls and the timers lead to, at most one
    lip-sync sampler ([setInterval]) is running, [lipSyncIntervalRef] holds
    its handle, and none is running while not playing: [startLipSync]
    clears the one it finds before it starts another, and whatever stops
    playback stops the sampler.  After Pause or Reset neither a sampler nor
    a timeout is left. *)
Theorem at_most_one_sampler :
  forall (externalPlaying : bool) (s : State num),
    reachable text externalPlaying s ->
    (List.length (intervals s) <= 1)%nat
    /\ (forall h, In h (intervals s) -> lipSyncIntervalRef s = Some h)
    /\ (playing s = false -> intervals s = [])
    /\ intervals (stopPlaying s) = [] /\ timeouts (stopPlaying s) = []
    /\ intervals (reset s) = [] /\ timeouts (reset s) = [].
Proof.
  intros b s R.
  assert (I : sampler_invariant s).
  { induction R as [|s e _ IH _].
    - split; [left; split; reflexivity | reflexivity].
    - now apply step_sampler. }
  destruct (reachable_invariant text b s R) as [T _].
  destruct (stopPlaying_idle s T) as [[_ Idle] Off].
  destruct (stopPlaying_sampler s I) as (_ & S1 & _).
  destruct I as [Tr Off'].
  split; [|split; [|split; [exact Off'|]]].
  - destruct Tr as [[-> _] | (h & -> & _)]; cbn; lia.
  - intros h In. destruct Tr as [[E _] | (h' & E & Rf)]; rewrite E in In.
    + destruct In.
    + destruct In as [<- | []]. exact Rf.
  - split; [exact S1|]. split; [exact (Idle Off)|].
    split; [exact S1 | exact (Idle Off)].
Qed.

End Sampler.

Section SamplerExamples.
Import SignPoses LipSync Playback.

Lemma at_most_one_sampler_witness :
  (List.length (intervals hello_started) <= 1)%nat
  /\ intervals (stopPlaying hello_started) = []
  /\ timeouts (reset hello_started) = [].
Proof.
  destruct (at_most_one_sampler "hello" false hello_started
              hello_started_reachable) as (A & _ & _ & B & _ & _ & C).
  split; [exact A | split; [exact B | exact C]].
Defined.

End SamplerExamples.

(** ** How the controls compose *)

(** The setters and the fields of the state, unfolded and nothing else. *)
Ltac state_fields :=
  cbv beta iota delta
    [Playback.set_headTilt Playback.set_currentViseme Playback.set_currentPose
     Playback.set_currentLetterIndex Playback.set_currentKeyframe
     Playback.set_currentItemIndex Playback.set_playing Playback.set_timerRef
     Playback.set_timeouts Playback.set_lipSyncIntervalRef
     Playback.set_intervals Playback.timerRef Playback.lipSyncIntervalRef
     Playback.timeouts Playback.intervals Playback.signMode
     Playback.languageMode Playback.playing Playback.currentItemIndex
     Playback.currentKeyframe Playback.currentLetterIndex
     Playback.currentPose Playback.speed Playback.currentViseme
     Playback.headTilt Playback.lipSyncStartTime Playback.next_handle].

Section Controls.
Import SignPoses LipSync Playback.
Context {num : Type} `{JsNumber num}.
Variable text : string.

(** What the user has chosen and where playback stands: the modes, the
    speed, the three counters and the pose. *)
Definition standing (s : State num) :=
  (signMode s, languageMode s, speed s,
   currentItemIndex s, currentKeyframe s, currentLetterIndex s, currentPose s).

(** X22.  Start and Pause move nothing: [startPlaying] and [stopPlaying]
    leave the modes, the speed, the three counters and the pose as they
    are.  Start followed by Pause, from a state with no timeout and no
    sampler, is back to such a state, not playing, at the same place. *)
Theorem start_pause_keep_place :
  (forall r now (s : State num), standing (startPlaying r now s) = standing s)
  /\ (forall s : State num, standing (stopPlaying s) = standing s)
  /\ (forall now (s : State num),
        timeouts s = [] -> intervals s = [] ->
        standing (step text (step text s (ClickStart now)) ClickPause)
        = standing s
        /\ playing (step text (step text s (ClickStart now)) ClickPause) = false
        /\ timeouts (step text (step text s (ClickStart now)) ClickPause) = []
        /\ intervals (step text (step text s (ClickStart now)) ClickPause) = []
        /\ timerRef (step text (step text s (ClickStart now)) ClickPause) = None
        /\ lipSyncIntervalRef
             (step text (step text s (ClickStart now)) ClickPause) = None).
Proof.
  split; [|split].
  - intros r now s. unfold startPlaying, startLipSync.
    now destruct (lipSyncIntervalRef (set_playing true s)).
  - intros s. unfold stopPlaying, stopLipSync, clearTimer.
    destruct s as [? ? ? ? ? ? ? ? ? ? ? tr lr ts ivs ?]. cbn.
    now destruct tr, lr.
  - intros now s E I. cbn [step].
    unfold stopPlaying, stopLipSync, clearTimer, startPlaying, startLipSync,
      schedule, clearTimeout, clearInterval.
    destruct s as [? ? ? ? ? ? ? ? ? ? ? tr lr ts ivs nh]. cbn in *.
    subst ts ivs. destruct lr; cbn; rewrite ?Nat.eqb_refl; cbn;
      repeat split.
Qed.

(** What the handlers never read and what is written between two clicks by
    the pose effect ([setCurrentPose], [setHeadTilt]) and by the lip-sync
    sampler ([setCurrentViseme]). *)
Definition shows (p : HandPose num) (tilt : num * num * num)
    (v : Viseme num) (s : State num) : State num :=
  set_currentViseme v (set_headTilt tilt (set_currentPose p s)).

(** The state apart from what is shown. *)
Definition place (s : State num) : State num :=
  shows REST_POSE (num_lit 0, num_lit 0, num_lit 0) VISEMES_rest s.



(** X24.  Stopping twice is stopping once, and so is resetting, as far as
    the place goes: apart from what is shown, [reset] and [stopPlaying] are
    idempotent, [reset] after [stopPlaying] is [reset], and a Reset undoes
    every step and jump made since the last one, whatever the pose effect
    and the sampler showed in between.  The pose shown is left out: the
    pose effect may run after a Reset and replace the [REST_POSE] the
    handler wrote. *)
Theorem reset_idempotent :
  forall (s : State num) p tilt v,
    place (reset (shows p tilt v (reset s))) = place (reset s)
    /\ place (stopPlaying (shows p tilt v (stopPlaying s)))
       = place (stopPlaying s)
    /\ place (reset (shows p tilt v (stopPlaying s))) = place (reset s)
    /\ (forall r, place (reset (shows p tilt v (stepForward r s)))
                  = place (reset s))
    /\ (forall r, place (reset (shows p tilt v (stepBackward r s)))
                  = place (reset s))
    /\ (forall idx, place (reset (shows p tilt v (jumpTo idx s)))
                    = place (reset s)).
Proof.
  intros s p tilt v.
  destruct s as [? ? ? ? ? ? ? ? ? ? ? tr lr ts ivs ?].
  split; [|split; [|split; [|split; [|split]]]]; intros;
    unfold stepForward, stepBackward, jumpTo, next_item;
    repeat match goal with
           | |- context [match r_signMode ?r with _ => _ end] =>
               destruct (r_signMode r)
           | |- context [if ?b then _ else _] => destruct b
           end;
    unfold place, shows, reset, stopPlaying, stopLipSync, clearTimer,
      clearTimeout, clearInterval;
    destruct tr, lr; state_fields; reflexivity.
Qed.

End Controls.

(** ** Reading a gloss back *)

Section ReadBack.
Import SignPoses.

Lemma append_nil_r (s : string) : s ++ "" = s.
Proof. induction s as [|c s IH]; simpl; [reflexivity | now rewrite IH]. Qed.

Lemma lower_is_no_space c :
  JsString.is_lower c = true -> JsString.is_space c = false.
Proof.
  destruct c as [[] [] [] [] [] [] [] []]; intros L; vm_compute in L;
    try discriminate L; reflexivity.
Qed.

(** A word without white space goes to the piece being read. *)
Lemma split_ws_word w : forall rest cur in_run,
  w <> "" ->
  forallb JsString.is_lower (JsString.chars w) = true ->
  JsString.split_ws (w ++ rest) cur in_run
  = JsString.split_ws rest (cur ++ w) false.
Proof.
  induction w as [|c w IH]; intros rest cur in_run Ne L; [now destruct Ne|].
  cbn [JsString.chars list_ascii_of_string forallb] in L.
  apply andb_true_iff in L as [Lc L].
  cbn [append JsString.split_ws]. rewrite (lower_is_no_space c Lc).
  destruct w as [|c' w'].
  - reflexivity.
  - rewrite IH by (trivial; discriminate). now rewrite append_assoc.
Qed.

Lemma split_join : forall ws,
  Forall word_ok ws -> ws <> [] ->
  forall in_run, JsString.split_ws (String.concat " " ws) "" in_run = ws.
Proof.
  induction ws as [|w ws IH]; intros F Ne in_run; [now destruct Ne|].
  inversion F as [|? ? [Nw Lw] F']; subst.
  destruct ws as [|w2 ws].
  - cbn [String.concat]. rewrite <- (append_nil_r w) at 1.
    now rewrite split_ws_word.
  - rewrite concat_cons, split_ws_word by trivial.
    cbn [append JsString.split_ws].
    change (JsString.is_space " ") with true. cbn iota.
    now rewrite IH.
Qed.

Lemma concat_phrase_ok ws : Forall word_ok ws -> phrase_ok (String.concat " " ws).
Proof.
  induction ws as [|w ws IH]; intros F; [reflexivity|].
  inversion F as [|? ? W F']; subst. destruct ws as [|w2 ws].
  - now apply word_phrase_ok.
  - rewrite concat_cons. apply phrase_ok_app; [now apply word_phrase_ok|].
    now apply IH.
Qed.

Lemma filter_kept_phrase p : phrase_ok p -> JsString.filter kept p = p.
Proof.
  unfold phrase_ok, JsString.chars.
  induction p as [|c p IH]; simpl; [reflexivity|]. intros K.
  apply andb_true_iff in K as [Kc K].
  assert (E : kept c = true).
  { revert Kc. destruct c as [[] [] [] [] [] [] [] []]; vm_compute; congruence. }
  now rewrite E, IH.
Qed.

Lemma filter_truthy_words ws :
  Forall word_ok ws -> List.filter JsString.truthy ws = ws.
Proof.
  induction 1 as [|w ws [Ne _] _ IH]; [reflexivity|].
  cbn [List.filter]. rewrite IH.
  destruct w; [now destruct Ne | reflexivity].
Qed.

(** The words of the upper-cased, space-joined words are the words. *)
Lemma normalize_join ws :
  Forall word_ok ws ->
  normalize (JsString.toUpperCase (String.concat " " ws)) = ws.
Proof.
  intros F. unfold normalize. fold kept.
  rewrite (toLowerCase_toUpperCase _ (concat_phrase_ok ws F)).
  rewrite (filter_kept_phrase _ (concat_phrase_ok ws F)).
  destruct ws as [|w ws]; [reflexivity|].
  unfold JsString.split_spaces. rewrite split_join by (trivial; discriminate).
  now apply filter_truthy_words.
Qed.

(** X25.  Glossing is stable under reading back: the text made of the
    values of the items, joined by spaces, has the same normalised words as
    the text itself and is resolved to the very same items.  What the chips
    show is a text the resolver reads as it read the original. *)
Theorem gloss_of_gloss :
  forall (num : Type) (N : JsNumber num) text mode,
    exists items,
      textToSignGloss (num := num) text mode = Some items
      /\ normalize (String.concat " " (List.map value items)) = normalize text
      /\ textToSignGloss (String.concat " " (List.map value items)) mode
         = Some items.
Proof.
  intros num N text mode.
  destruct (gloss_words_scan (getWordAnimations mode) (getLetterPoses mode)
              (normalize text)) as (items & E & G).
  exists items. split; [exact E|].
  assert (R : normalize (String.concat " " (List.map value items))
              = normalize text).
  { rewrite (greedy_scan_values _ _ _ _ G).
    apply normalize_join, normalize_words. }
  split; [exact R|]. unfold textToSignGloss in *. now rewrite R.
Qed.

End ReadBack.

(** ** Letter case *)

Section CaseBlind.
Import SignPoses LipSync EmotionEngine.

Lemma count_lower m s :
  JsString.is_lower m = false -> JsString.is_upper m = false ->
  JsString.is_upper_latin1 m = false -> (N_of_ascii m <? 224)%N = true ->
  JsString.count m (JsString.toLowerCase s) = JsString.count m s.
Proof.
  intros L U U1 B. unfold JsString.count, JsString.toLowerCase.
  rewrite chars_map. induction (JsString.chars s) as [|c l IH];
    [reflexivity|].
  cbn [List.map List.filter]. rewrite (lower_char_mark m c L U U1 B).
  destruct (Ascii.eqb m c); cbn [List.length]; now rewrite IH.
Qed.

Lemma emotion_scores_lower {num : Type} `{JsNumber num} text :
  emotion_scores (JsString.toLowerCase text) = emotion_scores text.
Proof.
  unfold emotion_scores.
  now rewrite toLowerCase_idem, !count_lower by reflexivity.
Qed.

(** X26.  Letter case is ignored throughout: two texts with the same lower
    case have the same gloss in either mode, the same lip-sync frames at
    any rate, and the same detected emotion and intensity: each of the
    three reads its text through [toLowerCase], and the marks
    [analyzeEmotion] counts on the text as given are no letters. *)
Theorem case_is_ignored :
  forall (num : Type) (N : JsNumber num) (a b : string),
    JsString.toLowerCase a = JsString.toLowerCase b ->
    (forall mode,
       textToSignGloss (num := num) a mode = textToSignGloss b mode)
    /\ (forall wpm : num, generateLipSync a wpm = generateLipSync b wpm)
    /\ analyzeEmotion (num := num) a = analyzeEmotion b.
Proof.
  intros num N a b E. split; [|split].
  - intros mode. unfold textToSignGloss, normalize. now rewrite E.
  - intros wpm. unfold generateLipSync. now rewrite E.
  - unfold analyzeEmotion.
    rewrite <- (emotion_scores_lower a), <- (emotion_scores_lower b).
    now rewrite E.
Qed.

Lemma case_is_ignored_witness :
  analyzeEmotion (num := float) "So HAPPY!" = analyzeEmotion "so happy!"
  /\ textToSignGloss (num := float) "Thank You" asl
     = textToSignGloss "thank you" asl.
Proof.
  destruct (case_is_ignored float _ "So HAPPY!" "so happy!" eq_refl)
    as (_ & _ & A).
  destruct (case_is_ignored float _ "Thank You" "thank you" eq_refl)
    as (B & _).
  split; [exact A | exact (B asl)].
Defined.

End CaseBlind.

Section ControlExamples.
Import SignPoses LipSync Playback.


End ControlExamples.
